(** * Hash table, hash set and binary heap of the container library

    A shallow embedding of [hash/hashtable.h], [data_structures/hash/hashset.h],
    [dynarray/dynarray.h], [data_structures/heap/heap_interface.h],
    [data_structures/heap/binary_heap.h], [data_structures/heap/min_heap.h]
    and [data_structures/heap/max_heap.h], with the properties the design
    document states about them and further properties of the code.

    Modelling conventions.
    - [size_t] fields (sizes, capacities, indices) are natural numbers.  Every
      bucket array and backing array of capacity [c] is obtained from
      [calloc]/[realloc] with [c * sizeof (void * )] bytes and the program
      exits when that fails, so in an execution that has not exited
      [2 * c] does not wrap; [size] counts live allocations.  The hash
      functions do rely on wrap-around of [size_t]; there it is written out.
    - [size_t] is 64 bits wide.  [int] is a 32-bit two's complement integer
      and arithmetic on it wraps, as it does on the usual targets (the C
      standard leaves signed overflow undefined).
    - [void *] values stored in a table are addresses ([Z], [NULL = 0]); the
      table never dereferences them.
    - A key is modelled by its content; [key_copy] yields that content again,
      [key_free] only returns memory and has no counterpart.
    - A bucket chain (the [next]-linked entries) is the list of its entries,
      head first.
    - Allocation of an entry is taken to succeed (the path that returns
      [false] from [hashtable_put] is the out-of-memory path).
    - The load test [(double) size >= 0.75 * capacity] is exact in double
      precision for every size and capacity below [2^51]; it is the integer
      test [3 * capacity <= 4 * size].
    - The growable array is modelled twice: in [DynArray] by the list of the
      elements in use, which is all the heap reads, and in [DynArrayCells]
      with its block of cells, [size] and [capacity]; the second is shown
      to act on the cells in use as the first acts on the list.
    - The sets passed to one call of a set operation, and the heaps passed
      to [binary_heap_merge], are different objects. *)

From Stdlib Require Import ZArith Lia List Permutation Sorted Bool String Ascii.
From stdpp Require Import base list.

#[local] Open Scope nat_scope.

(** ** Machine integers *)

Definition size_t_modulus : Z := 2 ^ 64.

(** Conversion to, and arithmetic in, [size_t]. *)
Definition to_size_t (x : Z) : Z := (x mod size_t_modulus)%Z.

(** Result of an [int] operation whose mathematical value is [x]. *)
Definition to_int (x : Z) : Z := ((x + 2 ^ 31) mod 2 ^ 32 - 2 ^ 31)%Z.

(** ** Pointers stored as values *)

Definition ptr : Type := Z.
Definition NULL : ptr := 0%Z.
Definition is_null (p : ptr) : bool := (p =? NULL)%Z.

(** * The hash table *)

Module Hash.

Definition HASHTABLE_DEFAULT_SIZE : nat := 16.
Definition HASHTABLE_MIN_SIZE : nat := 8.
Definition HASHTABLE_GROWTH_FACTOR : nat := 2.
(** [HASHTABLE_LOAD_FACTOR] is 0.75, the fraction [3/4]. *)
Definition LOAD_NUM : nat := 3.
Definition LOAD_DEN : nat := 4.

(** [struct HashFunction]: the policy bound to a key type. *)
Record HashFunction (K : Type) : Type := {
  hash : K -> nat -> nat;
  key_equals : K -> K -> bool;
  key_copy : K -> K
}.
Arguments hash {K}.
Arguments key_equals {K}.
Arguments key_copy {K}.

(** The contract the table expects of a policy (section 4.1 of the design
    document): an index below the capacity, an equivalence on keys, a hash
    that depends on the content only, copies with identical content. *)
Record LawfulPolicy {K : Type} (hf : HashFunction K) : Prop := {
  hash_range : forall k c, 0 < c -> hash hf k c < c;
  equals_refl : forall k, key_equals hf k k = true;
  equals_sym : forall a b, key_equals hf a b = key_equals hf b a;
  equals_trans : forall a b c,
    key_equals hf a b = true -> key_equals hf b c = true ->
    key_equals hf a c = true;
  hash_equals : forall a b c,
    key_equals hf a b = true -> hash hf a c = hash hf b c;
  copy_same : forall k, key_copy hf k = k
}.

(** *** Built-in policies *)

(** [hash_int]: multiplicative hashing in [size_t]. *)
Definition hash_int (val : Z) (capacity : nat) : nat :=
  let A := 2654435761%Z in
  Z.to_nat (to_size_t (to_size_t val * A) mod Z.of_nat capacity)%Z.

Definition hash_int_equals (key1 key2 : Z) : bool := (key1 =? key2)%Z.

Definition hash_int_copy (key : Z) : Z := key.

Definition INT_HASH_FUNC : HashFunction Z :=
  {| hash := hash_int; key_equals := hash_int_equals; key_copy := hash_int_copy |}.

(** The value [c = *str++] of a [char] read as an [int] ([char] is signed). *)
Definition char_value (a : ascii) : Z :=
  let n := Z.of_N (N_of_ascii a) in
  if (n <? 128)%Z then n else (n - 256)%Z.

(** The loop of [hash_string_djb2]. *)
Fixpoint djb2_loop (str : string) (hash : Z) : Z :=
  match str with
  | EmptyString => hash
  | String c rest =>
      djb2_loop rest (to_size_t (to_size_t (Z.shiftl hash 5 + hash) + char_value c))
  end.

Definition hash_string_djb2 (key : string) (capacity : nat) : nat :=
  Z.to_nat (djb2_loop key 5381 mod Z.of_nat capacity)%Z.

Definition hash_string_equals (key1 key2 : string) : bool := String.eqb key1 key2.

Definition hash_string_copy (key : string) : string := key.

Definition STRING_HASH_FUNC : HashFunction string :=
  {| hash := hash_string_djb2; key_equals := hash_string_equals;
     key_copy := hash_string_copy |}.

Section Table.

Context {K : Type}.

(** [struct HashEntry]; the [next] field is the tail of the chain. *)
Record HashEntry : Type := { key : K; value : ptr }.

(** [struct HashTable]; [load_factor_threshold] always holds
    [HASHTABLE_LOAD_FACTOR], the constant [LOAD_NUM / LOAD_DEN]. *)
Record HashTable : Type := {
  buckets : list (list HashEntry);
  size : nat;
  capacity : nat;
  hash_func : HashFunction K
}.

(** [table->buckets[index]]. *)
Definition bucket_at (b : list (list HashEntry)) (index : nat) : list HashEntry :=
  match b !! index with
  | Some chain => chain
  | None => []
  end.

Definition hashtable_create_entry (k : K) (v : ptr) (hf : HashFunction K)
    : HashEntry :=
  {| key := key_copy hf k; value := v |}.

Definition hashtable_init (initial_capacity : nat) (hf : HashFunction K)
    : HashTable :=
  let cap := if initial_capacity <? HASHTABLE_MIN_SIZE
             then HASHTABLE_MIN_SIZE else initial_capacity in
  {| buckets := replicate cap []; size := 0; capacity := cap; hash_func := hf |}.

(** One turn of the inner loop of [hashtable_resize]: the entry is linked at
    the head of its chain in the new array and counted. *)
Definition rehash_entry (hf : HashFunction K) (new_capacity : nat)
    (acc : list (list HashEntry) * nat) (entry : HashEntry)
    : list (list HashEntry) * nat :=
  let new_index := hash hf (key entry) new_capacity in
  (<[new_index := entry :: bucket_at (fst acc) new_index]> (fst acc), S (snd acc)).

(** The inner [while (entry)] loop over one old chain. *)
Definition rehash_chain (hf : HashFunction K) (new_capacity : nat)
    (acc : list (list HashEntry) * nat) (chain : list HashEntry)
    : list (list HashEntry) * nat :=
  fold_left (rehash_entry hf new_capacity) chain acc.

(** [hashtable_resize]: the old array has [old_capacity] cells, visited in
    index order. *)
Definition hashtable_resize (table : HashTable) (new_capacity : nat) : HashTable :=
  let r := fold_left (rehash_chain (hash_func table) new_capacity) (buckets table)
                     (replicate new_capacity [], 0) in
  {| buckets := fst r; size := snd r; capacity := new_capacity;
     hash_func := hash_func table |}.

(** The search loop of [hashtable_put]: the chain with the value of the first
    entry of equal key replaced, or [None] when the loop runs off the chain. *)
Fixpoint put_walk (hf : HashFunction K) (chain : list HashEntry) (k : K) (v : ptr)
    : option (list HashEntry) :=
  match chain with
  | [] => None
  | current :: rest =>
      if key_equals hf (key current) k
      then Some ({| key := key current; value := v |} :: rest)
      else match put_walk hf rest k v with
           | Some rest' => Some (current :: rest')
           | None => None
           end
  end.

(** The load test at the head of [hashtable_put]. *)
Definition load_exceeded (table : HashTable) : bool :=
  LOAD_NUM * capacity table <=? LOAD_DEN * size table.

Definition hashtable_put (table : HashTable) (k : K) (v : ptr) : HashTable * bool :=
  let table := if load_exceeded table
               then hashtable_resize table (capacity table * HASHTABLE_GROWTH_FACTOR)
               else table in
  let index := hash (hash_func table) k (capacity table) in
  match put_walk (hash_func table) (bucket_at (buckets table) index) k v with
  | Some chain' =>
      ({| buckets := <[index := chain']> (buckets table);
          size := size table; capacity := capacity table;
          hash_func := hash_func table |}, true)
  | None =>
      let new_entry := hashtable_create_entry k v (hash_func table) in
      ({| buckets := <[index := new_entry :: bucket_at (buckets table) index]>
                       (buckets table);
          size := S (size table); capacity := capacity table;
          hash_func := hash_func table |}, true)
  end.

(** The loop of [hashtable_get]. *)
Fixpoint get_walk (hf : HashFunction K) (chain : list HashEntry) (k : K) : ptr :=
  match chain with
  | [] => NULL
  | current :: rest =>
      if key_equals hf (key current) k then value current else get_walk hf rest k
  end.

Definition hashtable_get (table : HashTable) (k : K) : ptr :=
  let index := hash (hash_func table) k (capacity table) in
  get_walk (hash_func table) (bucket_at (buckets table) index) k.

(** The loop of [hashtable_remove]: the chain with the first entry of equal
    key spliced out, or [None] when no entry matches.  ([size--] below is
    only reached when an entry was found, so with [size] above 0 in a
    well-formed table.) *)
Fixpoint remove_walk (hf : HashFunction K) (chain : list HashEntry) (k : K)
    : option (list HashEntry) :=
  match chain with
  | [] => None
  | current :: rest =>
      if key_equals hf (key current) k then Some rest
      else match remove_walk hf rest k with
           | Some rest' => Some (current :: rest')
           | None => None
           end
  end.

Definition hashtable_remove (table : HashTable) (k : K) : HashTable * bool :=
  let index := hash (hash_func table) k (capacity table) in
  match remove_walk (hash_func table) (bucket_at (buckets table) index) k with
  | Some chain' =>
      ({| buckets := <[index := chain']> (buckets table);
          size := size table - 1; capacity := capacity table;
          hash_func := hash_func table |}, true)
  | None => (table, false)
  end.

Definition hashtable_contains (table : HashTable) (k : K) : bool :=
  negb (is_null (hashtable_get table k)).

Definition hashtable_size (table : HashTable) : nat := size table.

Definition hashtable_is_empty (table : HashTable) : bool := size table =? 0.

(** *** The hash set built on the table *)

Definition HASHSET_DUMMY_VALUE : ptr := 1%Z.

Definition hashset_init (initial_capacity : nat) (hf : HashFunction K) : HashTable :=
  hashtable_init initial_capacity hf.

Definition hashset_add (set : HashTable) (k : K) : HashTable * bool :=
  let existed := hashtable_contains set k in
  let set := fst (hashtable_put set k HASHSET_DUMMY_VALUE) in
  (set, negb existed).

Definition hashset_remove (set : HashTable) (k : K) : HashTable * bool :=
  hashtable_remove set k.

Definition hashset_contains (set : HashTable) (k : K) : bool :=
  hashtable_contains set k.

Definition hashset_size (set : HashTable) : nat := hashtable_size set.

(** *** Histories of operations *)

Inductive table_op : Type :=
| Put (k : K) (v : ptr)
| Remove (k : K).

Definition apply_op (table : HashTable) (op : table_op) : HashTable :=
  match op with
  | Put k v => fst (hashtable_put table k v)
  | Remove k => fst (hashtable_remove table k)
  end.

(** The table after [hashtable_init] and the calls of [ops], oldest first. *)
Definition run_ops (initial_capacity : nat) (hf : HashFunction K)
    (ops : list table_op) : HashTable :=
  fold_left apply_op ops (hashtable_init initial_capacity hf).

Inductive set_op : Type :=
| Add (k : K)
| Discard (k : K).

Definition apply_set_op (set : HashTable) (op : set_op) : HashTable :=
  match op with
  | Add k => fst (hashset_add set k)
  | Discard k => fst (hashset_remove set k)
  end.

Definition run_set_ops (initial_capacity : nat) (hf : HashFunction K)
    (ops : list set_op) : HashTable :=
  fold_left apply_set_op ops (hashset_init initial_capacity hf).

(** All entries of the table, bucket by bucket. *)
Definition entries (table : HashTable) : list HashEntry := concat (buckets table).

(** An entry whose key equals [k] is stored somewhere in the table. *)
Definition has_entry (table : HashTable) (k : K) : bool :=
  existsb (fun e => key_equals (hash_func table) (key e) k) (entries table).

(** *** Invariant of a table and reading of a history *)

(** No two keys of the list are equal under the policy. *)
Fixpoint distinct_keys (hf : HashFunction K) (ks : list K) : Prop :=
  match ks with
  | [] => True
  | k :: rest =>
      Forall (fun k' => key_equals hf k k' = false) rest /\ distinct_keys hf rest
  end.

(** The invariants of [struct HashTable]: one chain per bucket, [size] counts
    the entries, every entry sits in the bucket its key hashes to, keys are
    unique. *)
Record well_formed (table : HashTable) : Prop := {
  wf_length : length (buckets table) = capacity table;
  wf_capacity : 0 < capacity table;
  wf_size : size table = length (entries table);
  wf_placed : forall i chain, buckets table !! i = Some chain ->
    Forall (fun e => hash (hash_func table) (key e) (capacity table) = i) chain;
  wf_distinct : distinct_keys (hash_func table) (map key (entries table))
}.

(** The table as [hashtable_put] has it after its load test. *)
Definition grow (table : HashTable) : HashTable :=
  if load_exceeded table
  then hashtable_resize table (capacity table * HASHTABLE_GROWTH_FACTOR)
  else table.

(** What [hashtable_put] does after its load test. *)
Definition put_at (table : HashTable) (k : K) (v : ptr) : HashTable * bool :=
  let index := hash (hash_func table) k (capacity table) in
  match put_walk (hash_func table) (bucket_at (buckets table) index) k v with
  | Some chain' =>
      ({| buckets := <[index := chain']> (buckets table);
          size := size table; capacity := capacity table;
          hash_func := hash_func table |}, true)
  | None =>
      let new_entry := hashtable_create_entry k v (hash_func table) in
      ({| buckets := <[index := new_entry :: bucket_at (buckets table) index]>
                       (buckets table);
          size := S (size table); capacity := capacity table;
          hash_func := hash_func table |}, true)
  end.

(** The value given by the most recent [Put] of a key equal to [k], unless a
    later [Remove] of an equal key took it away. *)
Definition last_put (hf : HashFunction K) (ops : list table_op) (k : K)
    : option ptr :=
  fold_left (fun acc op =>
               match op with
               | Put k' v => if key_equals hf k' k then Some v else acc
               | Remove k' => if key_equals hf k' k then None else acc
               end) ops None.

(** One representative of every key put and not removed since. *)
Definition live_keys (hf : HashFunction K) (ops : list table_op) : list K :=
  fold_left (fun acc op =>
               match op with
               | Put k' _ =>
                   if existsb (key_equals hf k') acc then acc else k' :: acc
               | Remove k' =>
                   List.filter (fun x => negb (key_equals hf k' x)) acc
               end) ops [].

(** *** Clearing, releasing and statistics *)

(** [hashtable_clear]: the chain of every bucket is released and the bucket
    set to [NULL]; the array keeps its cells. *)
Definition hashtable_clear (table : HashTable) : HashTable :=
  {| buckets := fold_left (fun b i => <[i := []]> b) (seq 0 (capacity table))
                          (buckets table);
     size := 0; capacity := capacity table; hash_func := hash_func table |}.

(** [hashtable_free]: after it the table has no bucket array. *)
Definition hashtable_free (table : HashTable) : HashTable :=
  let table := hashtable_clear table in
  {| buckets := []; size := size table; capacity := 0;
     hash_func := hash_func table |}.

Definition hashtable_empty_buckets (table : HashTable) : nat :=
  fold_left (fun empty i =>
               match bucket_at (buckets table) i with
               | [] => S empty
               | _ :: _ => empty
               end) (seq 0 (capacity table)) 0.

(** The inner loop counts the chain: [chain_length] is its length. *)
Definition hashtable_max_chain_length (table : HashTable) : nat :=
  fold_left (fun max_length i =>
               let chain_length := length (bucket_at (buckets table) i) in
               if max_length <? chain_length then chain_length else max_length)
            (seq 0 (capacity table)) 0.

(** *** Operations on two sets *)

(** The loops [for (i = 0; i < set->capacity; i++)] over
    [entry = set->buckets[i]; entry; entry = entry->next] of the set
    operations, with [body] run on every entry. *)
Definition for_each_entry {A : Type} (set : HashTable)
    (body : A -> HashEntry -> A) (a : A) : A :=
  fold_left (fun acc i => fold_left body (bucket_at (buckets set) i) acc)
            (seq 0 (capacity set)) a.

(** [result] is a set of its own, not one of the operands. *)
Definition hashset_union (set1 set2 result : HashTable) : HashTable :=
  let result :=
    for_each_entry set1 (fun r entry => fst (hashset_add r (key entry))) result in
  for_each_entry set2 (fun r entry => fst (hashset_add r (key entry))) result.

Definition hashset_intersection (set1 set2 result : HashTable) : HashTable :=
  let smaller := if hashset_size set1 <=? hashset_size set2 then set1 else set2 in
  let larger := if hashset_size set1 <=? hashset_size set2 then set2 else set1 in
  for_each_entry smaller
    (fun r entry =>
       if hashset_contains larger (key entry)
       then fst (hashset_add r (key entry)) else r) result.

Definition hashset_difference (set1 set2 result : HashTable) : HashTable :=
  for_each_entry set1
    (fun r entry =>
       if negb (hashset_contains set2 (key entry))
       then fst (hashset_add r (key entry)) else r) result.

(** The loops return [false] at the first entry of [set1] missing in [set2]. *)
Definition hashset_is_subset (set1 set2 : HashTable) : bool :=
  if hashset_size set2 <? hashset_size set1 then false
  else forallb (fun i =>
                  forallb (fun entry => hashset_contains set2 (key entry))
                          (bucket_at (buckets set1) i))
               (seq 0 (capacity set1)).

Definition hashset_equals (set1 set2 : HashTable) : bool :=
  (hashset_size set1 =? hashset_size set2) && hashset_is_subset set1 set2.

Definition hashset_copy (source : HashTable) : HashTable :=
  let dest := hashset_init (capacity source) (hash_func source) in
  for_each_entry source (fun d entry => fst (hashset_add d (key entry))) dest.

Definition hashset_clear (set : HashTable) : HashTable := hashtable_clear set.

(** *** Sets as tables *)

(** The call of the table behind an operation on a set. *)
Definition table_op_of (op : set_op) : table_op :=
  match op with
  | Add k => Put k HASHSET_DUMMY_VALUE
  | Discard k => Remove k
  end.

(** A table used as a set: well formed, with the dummy value in every
    entry, so that [get] tells whether a key has an entry. *)
Definition set_state (hf : HashFunction K) (set : HashTable) : Prop :=
  hash_func set = hf /\ well_formed set /\
  forall k, hashtable_get set k =
            if has_entry set k then HASHSET_DUMMY_VALUE else NULL.

End Table.

Arguments HashEntry : clear implicits.
Arguments HashTable : clear implicits.
Arguments table_op : clear implicits.
Arguments set_op : clear implicits.

(** Tables and sets with the default settings. *)
Definition hashtable_init_string : HashTable string :=
  hashtable_init HASHTABLE_DEFAULT_SIZE STRING_HASH_FUNC.

Definition hashtable_init_int : HashTable Z :=
  hashtable_init HASHTABLE_DEFAULT_SIZE INT_HASH_FUNC.

Definition hashset_init_string : HashTable string := hashtable_init_string.

Definition hashset_init_int : HashTable Z := hashtable_init_int.

End Hash.

(** * The growable array backing the heap *)

Module DynArray.

(** [struct DynArray], by the cells [data[0 .. size-1]] in use.  [capacity]
    only governs when [realloc] is called and is left out. *)
Abbreviation DynArray E := (list E) (only parsing).

Section DynArray.

Context {E : Type}.

Definition dynarray_size (arr : DynArray E) : nat := length arr.

Definition dynarray_is_empty (arr : DynArray E) : bool := length arr =? 0.

(** [None] is the [NULL] returned for an index out of bounds. *)
Definition dynarray_get (arr : DynArray E) (index : nat) : option E := arr !! index.

(** Out of bounds the array is left as it is (and [false] is returned). *)
Definition dynarray_set (arr : DynArray E) (index : nat) (element : E) : DynArray E :=
  <[index := element]> arr.

Definition dynarray_push (arr : DynArray E) (element : E) : DynArray E :=
  arr ++ [element].

(** [element = arr->data[--arr->size]]; [None] on an empty array. *)
Definition dynarray_pop (arr : DynArray E) : DynArray E * option E :=
  match length arr with
  | 0 => (arr, None)
  | S n => (take n arr, arr !! n)
  end.

Definition dynarray_clear (arr : DynArray E) : DynArray E := [].

End DynArray.

End DynArray.

(** * The growable array with its block of cells *)

(** [dynarray/dynarray.h] in full: the block obtained from [malloc] and
    [realloc], the shifting loops of [dynarray_insert] and
    [dynarray_remove], and when the capacity changes. *)

Module DynArrayCells.

Definition DYNARRAY_DEFAULT_CAPACITY : nat := 8.
Definition DYNARRAY_GROWTH_FACTOR : nat := 2.
Definition DYNARRAY_SHRINK_THRESHOLD : nat := 4.

(** A block of cells as [malloc] and [realloc] hand it out (allocation is
    taken to succeed): a cell is [None] until it is written. *)
Abbreviation block E := (list (option E)) (only parsing).

Section DynArrayCells.

Context {E : Type}.

Definition malloc (n : nat) : block E := replicate n None.

(** The cells kept by [realloc] are those below the smaller of the two
    sizes. *)
Definition realloc (b : block E) (n : nat) : block E :=
  take n b ++ replicate (n - length b) None.

(** What [b[i]] reads: [None] for a cell never written (or outside the
    block). *)
Definition cell_at (b : block E) (i : nat) : option E := default None (b !! i).

(** [struct DynArray]. *)
Record DynArray : Type := {
  data : block E;
  size : nat;
  capacity : nat
}.

Definition dynarray_init (initial_capacity : nat) : DynArray :=
  let capacity := if 0 <? initial_capacity
                  then initial_capacity else DYNARRAY_DEFAULT_CAPACITY in
  {| data := malloc capacity; size := 0; capacity := capacity |}.

Definition dynarray_resize (arr : DynArray) (new_capacity : nat) : DynArray :=
  if new_capacity <? size arr then arr
  else {| data := realloc (data arr) new_capacity; size := size arr;
          capacity := new_capacity |}.

Definition dynarray_ensure_capacity (arr : DynArray) : DynArray :=
  if capacity arr <=? size arr
  then dynarray_resize arr (capacity arr * DYNARRAY_GROWTH_FACTOR)
  else arr.

(** [arr->data[arr->size++] = element]. *)
Definition dynarray_push (arr : DynArray) (element : E) : DynArray :=
  let arr := dynarray_ensure_capacity arr in
  {| data := <[size arr := Some element]> (data arr); size := S (size arr);
     capacity := capacity arr |}.

(** [None] is the [NULL] returned on an empty array. *)
Definition dynarray_pop (arr : DynArray) : DynArray * option E :=
  if size arr =? 0 then (arr, None)
  else
    let arr := {| data := data arr; size := size arr - 1;
                  capacity := capacity arr |} in
    let element := cell_at (data arr) (size arr) in
    let arr :=
      if (0 <? size arr) && (size arr * DYNARRAY_SHRINK_THRESHOLD <=? capacity arr)
      then
        let new_capacity := capacity arr / DYNARRAY_GROWTH_FACTOR in
        if DYNARRAY_DEFAULT_CAPACITY <=? new_capacity
        then dynarray_resize arr new_capacity else arr
      else arr in
    (arr, element).

Definition dynarray_get (arr : DynArray) (index : nat) : option E :=
  if index <? size arr then cell_at (data arr) index else None.

Definition dynarray_set (arr : DynArray) (index : nat) (element : E)
    : DynArray * bool :=
  if size arr <=? index then (arr, false)
  else ({| data := <[index := Some element]> (data arr); size := size arr;
           capacity := capacity arr |}, true).

(** The loop [for (i = size; i > index; i--) data[i] = data[i - 1]]. *)
Definition shift_right (b : block E) (index size : nat) : block E :=
  fold_left (fun b i => <[i := cell_at b (i - 1)]> b)
            (rev (seq (S index) (size - index))) b.

Definition dynarray_insert (arr : DynArray) (index : nat) (element : E)
    : DynArray * bool :=
  if size arr <? index then (arr, false)
  else
    let arr := dynarray_ensure_capacity arr in
    let b := shift_right (data arr) index (size arr) in
    ({| data := <[index := Some element]> b; size := S (size arr);
        capacity := capacity arr |}, true).

(** The loop [for (i = index; i < size - 1; i++) data[i] = data[i + 1]]. *)
Definition shift_left (b : block E) (index size : nat) : block E :=
  fold_left (fun b i => <[i := cell_at b (i + 1)]> b)
            (seq index (size - 1 - index)) b.

Definition dynarray_remove (arr : DynArray) (index : nat) : DynArray * option E :=
  if size arr <=? index then (arr, None)
  else
    let element := cell_at (data arr) index in
    ({| data := shift_left (data arr) index (size arr); size := size arr - 1;
        capacity := capacity arr |}, element).

Definition dynarray_size (arr : DynArray) : nat := size arr.

Definition dynarray_capacity (arr : DynArray) : nat := capacity arr.

Definition dynarray_is_empty (arr : DynArray) : bool := size arr =? 0.

Definition dynarray_clear (arr : DynArray) : DynArray :=
  {| data := data arr; size := 0; capacity := capacity arr |}.

Definition dynarray_free (arr : DynArray) : DynArray :=
  {| data := []; size := 0; capacity := 0 |}.

Definition dynarray_shrink_to_fit (arr : DynArray) : DynArray :=
  if (size arr <? capacity arr) && (0 <? size arr)
  then dynarray_resize arr (size arr) else arr.

Definition dynarray_reserve (arr : DynArray) (min_capacity : nat) : DynArray :=
  if capacity arr <? min_capacity then dynarray_resize arr min_capacity else arr.

(** *** Histories of calls *)

Inductive array_op : Type :=
| PushBack (element : E)
| PopBack
| SetAt (index : nat) (element : E)
| InsertAt (index : nat) (element : E)
| RemoveAt (index : nat)
| Clear
| ShrinkToFit
| Reserve (min_capacity : nat).

Definition apply_array_op (arr : DynArray) (op : array_op) : DynArray :=
  match op with
  | PushBack x => dynarray_push arr x
  | PopBack => fst (dynarray_pop arr)
  | SetAt i x => fst (dynarray_set arr i x)
  | InsertAt i x => fst (dynarray_insert arr i x)
  | RemoveAt i => fst (dynarray_remove arr i)
  | Clear => dynarray_clear arr
  | ShrinkToFit => dynarray_shrink_to_fit arr
  | Reserve n => dynarray_reserve arr n
  end.

Definition run_array_ops (initial_capacity : nat) (ops : list array_op)
    : DynArray :=
  fold_left apply_array_op ops (dynarray_init initial_capacity).

(** The array holds the elements of [l] in its cells [0 .. size-1], inside
    a block of [capacity] cells. *)
Definition holds (arr : DynArray) (l : list E) : Prop :=
  length (data arr) = capacity arr /\ 0 < capacity arr /\
  size arr = length l /\ take (size arr) (data arr) = map Some l.

End DynArrayCells.

Arguments DynArray : clear implicits.
Arguments array_op : clear implicits.
Arguments PopBack {E}.
Arguments Clear {E}.
Arguments ShrinkToFit {E}.

End DynArrayCells.

(** * The binary heap *)

Module Heap.

Import DynArray.

(** [HEAP_PARENT] is only evaluated at indices above 0. *)
Definition HEAP_PARENT (i : nat) : nat := (i - 1) / 2.
Definition HEAP_LEFT_CHILD (i : nat) : nat := 2 * i + 1.
Definition HEAP_RIGHT_CHILD (i : nat) : nat := 2 * i + 2.

(** [heap_compare_fn]: the [int] a comparator returns. *)
Definition heap_compare_fn (E : Type) : Type := E -> E -> Z.

(** *** Comparators of the library.  An element that is a pointer to an [int]
    is modelled by the [int] it points to. *)

Definition heap_int_compare_min (a b : Z) : Z := to_int (a - b).

Definition heap_int_compare_max (a b : Z) : Z := to_int (b - a).

(** [heap_pointer_compare]: the elements are the addresses themselves. *)
Definition heap_pointer_compare (a b : Z) : Z :=
  (Z.b2z (b <? a) - Z.b2z (a <? b))%Z.

(** The fields of [Player] read by [player_age_compare_min]. *)
Record Player : Type := { player_id : Z; age : Z }.

Definition player_age_compare_min (p1 p2 : Player) : Z := to_int (age p1 - age p2).

(** A comparator is a three-way ordering function of a total preorder on the
    elements that satisfy [P]: the sign of [cmp a b] tells whether [a] is
    before, level with or after [b], consistently in both argument orders,
    and "not after" is transitive. *)
Record TotalPreorderOn {E : Type} (P : E -> Prop) (cmp : heap_compare_fn E)
    : Prop := {
  cmp_flip : forall a b, P a -> P b -> (cmp a b < 0)%Z <-> (0 < cmp b a)%Z;
  cmp_trans : forall a b c, P a -> P b -> P c ->
    (cmp a b <= 0)%Z -> (cmp b c <= 0)%Z -> (cmp a c <= 0)%Z
}.

(** The same on all elements. *)
Definition TotalPreorder {E : Type} (cmp : heap_compare_fn E) : Prop :=
  TotalPreorderOn (fun _ => True) cmp.

(** The [int]s whose differences do not overflow. *)
Definition small_int (z : Z) : Prop := (- 2 ^ 30 <= z < 2 ^ 30)%Z.

Section Heap.

Context {E : Type}.

(** [struct BinaryHeap]; the [vtable] plays no part in the operations. *)
Record BinaryHeap : Type := {
  data : DynArray E;
  compare : heap_compare_fn E
}.

Definition with_data (heap : BinaryHeap) (d : DynArray E) : BinaryHeap :=
  {| data := d; compare := compare heap |}.

(** [binary_heap_swap] on the backing array.  It is only called with both
    indices in bounds. *)
Definition binary_heap_swap (d : DynArray E) (i j : nat) : DynArray E :=
  match dynarray_get d i, dynarray_get d j with
  | Some temp, Some other => dynarray_set (dynarray_set d i other) j temp
  | _, _ => d
  end.

(** The sign tests [compare(data[i], data[j]) < 0] and [> 0] on two cells in
    bounds. *)
Definition compare_at (cmp : heap_compare_fn E) (d : DynArray E) (i j : nat)
    : option Z :=
  match dynarray_get d i, dynarray_get d j with
  | Some a, Some b => Some (cmp a b)
  | _, _ => None
  end.

(** The loop of [binary_heap_heapify_up], at most [fuel] turns of it; [None]
    when the loop has not left within [fuel] turns or would read a cell out
    of bounds. *)
Fixpoint heapify_up_loop (fuel : nat) (cmp : heap_compare_fn E)
    (d : DynArray E) (index : nat) : option (DynArray E) :=
  if index =? 0 then Some d
  else
    match fuel with
    | 0 => None
    | S fuel' =>
        let parent_idx := HEAP_PARENT index in
        match compare_at cmp d index parent_idx with
        | Some c =>
            if (0 <=? c)%Z then Some d
            else heapify_up_loop fuel' cmp (binary_heap_swap d index parent_idx)
                   parent_idx
        | None => None
        end
    end.

(** The choice of [target] in one turn of [binary_heap_heapify_down]. *)
Definition down_target (cmp : heap_compare_fn E) (d : DynArray E) (index : nat)
    : option nat :=
  let size := dynarray_size d in
  let target := index in
  let left := HEAP_LEFT_CHILD index in
  let right := HEAP_RIGHT_CHILD index in
  let target1 :=
    if left <? size then
      match compare_at cmp d left target with
      | Some c => Some (if (c <? 0)%Z then left else target)
      | None => None
      end
    else Some target in
  match target1 with
  | Some target =>
      if right <? size then
        match compare_at cmp d right target with
        | Some c => Some (if (c <? 0)%Z then right else target)
        | None => None
        end
      else Some target
  | None => None
  end.

(** The loop of [binary_heap_heapify_down], at most [fuel] turns of it. *)
Fixpoint heapify_down_loop (fuel : nat) (cmp : heap_compare_fn E)
    (d : DynArray E) (index : nat) : option (DynArray E) :=
  match fuel with
  | 0 => None
  | S fuel' =>
      match down_target cmp d index with
      | Some target =>
          if target =? index then Some d
          else heapify_down_loop fuel' cmp (binary_heap_swap d index target) target
      | None => None
      end
  end.

(** [index] turns always suffice going up, [size] turns going down (see
    [heapify_up_loop_total] and [heapify_down_loop_total]). *)
Definition binary_heap_heapify_up (heap : BinaryHeap) (index : nat) : BinaryHeap :=
  match heapify_up_loop index (compare heap) (data heap) index with
  | Some d => with_data heap d
  | None => heap
  end.

Definition binary_heap_heapify_down (heap : BinaryHeap) (index : nat) : BinaryHeap :=
  match heapify_down_loop (S (dynarray_size (data heap))) (compare heap)
          (data heap) index with
  | Some d => with_data heap d
  | None => heap
  end.

(** [initial_capacity] only sizes the first allocation of the backing array. *)
Definition binary_heap_init (cmp : heap_compare_fn E) (initial_capacity : nat)
    : BinaryHeap :=
  {| data := []; compare := cmp |}.

Definition binary_heap_push (heap : BinaryHeap) (element : E) : BinaryHeap :=
  let heap := with_data heap (dynarray_push (data heap) element) in
  let last_index := dynarray_size (data heap) - 1 in
  binary_heap_heapify_up heap last_index.

(** [None] is the [NULL] returned on an empty heap. *)
Definition binary_heap_pop (heap : BinaryHeap) : BinaryHeap * option E :=
  let size := dynarray_size (data heap) in
  if size =? 0 then (heap, None)
  else
    let root := dynarray_get (data heap) 0 in
    if size =? 1 then (with_data heap (fst (dynarray_pop (data heap))), root)
    else
      match dynarray_pop (data heap) with
      | (d, Some last) =>
          (binary_heap_heapify_down (with_data heap (dynarray_set d 0 last)) 0, root)
      | (d, None) => (with_data heap d, root)
      end.

Definition binary_heap_peek (heap : BinaryHeap) : option E :=
  if 0 <? dynarray_size (data heap) then dynarray_get (data heap) 0 else None.

Definition binary_heap_replace (heap : BinaryHeap) (element : E)
    : BinaryHeap * option E :=
  let size := dynarray_size (data heap) in
  if size =? 0 then (binary_heap_push heap element, None)
  else
    let old_root := dynarray_get (data heap) 0 in
    (binary_heap_heapify_down
       (with_data heap (dynarray_set (data heap) 0 element)) 0, old_root).

(** The loop [for (i = last_parent + 1; i > 0; i--) heapify_down(heap, i - 1)]. *)
Fixpoint build_loop (i : nat) (heap : BinaryHeap) : BinaryHeap :=
  match i with
  | 0 => heap
  | S i' => build_loop i' (binary_heap_heapify_down heap i')
  end.

Definition binary_heap_build_from_array (heap : BinaryHeap) (elements : list E)
    : BinaryHeap :=
  let count := length elements in
  let heap := with_data heap (dynarray_clear (data heap)) in
  let heap := with_data heap (fold_left dynarray_push elements (data heap)) in
  if 1 <? count then
    let last_parent := HEAP_PARENT (count - 1) in
    build_loop (last_parent + 1) heap
  else heap.

Definition binary_heap_size (heap : BinaryHeap) : nat := dynarray_size (data heap).

Definition binary_heap_is_empty (heap : BinaryHeap) : bool :=
  dynarray_is_empty (data heap).

(** One turn of the loop of [binary_heap_is_valid]: [false] when the turn
    returns [false] from the function. *)
Definition valid_at (cmp : heap_compare_fn E) (d : DynArray E) (i : nat) : bool :=
  let size := dynarray_size d in
  let left := HEAP_LEFT_CHILD i in
  let right := HEAP_RIGHT_CHILD i in
  (if left <? size then
     match compare_at cmp d i left with
     | Some c => negb (0 <? c)%Z
     | None => false
     end
   else true)
  &&
  (if right <? size then
     match compare_at cmp d i right with
     | Some c => negb (0 <? c)%Z
     | None => false
     end
   else true).

Definition binary_heap_is_valid (heap : BinaryHeap) : bool :=
  let size := dynarray_size (data heap) in
  forallb (valid_at (compare heap) (data heap)) (seq 0 (size / 2)).

(** [n] calls of [binary_heap_pop] in a row and what they return, first call
    first. *)
Fixpoint pop_n (n : nat) (heap : BinaryHeap) : BinaryHeap * list (option E) :=
  match n with
  | 0 => (heap, [])
  | S n' =>
      let (heap1, x) := binary_heap_pop heap in
      let (heap2, xs) := pop_n n' heap1 in
      (heap2, x :: xs)
  end.

(** Draining a heap: as many calls of [binary_heap_pop] as it has elements. *)
Definition drain (heap : BinaryHeap) : list (option E) :=
  snd (pop_n (binary_heap_size heap) heap).

(** Pushing the elements of an array one by one, first cell first. *)
Definition push_all (heap : BinaryHeap) (elements : list E) : BinaryHeap :=
  fold_left binary_heap_push elements heap.

(** *** Histories of operations *)

Inductive heap_op : Type :=
| Push (element : E)
| Pop
| Replace (element : E).

(** The elements an operation brings into the heap. *)
Definition op_elements (op : heap_op) : list E :=
  match op with
  | Push x => [x]
  | Pop => []
  | Replace x => [x]
  end.

Definition apply_heap_op (heap : BinaryHeap) (op : heap_op) : BinaryHeap :=
  match op with
  | Push x => binary_heap_push heap x
  | Pop => fst (binary_heap_pop heap)
  | Replace x => fst (binary_heap_replace heap x)
  end.

Definition run_heap_ops (cmp : heap_compare_fn E) (initial_capacity : nat)
    (ops : list heap_op) : BinaryHeap :=
  fold_left apply_heap_op ops (binary_heap_init cmp initial_capacity).

(** *** The heap order *)

(** [a] is not after [b]. *)
Definition precedes (cmp : heap_compare_fn E) (a b : E) : Prop := (cmp a b <= 0)%Z.

(** Every cell whose parent is at index [k] or above is not before its
    parent. *)
Definition heap_from (cmp : heap_compare_fn E) (k : nat) (d : DynArray E) : Prop :=
  forall j x y, 0 < j -> k <= HEAP_PARENT j ->
    d !! j = Some x -> d !! HEAP_PARENT j = Some y -> precedes cmp y x.

(** The heap-order invariant of [struct BinaryHeap]. *)
Definition heap_ordered (cmp : heap_compare_fn E) (d : DynArray E) : Prop :=
  heap_from cmp 0 d.

(** The state of [heapify_down] at [i]: the order holds below [k] except
    between [i] and its children, which are not before the parent of [i]. *)
Definition down_inv (cmp : heap_compare_fn E) (k i : nat) (d : DynArray E) : Prop :=
  (forall j x y, 0 < j -> k <= HEAP_PARENT j -> HEAP_PARENT j <> i ->
     d !! j = Some x -> d !! HEAP_PARENT j = Some y -> precedes cmp y x) /\
  (0 < i -> k <= HEAP_PARENT i ->
   forall j x y, 0 < j -> HEAP_PARENT j = i ->
     d !! j = Some x -> d !! HEAP_PARENT i = Some y -> precedes cmp y x).

(** The state of [heapify_up] at [i]: the order holds except between [i] and
    its parent, and the children of [i] are not before the parent of [i]. *)
Definition up_inv (cmp : heap_compare_fn E) (i : nat) (d : DynArray E) : Prop :=
  (forall j x y, 0 < j -> j <> i ->
     d !! j = Some x -> d !! HEAP_PARENT j = Some y -> precedes cmp y x) /\
  (0 < i ->
   forall j x y, 0 < j -> HEAP_PARENT j = i ->
     d !! j = Some x -> d !! HEAP_PARENT i = Some y -> precedes cmp y x).

(** The two elements are level. *)
Definition level (cmp : heap_compare_fn E) (a b : E) : Prop :=
  precedes cmp a b /\ precedes cmp b a.

(** *** Clearing and merging *)

Definition binary_heap_clear (heap : BinaryHeap) : BinaryHeap :=
  with_data heap (dynarray_clear (data heap)).

(** The loop of [binary_heap_merge], at most [fuel] turns of it: the root of
    [heap2] is taken out and pushed on [heap1] until [heap2] is empty.  The
    two are different heaps.  [None] when the loop has not left within
    [fuel] turns. *)
Fixpoint merge_loop (fuel : nat) (heap1 heap2 : BinaryHeap)
    : option (BinaryHeap * BinaryHeap) :=
  if binary_heap_is_empty heap2 then Some (heap1, heap2)
  else
    match fuel with
    | 0 => None
    | S fuel' =>
        match binary_heap_pop heap2 with
        | (heap2, Some element) =>
            merge_loop fuel' (binary_heap_push heap1 element) heap2
        | (_, None) => None
        end
    end.

(** One turn per element of [heap2] suffices. *)
Definition binary_heap_merge (heap1 heap2 : BinaryHeap) : BinaryHeap * BinaryHeap :=
  match merge_loop (binary_heap_size heap2) heap1 heap2 with
  | Some heaps => heaps
  | None => (heap1, heap2)
  end.

End Heap.

Arguments BinaryHeap : clear implicits.
Arguments heap_op : clear implicits.
Arguments Pop {E}.

(** [min_heap_init] and [max_heap_init]. *)
Definition min_heap_init (initial_capacity : nat) : BinaryHeap Z :=
  binary_heap_init heap_int_compare_min initial_capacity.

Definition max_heap_init (initial_capacity : nat) : BinaryHeap Z :=
  binary_heap_init heap_int_compare_max initial_capacity.

(** [min_heap_create_from_ints] and [max_heap_create_from_ints], the
    allocation of the heap object apart. *)
Definition min_heap_create_from_ints (values : list Z) (initial_capacity : nat)
    : BinaryHeap Z :=
  let count := length values in
  let capacity := if count <? initial_capacity then initial_capacity else count in
  binary_heap_build_from_array (min_heap_init capacity) values.

Definition max_heap_create_from_ints (values : list Z) (initial_capacity : nat)
    : BinaryHeap Z :=
  let count := length values in
  let capacity := if count <? initial_capacity then initial_capacity else count in
  binary_heap_build_from_array (max_heap_init capacity) values.

(** The navigation macros of heaps with [d] children per node;
    [DARY_PARENT], as [HEAP_PARENT], is meant for indices above 0. *)
Definition DARY_PARENT (i d : nat) : nat := (i - 1) / d.
Definition DARY_FIRST_CHILD (i d : nat) : nat := d * i + 1.
Definition DARY_KTH_CHILD (i d k : nat) : nat := d * i + k + 1.

End Heap.

(** * Properties of the hash table *)

Module HashFacts.

Import Hash.

(** ** Keys and chains *)

Section Chains.

Context {K : Type}.
Variable hf : HashFunction K.
Hypothesis Hlaw : LawfulPolicy hf.

Implicit Types (L chain : list (HashEntry K)) (k : K) (ks : list K).

Local Abbreviation no_match L k :=
  (Forall (fun e => key_equals hf (key e) k = false) L).

Lemma equals_congr_l a b c :
  key_equals hf a b = true -> key_equals hf a c = key_equals hf b c.
Proof.
  intros Hab.
  destruct (key_equals hf b c) eqn:Hbc.
  - eapply equals_trans; eauto.
  - destruct (key_equals hf a c) eqn:Hac; [|reflexivity].
    rewrite <- Hbc. symmetry. eapply equals_trans; eauto.
    rewrite (equals_sym hf Hlaw). exact Hab.
Qed.

Lemma equals_congr_r a b c :
  key_equals hf a b = true -> key_equals hf c a = key_equals hf c b.
Proof.
  intros Hab. rewrite (equals_sym hf Hlaw c a), (equals_sym hf Hlaw c b).
  now apply equals_congr_l.
Qed.

Lemma hash_differs a b c :
  hash hf a c <> hash hf b c -> key_equals hf a b = false.
Proof.
  intros Hne. destruct (key_equals hf a b) eqn:Heq; [|reflexivity].
  exfalso. apply Hne. now apply (hash_equals hf Hlaw).
Qed.

Lemma distinct_keys_app ks1 ks2 :
  distinct_keys hf (ks1 ++ ks2) <->
  distinct_keys hf ks1 /\ distinct_keys hf ks2 /\
  Forall (fun x => Forall (fun y => key_equals hf x y = false) ks2) ks1.
Proof.
  induction ks1 as [|x ks1 IH]; simpl.
  - split; [intros H; repeat split; auto | tauto].
  - rewrite Forall_app, IH, Forall_cons. tauto.
Qed.

Lemma distinct_keys_perm ks1 ks2 :
  Permutation ks1 ks2 -> distinct_keys hf ks1 -> distinct_keys hf ks2.
Proof.
  induction 1 as [|x l l' Hp IH|x y l|l l' l'' _ IH1 _ IH2]; simpl; auto.
  - intros [Hx Hl]. split; [|auto]. now rewrite <- Hp.
  - intros [Hy [Hx Hl]]. apply Forall_cons in Hy as [Hyx Hy].
    repeat split; auto. constructor; auto.
    now rewrite (equals_sym hf Hlaw).
Qed.

Lemma get_walk_app L1 L2 k :
  get_walk hf (L1 ++ L2) k =
  if existsb (fun e => key_equals hf (key e) k) L1
  then get_walk hf L1 k else get_walk hf L2 k.
Proof.
  induction L1 as [|e L1 IH]; simpl; [reflexivity|].
  destruct (key_equals hf (key e) k); simpl; auto.
Qed.

Lemma existsb_no_match L k :
  existsb (fun e => key_equals hf (key e) k) L = false <-> no_match L k.
Proof.
  induction L as [|e L IH]; simpl.
  - split; auto.
  - rewrite orb_false_iff, Forall_cons, IH. tauto.
Qed.

Lemma get_walk_no_match L k : no_match L k -> get_walk hf L k = NULL.
Proof.
  induction 1 as [|e L He _ IH]; simpl; [reflexivity|]. now rewrite He.
Qed.

Lemma distinct_head_no_match e L k :
  distinct_keys hf (map key (e :: L)) -> key_equals hf (key e) k = true ->
  no_match L k.
Proof.
  simpl. intros [He _] Hk. rewrite Forall_map in He.
  eapply Forall_impl; [exact He|]. simpl. intros e' Hee'.
  rewrite <- (equals_congr_r (key e) k (key e') Hk).
  now rewrite (equals_sym hf Hlaw).
Qed.

Lemma get_walk_perm L1 L2 k :
  Permutation L1 L2 -> distinct_keys hf (map key L1) ->
  get_walk hf L1 k = get_walk hf L2 k.
Proof.
  induction 1 as [|x l l' Hp IH|x y l|l l' l'' Hp1 IH1 Hp2 IH2]; auto.
  - simpl. intros [_ Hd]. now rewrite IH.
  - intros Hd. simpl.
    destruct (key_equals hf (key y) k) eqn:Hy,
             (key_equals hf (key x) k) eqn:Hx; auto.
    exfalso. pose proof (distinct_head_no_match _ _ _ Hd Hy) as Hn.
    apply Forall_cons in Hn as [Hn _]. congruence.
  - intros Hd. rewrite IH1, IH2; auto.
    eapply distinct_keys_perm; [|exact Hd]. now apply Permutation_map.
Qed.

Lemma existsb_perm L1 L2 k :
  Permutation L1 L2 ->
  existsb (fun e => key_equals hf (key e) k) L1 =
  existsb (fun e => key_equals hf (key e) k) L2.
Proof.
  intros Hp. apply eq_true_iff_eq. rewrite !existsb_exists.
  split; intros [e [Hin He]]; exists e; split; auto.
  - eapply Permutation_in; eauto.
  - eapply Permutation_in; [symmetry|]; eauto.
Qed.

Lemma put_walk_some chain k v chain' :
  put_walk hf chain k v = Some chain' ->
  exists a e b, chain = a ++ e :: b /\
    chain' = a ++ {| key := key e; value := v |} :: b /\
    key_equals hf (key e) k = true /\ no_match a k.
Proof.
  revert chain'. induction chain as [|e chain IH]; simpl; [discriminate|].
  intros chain'. destruct (key_equals hf (key e) k) eqn:He.
  - intros [= <-]. exists [], e, chain. repeat split; auto.
  - destruct (put_walk hf chain k v) as [rest'|]; [|discriminate].
    intros [= <-]. destruct (IH rest' eq_refl) as (a & e0 & b & -> & -> & H1 & H2).
    exists (e :: a), e0, b. repeat split; auto.
Qed.

Lemma put_walk_none chain k v :
  put_walk hf chain k v = None -> no_match chain k.
Proof.
  induction chain as [|e chain IH]; simpl; [constructor|].
  destruct (key_equals hf (key e) k) eqn:He; [discriminate|].
  destruct (put_walk hf chain k v); [discriminate|]. auto.
Qed.

Lemma remove_walk_some chain k chain' :
  remove_walk hf chain k = Some chain' ->
  exists a e b, chain = a ++ e :: b /\ chain' = a ++ b /\
    key_equals hf (key e) k = true /\ no_match a k.
Proof.
  revert chain'. induction chain as [|e chain IH]; simpl; [discriminate|].
  intros chain'. destruct (key_equals hf (key e) k) eqn:He.
  - intros [= <-]. exists [], e, chain. repeat split; auto.
  - destruct (remove_walk hf chain k) as [rest'|]; [|discriminate].
    intros [= <-]. destruct (IH rest' eq_refl) as (a & e0 & b & -> & -> & H1 & H2).
    exists (e :: a), e0, b. repeat split; auto.
Qed.

Lemma remove_walk_none chain k :
  remove_walk hf chain k = None -> no_match chain k.
Proof.
  induction chain as [|e chain IH]; simpl; [constructor|].
  destruct (key_equals hf (key e) k) eqn:He; [discriminate|].
  destruct (remove_walk hf chain k); [discriminate|]. auto.
Qed.

Lemma walk_found chain k v :
  existsb (fun e => key_equals hf (key e) k) chain = true ->
  is_Some (put_walk hf chain k v) /\ is_Some (remove_walk hf chain k).
Proof.
  intros Hex.
  destruct (put_walk hf chain k v) eqn:Hp, (remove_walk hf chain k) eqn:Hr;
    try (split; eauto; fail); exfalso.
  - apply remove_walk_none, existsb_no_match in Hr. congruence.
  - apply put_walk_none, existsb_no_match in Hp. congruence.
  - apply put_walk_none, existsb_no_match in Hp. congruence.
Qed.

(** ** Buckets *)

Implicit Types (bs : list (list (HashEntry K))).

Lemma bucket_at_lookup bs i :
  i < length bs -> bs !! i = Some (bucket_at bs i).
Proof.
  intros Hi. unfold bucket_at.
  destruct (lookup_lt_is_Some_2 bs i Hi) as [c Hc]. now rewrite Hc.
Qed.

Lemma bucket_at_insert bs i c :
  i < length bs -> bucket_at (<[i := c]> bs) i = c.
Proof. intros Hi. unfold bucket_at. now rewrite list_lookup_insert_eq. Qed.

(** Replacing the chain of one bucket replaces its entries among those of
    the table; [R] is what the other buckets hold. *)
Lemma entries_replace bs i :
  i < length bs ->
  exists R, Permutation (concat bs) (bucket_at bs i ++ R) /\
            forall c, Permutation (concat (<[i := c]> bs)) (c ++ R).
Proof.
  intros Hi.
  exists (concat (take i bs) ++ concat (drop (S i) bs)). split.
  - rewrite <- (take_drop_middle bs i _ (bucket_at_lookup bs i Hi)) at 1.
    rewrite concat_app. simpl. apply Permutation_app_swap_app.
  - intros c. rewrite insert_take_drop by exact Hi.
    rewrite concat_app. simpl. apply Permutation_app_swap_app.
Qed.

End Chains.

(** ** Tables *)

Section Tables.

Context {K : Type}.

Implicit Types (t : HashTable K) (k : K) (L : list (HashEntry K)).

Local Abbreviation matches t k := (fun e => key_equals (hash_func t) (key e) k).

(** Chains of buckets other than the one [k] hashes to hold no key equal
    to [k]. *)
Lemma elsewhere_no_match t k cs :
  LawfulPolicy (hash_func t) -> well_formed t ->
  (forall c, In c cs -> exists j, buckets t !! j = Some c /\
                                 j <> hash (hash_func t) k (capacity t)) ->
  existsb (matches t k) (concat cs) = false.
Proof.
  intros Hlaw Hwf Hcs. apply existsb_no_match, Forall_forall.
  intros e He. apply list_elem_of_In, in_concat in He as (c & Hc & He).
  destruct (Hcs c Hc) as (j & Hj & Hne).
  pose proof (wf_placed t Hwf j c Hj) as Hpl.
  rewrite Forall_forall in Hpl. apply list_elem_of_In in He.
  apply (hash_differs _ Hlaw _ _ (capacity t)). rewrite (Hpl e He). exact Hne.
Qed.

Lemma target_in_range t k :
  LawfulPolicy (hash_func t) -> well_formed t ->
  hash (hash_func t) k (capacity t) < length (buckets t).
Proof.
  intros Hlaw Hwf. rewrite (wf_length t Hwf).
  apply (hash_range _ Hlaw), (wf_capacity t Hwf).
Qed.

(** The entries of the table, the target bucket of [k] singled out. *)
Lemma entries_split t k :
  LawfulPolicy (hash_func t) -> well_formed t ->
  let i := hash (hash_func t) k (capacity t) in
  exists X Y, entries t = X ++ bucket_at (buckets t) i ++ Y /\
    existsb (matches t k) X = false /\ existsb (matches t k) Y = false.
Proof.
  intros Hlaw Hwf i. pose proof (target_in_range t k Hlaw Hwf) as Hi.
  fold i in Hi.
  exists (concat (take i (buckets t))), (concat (drop (S i) (buckets t))).
  split; [|split].
  - unfold entries.
    rewrite <- (take_drop_middle _ i _ (bucket_at_lookup _ i Hi)) at 1.
    now rewrite concat_app.
  - apply elsewhere_no_match; auto. intros c Hc.
    apply list_elem_of_In, list_elem_of_lookup in Hc as [j Hj].
    apply lookup_take_Some in Hj as [Hj Hlt]. exists j. split; auto. lia.
  - apply elsewhere_no_match; auto. intros c Hc.
    apply list_elem_of_In, list_elem_of_lookup in Hc as [j Hj].
    rewrite lookup_drop in Hj. exists (S i + j). split; auto. lia.
Qed.

(** [hashtable_get] finds what a search of all entries finds. *)
Lemma get_entries t k :
  LawfulPolicy (hash_func t) -> well_formed t ->
  hashtable_get t k = get_walk (hash_func t) (entries t) k.
Proof.
  intros Hlaw Hwf.
  destruct (entries_split t k Hlaw Hwf) as (X & Y & -> & HX & HY).
  unfold hashtable_get. rewrite !get_walk_app, HX.
  destruct (existsb _ (bucket_at _ _)) eqn:Hc; [reflexivity|].
  rewrite !get_walk_no_match; auto; now apply existsb_no_match.
Qed.

(** The search loops of [put] and [remove] find a key exactly when the
    table holds it. *)
Lemma has_entry_target t k :
  LawfulPolicy (hash_func t) -> well_formed t ->
  has_entry t k =
  existsb (matches t k)
    (bucket_at (buckets t) (hash (hash_func t) k (capacity t))).
Proof.
  intros Hlaw Hwf.
  destruct (entries_split t k Hlaw Hwf) as (X & Y & HE & HX & HY).
  unfold has_entry. rewrite HE, !existsb_app, HX, HY.
  now rewrite orb_false_r.
Qed.

Lemma hashtable_put_unfold t k v : hashtable_put t k v = put_at (grow t) k v.
Proof. reflexivity. Qed.

Lemma put_at_frame t k v :
  capacity (fst (put_at t k v)) = capacity t /\
  hash_func (fst (put_at t k v)) = hash_func t /\
  snd (put_at t k v) = true.
Proof. unfold put_at. destruct (put_walk _ _ _ _); simpl; auto. Qed.

Lemma remove_frame t k :
  capacity (fst (hashtable_remove t k)) = capacity t /\
  hash_func (fst (hashtable_remove t k)) = hash_func t.
Proof. unfold hashtable_remove. destruct (remove_walk _ _ _); simpl; auto. Qed.

Lemma map_insert_same {A B : Type} (f : A -> B) (l : list A) i x y :
  l !! i = Some y -> f x = f y -> map f (<[i := x]> l) = map f l.
Proof.
  revert i. induction l as [|a l IH]; intros [|i]; simpl; try discriminate.
  - intros [= ->] ->. reflexivity.
  - intros Hl Hf. f_equal. now apply IH.
Qed.

(** The invariant survives the replacement of one chain by a chain of
    entries that belong to the same bucket. *)
Lemma wf_replace t i c s :
  well_formed t -> i < capacity t ->
  Forall (fun e => hash (hash_func t) (key e) (capacity t) = i) c ->
  let t' := {| buckets := <[i := c]> (buckets t); size := s;
               capacity := capacity t; hash_func := hash_func t |} in
  distinct_keys (hash_func t) (map key (entries t')) ->
  s = length (entries t') ->
  well_formed t'.
Proof.
  intros Hwf Hi Hc t' Hd Hs. constructor; simpl; auto.
  - rewrite length_insert. apply (wf_length t Hwf).
  - apply (wf_capacity t Hwf).
  - intros j chain Hj. destruct (decide (i = j)) as [<-|Hne].
    + rewrite list_lookup_insert_eq in Hj
        by (rewrite (wf_length t Hwf); exact Hi).
      now injection Hj as <-.
    + rewrite list_lookup_insert_ne in Hj by exact Hne.
      apply (wf_placed t Hwf j chain Hj).
Qed.

Lemma put_walk_absent (hf : HashFunction K) chain k v :
  existsb (fun e => key_equals hf (key e) k) chain = false ->
  put_walk hf chain k v = None.
Proof.
  intros Hex. destruct (put_walk hf chain k v) eqn:Hp; [|reflexivity].
  apply put_walk_some in Hp as (a & e & b & -> & _ & He & _).
  rewrite existsb_app in Hex. simpl in Hex. rewrite He in Hex.
  now rewrite orb_true_r in Hex.
Qed.

Lemma remove_walk_absent (hf : HashFunction K) chain k :
  existsb (fun e => key_equals hf (key e) k) chain = false ->
  remove_walk hf chain k = None.
Proof.
  intros Hex. destruct (remove_walk hf chain k) eqn:Hp; [|reflexivity].
  apply remove_walk_some in Hp as (a & e & b & -> & _ & He & _).
  rewrite existsb_app in Hex. simpl in Hex. rewrite He in Hex.
  now rewrite orb_true_r in Hex.
Qed.

Lemma put_at_found t k v :
  LawfulPolicy (hash_func t) -> well_formed t -> has_entry t k = true ->
  let t' := fst (put_at t k v) in
  exists e rest,
    Permutation (entries t) (e :: rest) /\
    Permutation (entries t') ({| key := key e; value := v |} :: rest) /\
    key_equals (hash_func t) (key e) k = true /\
    well_formed t' /\ size t' = size t /\
    map (map key) (buckets t') = map (map key) (buckets t).
Proof.
  intros Hlaw Hwf Hhas t'. subst t'.
  rewrite has_entry_target in Hhas by assumption.
  pose proof (target_in_range t k Hlaw Hwf) as Hi.
  destruct (walk_found _ _ _ v Hhas) as [[c' Hc'] _].
  unfold put_at. rewrite Hc'. simpl.
  set (i := hash (hash_func t) k (capacity t)) in *.
  pose proof (bucket_at_lookup _ i Hi) as Hlook.
  apply put_walk_some in Hc' as (a & e & b & Hchain & -> & He & _).
  destruct (entries_replace (buckets t) i Hi) as (R & HR & HR').
  rewrite Hchain in HR.
  assert (HP : Permutation (entries t) (e :: a ++ b ++ R)).
  { unfold entries. rewrite HR, <- app_assoc. simpl.
    symmetry. apply Permutation_middle. }
  assert (HP' : Permutation
     (concat (<[i := a ++ {| key := key e; value := v |} :: b]> (buckets t)))
     ({| key := key e; value := v |} :: a ++ b ++ R)).
  { rewrite HR', <- app_assoc. simpl. symmetry. apply Permutation_middle. }
  exists e, (a ++ b ++ R). split_and!; auto.
  - apply wf_replace; auto.
    + rewrite <- (wf_length t Hwf). exact Hi.
    + pose proof (wf_placed t Hwf i _ Hlook) as Hpl. rewrite Hchain in Hpl.
      apply Forall_app in Hpl as [Ha Hb]. apply Forall_cons in Hb as [Hb1 Hb2].
      apply Forall_app. split; auto.
    + unfold entries. simpl.
      eapply distinct_keys_perm; [exact Hlaw| |exact (wf_distinct t Hwf)].
      rewrite HP, HP'. reflexivity.
    + unfold entries. simpl. rewrite HP'. simpl.
      rewrite (wf_size t Hwf), HP. reflexivity.
  - simpl. apply (map_insert_same _ _ _ _ _ Hlook).
    rewrite Hchain, !map_app. reflexivity.
Qed.

Lemma put_at_fresh t k v :
  LawfulPolicy (hash_func t) -> well_formed t -> has_entry t k = false ->
  let t' := fst (put_at t k v) in
  Permutation (entries t') ({| key := k; value := v |} :: entries t) /\
  well_formed t' /\ size t' = S (size t).
Proof.
  intros Hlaw Hwf Hhas t'. subst t'.
  pose proof Hhas as Hglobal.
  rewrite has_entry_target in Hhas by assumption.
  pose proof (target_in_range t k Hlaw Hwf) as Hi.
  unfold put_at. rewrite (put_walk_absent _ _ _ v Hhas). simpl.
  set (i := hash (hash_func t) k (capacity t)) in *.
  destruct (entries_replace (buckets t) i Hi) as (R & HR & HR').
  unfold hashtable_create_entry. rewrite (copy_same _ Hlaw).
  assert (HP' : Permutation
     (concat (<[i := {| key := k; value := v |} :: bucket_at (buckets t) i]>
                (buckets t)))
     ({| key := k; value := v |} :: entries t)).
  { rewrite HR'. simpl. constructor. unfold entries. now rewrite HR. }
  split_and!; auto.
  apply wf_replace; auto.
  - rewrite <- (wf_length t Hwf). exact Hi.
  - constructor; [reflexivity|].
    apply (wf_placed t Hwf i), bucket_at_lookup, Hi.
  - unfold entries at 1. simpl.
    eapply distinct_keys_perm;
      [exact Hlaw|symmetry; apply Permutation_map; exact HP'|].
    simpl. split; [|apply (wf_distinct t Hwf)].
    apply Forall_map. apply existsb_no_match in Hglobal.
    eapply Forall_impl; [exact Hglobal|]. simpl. intros e He.
    now rewrite (equals_sym _ Hlaw).
  - unfold entries at 1. simpl. rewrite HP'. simpl.
    now rewrite (wf_size t Hwf).
Qed.

Lemma remove_found t k :
  LawfulPolicy (hash_func t) -> well_formed t -> has_entry t k = true ->
  let t' := fst (hashtable_remove t k) in
  exists e,
    Permutation (entries t) (e :: entries t') /\
    key_equals (hash_func t) (key e) k = true /\
    well_formed t' /\ S (size t') = size t /\
    snd (hashtable_remove t k) = true.
Proof.
  intros Hlaw Hwf Hhas t'. subst t'.
  rewrite has_entry_target in Hhas by assumption.
  pose proof (target_in_range t k Hlaw Hwf) as Hi.
  destruct (walk_found _ _ _ NULL Hhas) as [_ [c' Hc']].
  unfold hashtable_remove. rewrite Hc'. simpl.
  set (i := hash (hash_func t) k (capacity t)) in *.
  pose proof (bucket_at_lookup _ i Hi) as Hlook.
  apply remove_walk_some in Hc' as (a & e & b & Hchain & -> & He & _).
  destruct (entries_replace (buckets t) i Hi) as (R & HR & HR').
  rewrite Hchain in HR.
  assert (HP : Permutation (entries t)
                 (e :: concat (<[i := a ++ b]> (buckets t)))).
  { unfold entries. rewrite HR, HR', <- !app_assoc. simpl.
    symmetry. apply Permutation_middle. }
  pose proof (wf_distinct t Hwf) as Hd.
  apply (distinct_keys_perm _ Hlaw _ _ (Permutation_map key HP)) in Hd.
  exists e. split_and!; auto.
  - apply wf_replace; auto.
    + rewrite <- (wf_length t Hwf). exact Hi.
    + pose proof (wf_placed t Hwf i _ Hlook) as Hpl. rewrite Hchain in Hpl.
      apply Forall_app in Hpl as [Ha Hb]. apply Forall_cons in Hb as [Hb1 Hb2].
      apply Forall_app. split; auto.
    + apply Hd.
    + unfold entries at 1. simpl.
      pose proof (Permutation_length HP) as Hlen. simpl in Hlen.
      rewrite <- (wf_size t Hwf) in Hlen. lia.
  - pose proof (Permutation_length HP) as Hlen. simpl in Hlen.
    rewrite <- (wf_size t Hwf) in Hlen. lia.
Qed.

Lemma remove_absent t k :
  LawfulPolicy (hash_func t) -> well_formed t -> has_entry t k = false ->
  hashtable_remove t k = (t, false).
Proof.
  intros Hlaw Hwf Hhas. rewrite has_entry_target in Hhas by assumption.
  unfold hashtable_remove. now rewrite (remove_walk_absent _ _ _ Hhas).
Qed.

(** ** Resizing *)

Lemma rehash_flat (hf : HashFunction K) c (bs : list (list (HashEntry K))) acc :
  fold_left (rehash_chain hf c) bs acc =
  fold_left (rehash_entry hf c) (concat bs) acc.
Proof.
  revert acc. induction bs as [|chain bs IH]; intros acc; simpl; [reflexivity|].
  now rewrite fold_left_app, IH.
Qed.

Lemma concat_replicate_nil {A : Type} n : concat (replicate n (@nil A)) = [].
Proof. induction n; simpl; auto. Qed.

(** The rehash loop: every entry visited is linked into the bucket its key
    hashes to under the new capacity, and counted once. *)
Lemma rehash_fold (hf : HashFunction K) c L :
  LawfulPolicy hf -> 0 < c ->
  forall b s,
    length b = c ->
    (forall j chain, b !! j = Some chain ->
       Forall (fun e => hash hf (key e) c = j) chain) ->
    let r := fold_left (rehash_entry hf c) L (b, s) in
    length (fst r) = c /\ snd r = s + length L /\
    Permutation (concat (fst r)) (L ++ concat b) /\
    (forall j chain, fst r !! j = Some chain ->
       Forall (fun e => hash hf (key e) c = j) chain).
Proof.
  intros Hlaw Hc. induction L as [|e L IH]; intros b s Hlen Hpl; simpl.
  - split_and!; auto.
  - set (i := hash hf (key e) c).
    assert (Hi : i < length b) by (rewrite Hlen; now apply (hash_range _ Hlaw)).
    destruct (IH (<[i := e :: bucket_at b i]> b) (S s)) as (H1 & H2 & H3 & H4).
    + now rewrite length_insert.
    + intros j chain Hj. destruct (decide (i = j)) as [<-|Hne].
      * rewrite list_lookup_insert_eq in Hj by exact Hi. injection Hj as <-.
        constructor; [reflexivity|].
        apply (Hpl i), bucket_at_lookup, Hi.
      * rewrite list_lookup_insert_ne in Hj by exact Hne. now apply (Hpl j).
    + split_and!; [exact H1|etransitivity; [exact H2|simpl; lia]| |exact H4].
      etransitivity; [exact H3|]. destruct (entries_replace b i Hi) as (R & HR & HR').
      rewrite HR', HR. simpl. symmetry. apply Permutation_middle.
Qed.

Lemma resize_spec t c :
  LawfulPolicy (hash_func t) -> well_formed t -> 0 < c ->
  let t' := hashtable_resize t c in
  well_formed t' /\ Permutation (entries t') (entries t) /\
  size t' = size t /\ capacity t' = c /\ hash_func t' = hash_func t.
Proof.
  intros Hlaw Hwf Hc t'. subst t'. unfold hashtable_resize.
  rewrite rehash_flat.
  destruct (rehash_fold (hash_func t) c (concat (buckets t)) Hlaw Hc
              (replicate c []) 0) as (H1 & H2 & H3 & H4).
  { apply length_replicate. }
  { intros j chain Hj. apply lookup_replicate in Hj as [-> _]. constructor. }
  rewrite concat_replicate_nil, app_nil_r in H3.
  assert (Hsz : snd (fold_left (rehash_entry (hash_func t) c)
                  (concat (buckets t)) (replicate c [], 0)) = size t).
  { rewrite H2. simpl. symmetry. apply (wf_size t Hwf). }
  split_and!; auto.
  constructor; simpl; auto.
  - unfold entries. simpl. rewrite H3, Hsz. apply (wf_size t Hwf).
  - unfold entries. simpl.
    eapply distinct_keys_perm;
      [exact Hlaw|symmetry; apply Permutation_map; exact H3|].
    apply (wf_distinct t Hwf).
Qed.

Lemma grow_spec t :
  LawfulPolicy (hash_func t) -> well_formed t ->
  well_formed (grow t) /\ Permutation (entries (grow t)) (entries t) /\
  size (grow t) = size t /\ hash_func (grow t) = hash_func t /\
  capacity (grow t) =
    if load_exceeded t then capacity t * HASHTABLE_GROWTH_FACTOR else capacity t.
Proof.
  intros Hlaw Hwf. unfold grow. destruct (load_exceeded t).
  - assert (Hc : 0 < capacity t * HASHTABLE_GROWTH_FACTOR).
    { pose proof (wf_capacity t Hwf). unfold HASHTABLE_GROWTH_FACTOR. lia. }
    destruct (resize_spec t _ Hlaw Hwf Hc) as (H1 & H2 & H3 & H4 & H5).
    split_and!; auto.
  - split_and!; auto.
Qed.

(** ** What the operations do to the contents *)

(** Two well-formed tables with the same entries answer alike. *)
Lemma same_entries t1 t2 k :
  LawfulPolicy (hash_func t1) -> well_formed t1 -> well_formed t2 ->
  hash_func t2 = hash_func t1 -> Permutation (entries t2) (entries t1) ->
  hashtable_get t2 k = hashtable_get t1 k /\ has_entry t2 k = has_entry t1 k.
Proof.
  intros Hlaw Hwf1 Hwf2 Hhf HP. split.
  - rewrite !get_entries; auto; [|now rewrite Hhf]. rewrite Hhf.
    apply get_walk_perm; auto. rewrite <- Hhf. apply (wf_distinct t2 Hwf2).
  - unfold has_entry. rewrite Hhf. now apply existsb_perm.
Qed.

Lemma has_entry_equiv t k k' :
  LawfulPolicy (hash_func t) -> key_equals (hash_func t) k k' = true ->
  has_entry t k' = has_entry t k.
Proof.
  intros Hlaw Hk. unfold has_entry.
  induction (entries t) as [|e L IH]; simpl; [reflexivity|].
  now rewrite IH, (equals_congr_r _ Hlaw k k' (key e) Hk).
Qed.

Lemma put_spec t k v :
  LawfulPolicy (hash_func t) -> well_formed t ->
  let t' := fst (hashtable_put t k v) in
  well_formed t' /\ hash_func t' = hash_func t /\
  snd (hashtable_put t k v) = true /\
  capacity t' = capacity (grow t) /\
  size t' = (if has_entry t k then size t else S (size t)) /\
  (forall k', hashtable_get t' k' =
              if key_equals (hash_func t) k k' then v else hashtable_get t k') /\
  (forall k', has_entry t' k' = key_equals (hash_func t) k k' || has_entry t k').
Proof.
  intros Hlaw Hwf t'. subst t'. rewrite hashtable_put_unfold.
  destruct (grow_spec t Hlaw Hwf) as (Hwf1 & HP1 & Hsz1 & Hhf1 & _).
  assert (Hlaw1 : LawfulPolicy (hash_func (grow t))) by now rewrite Hhf1.
  assert (Hsame : forall k', hashtable_get (grow t) k' = hashtable_get t k' /\
                             has_entry (grow t) k' = has_entry t k').
  { intros k'. now apply same_entries. }
  destruct (put_at_frame (grow t) k v) as (Hcap & Hhf & Hret).
  set (t' := fst (put_at (grow t) k v)) in *.
  assert (Hhf' : hash_func t' = hash_func t) by congruence.
  assert (Hlaw' : LawfulPolicy (hash_func t')) by now rewrite Hhf'.
  destruct (has_entry t k) eqn:Hhas.
  - destruct (put_at_found (grow t) k v Hlaw1 Hwf1) as
      (e & rest & HP & HP' & He & Hwf' & Hsz & _).
    { now rewrite (proj2 (Hsame k)). }
    fold t' in HP', Hwf', Hsz. rewrite Hhf1 in He.
    split_and!; auto; [congruence| |]; intros k'.
    + rewrite <- (proj1 (Hsame k')).
      rewrite !get_entries by assumption. rewrite Hhf, Hhf1.
      rewrite (get_walk_perm _ Hlaw _ _ k' HP')
        by (rewrite <- Hhf'; apply (wf_distinct t' Hwf')).
      rewrite (get_walk_perm _ Hlaw _ _ k' HP)
        by (rewrite <- Hhf1; apply (wf_distinct _ Hwf1)).
      simpl. rewrite (equals_congr_l _ Hlaw _ _ k' He).
      now destruct (key_equals (hash_func t) k k').
    + rewrite <- (proj2 (Hsame k')). unfold has_entry. rewrite Hhf, Hhf1.
      rewrite (existsb_perm _ _ _ k' HP'), (existsb_perm _ _ _ k' HP). simpl.
      rewrite (equals_congr_l _ Hlaw _ _ k' He).
      now destruct (key_equals (hash_func t) k k').
  - destruct (put_at_fresh (grow t) k v Hlaw1 Hwf1) as (HP' & Hwf' & Hsz).
    { now rewrite (proj2 (Hsame k)). }
    fold t' in HP', Hwf', Hsz.
    split_and!; auto; [congruence| |]; intros k'.
    + rewrite <- (proj1 (Hsame k')).
      rewrite !get_entries by assumption. rewrite Hhf, Hhf1.
      rewrite (get_walk_perm _ Hlaw _ _ k' HP')
        by (rewrite <- Hhf'; apply (wf_distinct t' Hwf')).
      reflexivity.
    + rewrite <- (proj2 (Hsame k')). unfold has_entry. rewrite Hhf, Hhf1.
      now rewrite (existsb_perm _ _ _ k' HP').
Qed.

Lemma remove_spec t k :
  LawfulPolicy (hash_func t) -> well_formed t ->
  let t' := fst (hashtable_remove t k) in
  well_formed t' /\ hash_func t' = hash_func t /\
  snd (hashtable_remove t k) = has_entry t k /\
  capacity t' = capacity t /\
  size t' = (if has_entry t k then size t - 1 else size t) /\
  (forall k', hashtable_get t' k' =
              if key_equals (hash_func t) k k' then NULL else hashtable_get t k') /\
  (forall k', has_entry t' k' =
              negb (key_equals (hash_func t) k k') && has_entry t k').
Proof.
  intros Hlaw Hwf t'. subst t'.
  destruct (remove_frame t k) as (Hcap & Hhf).
  destruct (has_entry t k) eqn:Hhas.
  - destruct (remove_found t k Hlaw Hwf Hhas) as (e & HP & He & Hwf' & Hsz & Hret).
    set (t' := fst (hashtable_remove t k)) in *.
    assert (Hlaw' : LawfulPolicy (hash_func t')) by now rewrite Hhf.
    pose proof (wf_distinct t Hwf) as Hd.
    apply (distinct_keys_perm _ Hlaw _ _ (Permutation_map key HP)) in Hd.
    split_and!; auto; [lia| |]; intros k'.
    + rewrite !get_entries by assumption. rewrite Hhf.
      rewrite (get_walk_perm _ Hlaw _ _ k' HP) by apply (wf_distinct t Hwf).
      simpl. rewrite (equals_congr_l _ Hlaw _ _ k' He).
      destruct (key_equals (hash_func t) k k') eqn:Hk; [|reflexivity].
      apply get_walk_no_match. apply (distinct_head_no_match _ Hlaw e); auto.
      now rewrite (equals_congr_l _ Hlaw _ _ k' He).
    + unfold has_entry. rewrite Hhf. rewrite (existsb_perm _ _ _ k' HP). simpl.
      rewrite (equals_congr_l _ Hlaw _ _ k' He).
      destruct (key_equals (hash_func t) k k') eqn:Hk; [|reflexivity].
      simpl. apply existsb_no_match.
      apply (distinct_head_no_match _ Hlaw e); auto.
      now rewrite (equals_congr_l _ Hlaw _ _ k' He).
  - rewrite (remove_absent t k Hlaw Hwf Hhas). simpl.
    split_and!; auto; intros k'.
    + destruct (key_equals (hash_func t) k k') eqn:Hk; [|reflexivity].
      rewrite get_entries by assumption. apply get_walk_no_match.
      apply existsb_no_match. fold (has_entry t k').
      now rewrite (has_entry_equiv t k k' Hlaw Hk).
    + destruct (key_equals (hash_func t) k k') eqn:Hk; [|reflexivity].
      now rewrite (has_entry_equiv t k k' Hlaw Hk).
Qed.

End Tables.

(** ** The built-in policies are lawful *)

Lemma INT_HASH_FUNC_lawful : LawfulPolicy INT_HASH_FUNC.
Proof.
  constructor; simpl; unfold hash_int_equals, hash_int, hash_int_copy.
  - intros k c Hc.
    pose proof (Z.mod_pos_bound (to_size_t (to_size_t k * 2654435761)) (Z.of_nat c)).
    lia.
  - intros k. apply Z.eqb_refl.
  - intros a b. apply Z.eqb_sym.
  - intros a b c Hab Hbc. apply Z.eqb_eq in Hab, Hbc. apply Z.eqb_eq. congruence.
  - intros a b c Hab. apply Z.eqb_eq in Hab. now subst.
  - reflexivity.
Qed.

Lemma STRING_HASH_FUNC_lawful : LawfulPolicy STRING_HASH_FUNC.
Proof.
  constructor; simpl;
    unfold hash_string_equals, hash_string_djb2, hash_string_copy.
  - intros k c Hc.
    pose proof (Z.mod_pos_bound (djb2_loop k 5381) (Z.of_nat c)). lia.
  - intros k. apply String.eqb_refl.
  - intros a b. apply String.eqb_sym.
  - intros a b c Hab Hbc. apply String.eqb_eq in Hab, Hbc. apply String.eqb_eq.
    congruence.
  - intros a b c Hab. apply String.eqb_eq in Hab. now subst.
  - reflexivity.
Qed.

Section Histories.
Context {K : Type}.
Variable hf : HashFunction K.
Hypothesis Hlaw : LawfulPolicy hf.
Implicit Types (t : HashTable K) (k : K) (ops : list (table_op K)).

Lemma init_wf c : well_formed (hashtable_init c hf).
Proof.
  unfold hashtable_init. set (cap := if c <? HASHTABLE_MIN_SIZE then _ else _).
  assert (Hcap : 0 < cap).
  { subst cap. unfold HASHTABLE_MIN_SIZE. destruct (Nat.ltb_spec c 8); lia. }
  constructor; simpl; auto.
  - apply length_replicate.
  - unfold entries. simpl. now rewrite concat_replicate_nil.
  - intros i chain Hi. apply lookup_replicate in Hi as [-> _]. constructor.
  - unfold entries. simpl. now rewrite concat_replicate_nil.
Qed.

Lemma apply_op_wf t op :
  hash_func t = hf -> well_formed t ->
  hash_func (apply_op t op) = hf /\ well_formed (apply_op t op).
Proof.
  intros Hhf Hwf. assert (Hl : LawfulPolicy (hash_func t)) by now rewrite Hhf.
  destruct op as [k v|k]; simpl.
  - destruct (put_spec t k v Hl Hwf) as (H1 & H2 & _). split; congruence.
  - destruct (remove_spec t k Hl Hwf) as (H1 & H2 & _). split; congruence.
Qed.

Lemma run_ops_snoc c ops op :
  run_ops c hf (ops ++ [op]) = apply_op (run_ops c hf ops) op.
Proof. unfold run_ops. now rewrite fold_left_app. Qed.

Lemma run_ops_wf c ops :
  hash_func (run_ops c hf ops) = hf /\ well_formed (run_ops c hf ops).
Proof.
  induction ops as [|op ops IH] using rev_ind.
  - split; [reflexivity|apply init_wf].
  - rewrite run_ops_snoc. destruct IH. now apply apply_op_wf.
Qed.

(** ** Load factor *)

Lemma load_invariant c ops :
  HASHTABLE_MIN_SIZE <= capacity (run_ops c hf ops) /\
  LOAD_DEN * size (run_ops c hf ops)
    < LOAD_NUM * capacity (run_ops c hf ops) + LOAD_DEN /\
  (capacity (hashtable_init c hf) mod 4 = 0 ->
   capacity (run_ops c hf ops) mod 4 = 0 /\
   LOAD_DEN * size (run_ops c hf ops) <= LOAD_NUM * capacity (run_ops c hf ops)).
Proof.
  unfold LOAD_DEN, LOAD_NUM, HASHTABLE_MIN_SIZE.
  induction ops as [|op ops IH] using rev_ind.
  - unfold run_ops, hashtable_init, HASHTABLE_MIN_SIZE. cbn [fold_left size capacity].
    destruct (Nat.ltb_spec c 8); split_and!; try lia; intros H'; split; auto; lia.
  - rewrite run_ops_snoc.
    destruct (run_ops_wf c ops) as [Hhf Hwf].
    set (t := run_ops c hf ops) in *.
    assert (Hl : LawfulPolicy (hash_func t)) by now rewrite Hhf.
    destruct IH as (IH1 & IH2 & IH3).
    destruct op as [k v|k]; cbn [apply_op].
    + destruct (put_spec t k v Hl Hwf) as (_ & _ & _ & Hcap & Hsz & _).
      destruct (grow_spec t Hl Hwf) as (_ & _ & _ & _ & Hg).
      rewrite Hcap, Hsz, Hg. clear Hcap Hsz Hg.
      unfold load_exceeded, LOAD_DEN, LOAD_NUM, HASHTABLE_GROWTH_FACTOR.
      destruct (Nat.leb_spec (3 * capacity t) (4 * size t)) as [Hle|Hlt];
        destruct (has_entry t k); split_and!; try lia;
        intros H0; destruct (IH3 H0) as [Hm Hb];
        apply Nat.Div0.mod_divides in Hm as [q Hq];
        (split; [apply Nat.Div0.mod_divides|]); try (exists (2 * q); lia);
        try (exists q; lia); lia.
    + destruct (remove_spec t k Hl Hwf) as (_ & _ & _ & Hcap & Hsz & _).
      rewrite Hcap, Hsz. clear Hcap Hsz.
      destruct (has_entry t k); split_and!; try lia;
        intros H0; destruct (IH3 H0) as [Hm Hb]; split; auto; lia.
Qed.

End Histories.

Section Live.
Context {K : Type}.
Variable hf : HashFunction K.
Hypothesis Hlaw : LawfulPolicy hf.
Implicit Types (t : HashTable K) (k : K) (acc : list K).

(** ** Keys alive after a history *)

Lemma existsb_equiv acc k k' :
  key_equals hf k k' = true ->
  existsb (key_equals hf k) acc = existsb (key_equals hf k') acc.
Proof.
  intros Hk. induction acc as [|x acc IH]; simpl; [reflexivity|].
  now rewrite IH, (equals_congr_l hf Hlaw k k' x Hk).
Qed.

(** Adding a key unless an equal one is there. *)
Lemma live_add acc k0 :
  distinct_keys hf acc ->
  let acc' := if existsb (key_equals hf k0) acc then acc else k0 :: acc in
  distinct_keys hf acc' /\
  length acc' = (if existsb (key_equals hf k0) acc
                 then length acc else S (length acc)) /\
  forall k, existsb (key_equals hf k) acc' =
            key_equals hf k0 k || existsb (key_equals hf k) acc.
Proof.
  intros Hd acc'. subst acc'.
  destruct (existsb (key_equals hf k0) acc) eqn:Hex.
  - split_and!; auto. intros k.
    destruct (key_equals hf k0 k) eqn:Hk; [|reflexivity].
    simpl. now rewrite <- (existsb_equiv acc k0 k Hk).
  - split_and!; auto.
    + simpl. split; [|exact Hd].
      apply Forall_forall. intros x Hx.
      destruct (key_equals hf k0 x) eqn:Hkx; [|reflexivity].
      rewrite <- Hex. symmetry. apply existsb_exists. exists x.
      split; [now apply list_elem_of_In|exact Hkx].
    + intros k. simpl. now rewrite (equals_sym hf Hlaw k k0).
Qed.

(** Taking away the keys equal to a given one: at most one goes. *)
Lemma live_remove acc k0 :
  distinct_keys hf acc ->
  let acc' := List.filter (fun x => negb (key_equals hf k0 x)) acc in
  distinct_keys hf acc' /\
  length acc' = (if existsb (key_equals hf k0) acc
                 then length acc - 1 else length acc) /\
  forall k, existsb (key_equals hf k) acc' =
            negb (key_equals hf k0 k) && existsb (key_equals hf k) acc.
Proof.
  induction acc as [|x acc IH]; intros Hd; simpl.
  - split_and!; auto. intros k. now rewrite andb_false_r.
  - destruct Hd as [Hx Hd]. destruct (IH Hd) as (IH1 & IH2 & IH3).
    destruct (key_equals hf k0 x) eqn:Hk0; simpl.
    + assert (Hno : existsb (key_equals hf k0) acc = false).
      { rewrite (existsb_equiv acc k0 x Hk0).
        destruct (existsb (key_equals hf x) acc) eqn:Hex; [|reflexivity].
        apply existsb_exists in Hex as (y & Hy & Hxy).
        rewrite Forall_forall in Hx. apply list_elem_of_In in Hy.
        rewrite (Hx y Hy) in Hxy. discriminate. }
      rewrite Hno in IH2. split_and!; auto; [lia|].
      intros k. rewrite IH3.
      rewrite (equals_sym hf Hlaw k x), <- (equals_congr_l hf Hlaw k0 x k Hk0).
      now destruct (key_equals hf k0 k).
    + split_and!.
      * apply Forall_forall. intros y Hy.
        apply list_elem_of_In, filter_In in Hy as [Hy _].
        rewrite Forall_forall in Hx. apply Hx. now apply list_elem_of_In.
      * exact IH1.
      * rewrite IH2. destruct (existsb (key_equals hf k0) acc) eqn:Hex; [|lia].
        destruct acc; [discriminate|]. simpl. lia.
      * intros k. rewrite IH3.
        destruct (key_equals hf k0 k) eqn:Hk; [|reflexivity].
        rewrite <- (equals_congr_l hf Hlaw k0 k x Hk), Hk0. reflexivity.
Qed.

Lemma init_entries c : entries (hashtable_init c hf) = [].
Proof. unfold entries, hashtable_init. simpl. apply concat_replicate_nil. Qed.

Lemma init_has_entry c k : has_entry (hashtable_init c hf) k = false.
Proof. unfold has_entry. now rewrite init_entries. Qed.

Lemma init_get c k : hashtable_get (hashtable_init c hf) k = NULL.
Proof.
  rewrite get_entries; [|exact Hlaw|apply (init_wf hf c)].
  now rewrite init_entries.
Qed.

Lemma last_put_snoc (ops : list (table_op K)) op k :
  last_put hf (ops ++ [op]) k =
  match op with
  | Put k' v => if key_equals hf k' k then Some v else last_put hf ops k
  | Remove k' => if key_equals hf k' k then None else last_put hf ops k
  end.
Proof. unfold last_put. rewrite fold_left_app. reflexivity. Qed.

Lemma live_keys_snoc (ops : list (table_op K)) op :
  live_keys hf (ops ++ [op]) =
  match op with
  | Put k' _ =>
      if existsb (key_equals hf k') (live_keys hf ops)
      then live_keys hf ops else k' :: live_keys hf ops
  | Remove k' =>
      List.filter (fun x => negb (key_equals hf k' x)) (live_keys hf ops)
  end.
Proof. unfold live_keys. rewrite fold_left_app. reflexivity. Qed.

(** The table after a history, against the reading of the history. *)
Lemma history_invariant c (ops : list (table_op K)) :
  let t := run_ops c hf ops in
  distinct_keys hf (live_keys hf ops) /\
  size t = length (live_keys hf ops) /\
  (forall k, hashtable_get t k =
             match last_put hf ops k with Some v => v | None => NULL end) /\
  (forall k, has_entry t k =
             match last_put hf ops k with Some _ => true | None => false end) /\
  (forall k, has_entry t k = existsb (key_equals hf k) (live_keys hf ops)).
Proof.
  induction ops as [|op ops IH] using rev_ind.
  - unfold run_ops, live_keys, last_put. cbn [fold_left length distinct_keys existsb].
    split_and!; auto using init_get, init_has_entry.
  - cbv zeta in *. rewrite run_ops_snoc, live_keys_snoc.
    destruct (run_ops_wf hf Hlaw c ops) as [Hhf Hwf].
    set (t := run_ops c hf ops) in *.
    assert (Hl : LawfulPolicy (hash_func t)) by now rewrite Hhf.
    destruct IH as (IHd & IHs & IHg & IHh & IHl).
    destruct op as [k0 v|k0]; cbn [apply_op].
    + destruct (put_spec t k0 v Hl Hwf) as (_ & _ & _ & _ & Hsz & Hget & Hhas).
      rewrite Hhf in Hget, Hhas.
      destruct (live_add (live_keys hf ops) k0 IHd) as (L1 & L2 & L3).
      rewrite <- (IHl k0) in L2 |- *.
      rewrite <- (IHl k0) in L1, L3.
      split_and!; auto.
      * rewrite Hsz, L2. destruct (has_entry t k0); congruence.
      * intros k. rewrite Hget, last_put_snoc, IHg.
        now destruct (key_equals hf k0 k).
      * intros k. rewrite Hhas, last_put_snoc, IHh.
        now destruct (key_equals hf k0 k).
      * intros k. now rewrite Hhas, L3, IHl.
    + destruct (remove_spec t k0 Hl Hwf) as (_ & _ & _ & _ & Hsz & Hget & Hhas).
      rewrite Hhf in Hget, Hhas.
      destruct (live_remove (live_keys hf ops) k0 IHd) as (L1 & L2 & L3).
      rewrite <- (IHl k0) in L2.
      split_and!; auto.
      * rewrite Hsz, L2. destruct (has_entry t k0); congruence.
      * intros k. rewrite Hget, last_put_snoc, IHg.
        now destruct (key_equals hf k0 k).
      * intros k. rewrite Hhas, last_put_snoc, IHh.
        now destruct (key_equals hf k0 k).
      * intros k. now rewrite Hhas, L3, IHl.
Qed.

(** C3: after any history of [put] and [remove], [get] returns the value of
    the most recent [put] of an equal key (if no [remove] of it came later),
    and [size] is the number of keys, distinct under the policy, put and not
    removed since. *)
Theorem get_and_size_after_history c (ops : list (table_op K)) k :
  let t := run_ops c hf ops in
  hashtable_get t k =
    match last_put hf ops k with Some v => v | None => NULL end /\
  hashtable_size t = length (live_keys hf ops) /\
  distinct_keys hf (live_keys hf ops) /\
  (forall k', existsb (key_equals hf k') (live_keys hf ops) =
              match last_put hf ops k' with Some _ => true | None => false end).
Proof.
  intros t. destruct (history_invariant c ops) as (H1 & H2 & H3 & H4 & H5).
  fold t in H2, H3, H4, H5. split_and!; auto.
  intros k'. now rewrite <- H5, H4.
Qed.

(** ** Sets *)

Lemma run_set_ops_snoc c (ops : list (set_op K)) op :
  run_set_ops c hf (ops ++ [op]) = apply_set_op (run_set_ops c hf ops) op.
Proof. unfold run_set_ops. now rewrite fold_left_app. Qed.

(** Every entry of a set carries [HASHSET_DUMMY_VALUE]: [get] tells whether
    the key has an entry. *)
Lemma set_invariant c (ops : list (set_op K)) :
  let s := run_set_ops c hf ops in
  hash_func s = hf /\ well_formed s /\
  forall k, hashtable_get s k =
            if has_entry s k then HASHSET_DUMMY_VALUE else NULL.
Proof.
  induction ops as [|op ops IH] using rev_ind.
  - unfold run_set_ops, hashset_init. cbn [fold_left].
    split_and!; auto; [apply (init_wf hf c)|].
    intros k. now rewrite init_get, init_has_entry.
  - cbv zeta in *. rewrite run_set_ops_snoc.
    set (s := run_set_ops c hf ops) in *.
    destruct IH as (Hhf & Hwf & IH).
    assert (Hl : LawfulPolicy (hash_func s)) by now rewrite Hhf.
    destruct op as [k0|k0]; cbn [apply_set_op hashset_add hashset_remove fst].
    + destruct (put_spec s k0 HASHSET_DUMMY_VALUE Hl Hwf)
        as (Hwf' & Hhf' & _ & _ & _ & Hget & Hhas).
      split_and!; auto; try congruence.
      intros k. rewrite Hget, Hhas, IH.
      now destruct (key_equals (hash_func s) k0 k).
    + unfold hashset_remove.
      destruct (remove_spec s k0 Hl Hwf) as (Hwf' & Hhf' & _ & _ & _ & Hget & Hhas).
      split_and!; auto; try congruence.
      intros k. rewrite Hget, Hhas, IH.
      now destruct (key_equals (hash_func s) k0 k).
Qed.

(** C6: [add] returns [true] exactly when the key was not a member, and
    makes it a member; two [add]s of one key to a new set return [true], then
    [false], and leave one element. *)
Theorem hashset_add_new_member c (ops : list (set_op K)) k :
  let s := run_set_ops c hf ops in
  let r := hashset_add s k in
  snd r = negb (hashset_contains s k) /\
  hashset_contains s k = has_entry s k /\
  hashset_contains (fst r) k = true /\
  (let r1 := hashset_add (hashset_init c hf) k in
   let r2 := hashset_add (fst r1) k in
   snd r1 = true /\ snd r2 = false /\ hashset_size (fst r2) = 1).
Proof.
  assert (Hmem : forall ops', hashset_contains (run_set_ops c hf ops') k =
                              has_entry (run_set_ops c hf ops') k).
  { intros ops'. destruct (set_invariant c ops') as (_ & _ & Hg).
    unfold hashset_contains, hashtable_contains. rewrite Hg.
    now destruct (has_entry _ k). }
  assert (Hadd : forall ops', hashset_contains (run_set_ops c hf (ops' ++ [Add k])) k = true).
  { intros ops'. rewrite Hmem, run_set_ops_snoc. cbn [apply_set_op hashset_add fst].
    destruct (set_invariant c ops') as (Hhf & Hwf & _).
    assert (Hl : LawfulPolicy (hash_func (run_set_ops c hf ops'))) by now rewrite Hhf.
    destruct (put_spec _ k HASHSET_DUMMY_VALUE Hl Hwf) as (_ & _ & _ & _ & _ & _ & Hhas).
    rewrite Hhas, Hhf. now rewrite (equals_refl hf Hlaw). }
  intros s r. split_and!.
  - reflexivity.
  - apply Hmem.
  - pose proof (Hadd ops) as H. rewrite run_set_ops_snoc in H. exact H.
  - cbv zeta. split_and!.
    + cbn [hashset_add snd]. pose proof (Hmem []) as H.
      unfold run_set_ops, hashset_contains in H. cbn [fold_left] in H. rewrite H.
      unfold hashset_init. now rewrite init_has_entry.
    + cbn [hashset_add snd fst]. rewrite negb_false_iff.
      pose proof (Hadd []) as H. rewrite run_set_ops_snoc in H.
      unfold run_set_ops in H. cbn [fold_left] in H. exact H.
    + cbn [hashset_add snd fst]. unfold hashset_size, hashtable_size.
      pose proof (init_wf hf c) as Hwf0.
      assert (Hl0 : LawfulPolicy (hash_func (hashtable_init c hf))) by exact Hlaw.
      destruct (put_spec (hashtable_init c hf) k HASHSET_DUMMY_VALUE Hl0 Hwf0)
        as (Hwf1 & Hhf1 & _ & _ & Hsz1 & _ & Hhas1).
      set (s1 := fst (hashtable_put (hashtable_init c hf) k HASHSET_DUMMY_VALUE)) in *.
      assert (Hl1 : LawfulPolicy (hash_func s1)) by now rewrite Hhf1.
      destruct (put_spec s1 k HASHSET_DUMMY_VALUE Hl1 Hwf1)
        as (_ & _ & _ & _ & Hsz2 & _).
      unfold hashset_init. fold s1. rewrite Hsz2, Hhas1.
      change (hash_func (hashtable_init c hf)) with hf.
      rewrite (equals_refl hf Hlaw). simpl. rewrite Hsz1.
      now rewrite init_has_entry.
Qed.

End Live.

(** ** The statements of the design document *)

Section Claims.
Context {K : Type}.
Variable hf : HashFunction K.
Hypothesis Hlaw : LawfulPolicy hf.
Implicit Types (t : HashTable K) (k : K) (ops : list (table_op K)).

(** C1, as the code has it: after any [put] on a table made by [init] the
    load test that precedes the insertion leaves [size - 1] below
    [0.75 * capacity]; [size / capacity <= 0.75] itself holds when the
    capacity the table starts with (the request, raised to 8) is a multiple
    of 4, as are the defaults 16 and 8. *)
Theorem put_load_factor_bound c ops k v :
  let t := fst (hashtable_put (run_ops c hf ops) k v) in
  LOAD_DEN * size t < LOAD_NUM * capacity t + LOAD_DEN /\
  (capacity (hashtable_init c hf) mod 4 = 0 ->
   LOAD_DEN * size t <= LOAD_NUM * capacity t).
Proof.
  intros t.
  destruct (load_invariant hf Hlaw c (ops ++ [Put k v])) as (_ & H2 & H3).
  rewrite run_ops_snoc in H2, H3. cbn [apply_op] in H2, H3. fold t in H2, H3.
  split; [exact H2|]. intros H0. now apply H3.
Qed.

(** C2, as the code has it: [put] of a key the table holds replaces the
    value of its entry, with the same entries under the same keys and the
    same size; the capacity is doubled first exactly when the load test at
    the head of [put] fires, and is unchanged, every chain keeping its keys in
    place, when it does not. *)
Theorem put_existing_key c ops k v :
  let t := run_ops c hf ops in
  let t' := fst (hashtable_put t k v) in
  has_entry t k = true ->
  snd (hashtable_put t k v) = true /\
  size t' = size t /\
  hashtable_get t' k = v /\
  (forall k', key_equals hf k k' = false ->
              hashtable_get t' k' = hashtable_get t k') /\
  Permutation (map key (entries t')) (map key (entries t)) /\
  capacity t' = (if load_exceeded t
                 then capacity t * HASHTABLE_GROWTH_FACTOR else capacity t) /\
  (load_exceeded t = false ->
   map (map key) (buckets t') = map (map key) (buckets t)).
Proof.
  intros t t' Hhas.
  destruct (run_ops_wf hf Hlaw c ops) as [Hhf Hwf]. fold t in Hhf, Hwf.
  assert (Hl : LawfulPolicy (hash_func t)) by now rewrite Hhf.
  destruct (put_spec t k v Hl Hwf) as (_ & _ & Hret & Hcap & Hsz & Hget & _).
  fold t' in Hcap, Hsz, Hget. rewrite Hhas in Hsz. rewrite Hhf in Hget.
  destruct (grow_spec t Hl Hwf) as (Hwf1 & HP1 & _ & Hhf1 & Hg).
  assert (Hl1 : LawfulPolicy (hash_func (grow t))) by now rewrite Hhf1.
  destruct (put_at_found (grow t) k v Hl1 Hwf1) as
    (e & rest & HP & HP' & _ & _ & _ & Hkeys).
  { destruct (same_entries t (grow t) k Hl Hwf Hwf1 Hhf1 HP1) as [_ ->].
    exact Hhas. }
  split_and!; auto.
  - rewrite Hget. now rewrite (equals_refl hf Hlaw).
  - intros k' Hk. rewrite Hget. now rewrite Hk.
  - unfold t'. rewrite hashtable_put_unfold, HP', <- HP1, HP. reflexivity.
  - congruence.
  - intros Hload. unfold t'. rewrite hashtable_put_unfold, Hkeys.
    unfold grow. now rewrite Hload.
Qed.

(** C4: [remove] of a key the table does not hold returns [false] and the
    table as it was; [remove] of a key it holds returns [true], takes one off
    [size], and leaves [contains] false for the key. *)
Theorem remove_absent_and_present c ops k :
  let t := run_ops c hf ops in
  let r := hashtable_remove t k in
  (has_entry t k = false -> r = (t, false)) /\
  (has_entry t k = true ->
   snd r = true /\ size (fst r) + 1 = size t /\
   hashtable_contains (fst r) k = false /\ has_entry (fst r) k = false).
Proof.
  intros t r.
  destruct (run_ops_wf hf Hlaw c ops) as [Hhf Hwf]. fold t in Hhf, Hwf.
  assert (Hl : LawfulPolicy (hash_func t)) by now rewrite Hhf.
  split; intros Hhas.
  - now apply remove_absent.
  - destruct (remove_spec t k Hl Hwf) as (_ & _ & Hret & _ & _ & Hget & Hhas').
    destruct (remove_found t k Hl Hwf Hhas) as (_ & _ & _ & _ & Hsz & _).
    fold r in Hret, Hget, Hhas', Hsz. rewrite Hhf in Hget, Hhas'.
    split_and!.
    + congruence.
    + lia.
    + unfold hashtable_contains. rewrite Hget, (equals_refl hf Hlaw). reflexivity.
    + rewrite Hhas', (equals_refl hf Hlaw). reflexivity.
Qed.

(** C5: a resize keeps the entries of the table, each exactly once, and so
    the size; afterwards every entry sits in the bucket its key hashes to
    under the new capacity. *)
Theorem resize_preserves_entries c ops new_capacity :
  0 < new_capacity ->
  let t := run_ops c hf ops in
  let t' := hashtable_resize t new_capacity in
  Permutation (entries t') (entries t) /\
  size t' = size t /\
  capacity t' = new_capacity /\
  length (buckets t') = new_capacity /\
  (forall i chain, buckets t' !! i = Some chain ->
     Forall (fun e => hash hf (key e) new_capacity = i) chain).
Proof.
  intros Hc t t'.
  destruct (run_ops_wf hf Hlaw c ops) as [Hhf Hwf]. fold t in Hhf, Hwf.
  assert (Hl : LawfulPolicy (hash_func t)) by now rewrite Hhf.
  destruct (resize_spec t new_capacity Hl Hwf Hc) as (Hwf' & HP & Hsz & Hcap & Hhf').
  fold t' in Hwf', HP, Hsz, Hcap, Hhf'.
  split_and!; auto.
  - rewrite (wf_length t' Hwf'). exact Hcap.
  - intros i chain Hi. pose proof (wf_placed t' Hwf' i chain Hi) as Hpl.
    now rewrite Hhf', Hhf, Hcap in Hpl.
Qed.

(** C10: after [put(key, NULL)] the key has an entry, counted by [size] and
    removed by [remove] with result [true], while [get] returns [NULL] for
    it, as it does for a key without entry, and [contains] is false. *)
Theorem null_value_entry c ops k :
  let t := run_ops c hf ops in
  let t' := fst (hashtable_put t k NULL) in
  hashtable_get t' k = NULL /\
  hashtable_contains t' k = false /\
  has_entry t' k = true /\
  hashtable_size t' = length (entries t') /\
  hashtable_size t' = (if has_entry t k then size t else S (size t)) /\
  snd (hashtable_remove t' k) = true /\
  (forall k0, has_entry t' k0 = false ->
     hashtable_get t' k0 = hashtable_get t' k /\ hashtable_contains t' k0 = false).
Proof.
  intros t t'.
  destruct (run_ops_wf hf Hlaw c ops) as [Hhf Hwf]. fold t in Hhf, Hwf.
  assert (Hl : LawfulPolicy (hash_func t)) by now rewrite Hhf.
  destruct (put_spec t k NULL Hl Hwf) as (Hwf' & Hhf' & _ & _ & Hsz & Hget & Hhas).
  fold t' in Hwf', Hhf', Hsz, Hget, Hhas. rewrite Hhf in Hget, Hhas.
  assert (Hl' : LawfulPolicy (hash_func t')) by now rewrite Hhf', Hhf.
  assert (Hk : hashtable_get t' k = NULL).
  { rewrite Hget. now rewrite (equals_refl hf Hlaw). }
  assert (Hin : has_entry t' k = true).
  { rewrite Hhas. now rewrite (equals_refl hf Hlaw). }
  split_and!; auto.
  - unfold hashtable_contains. now rewrite Hk.
  - apply (wf_size t' Hwf').
  - destruct (remove_spec t' k Hl' Hwf') as (_ & _ & -> & _). exact Hin.
  - intros k0 H0. rewrite Hk.
    assert (H1 : hashtable_get t' k0 = NULL).
    { rewrite get_entries by assumption. apply get_walk_no_match.
      apply existsb_no_match. exact H0. }
    split; [exact H1|]. unfold hashtable_contains. now rewrite H1.
Qed.

End Claims.

(** ** The statements on the tables of the test programs *)

Section Examples.

#[local] Open Scope Z_scope.
#[local] Open Scope string_scope.

(** A table asked for with 9 buckets holds 7 entries after 7 [put]s of
    distinct keys: the load factor is 7/9, above 0.75. *)
Lemma put_load_factor_exceeded :
  let t := fst (hashtable_put
                  (run_ops 9 INT_HASH_FUNC
                     [Put 1 100; Put 2 100; Put 3 100; Put 4 100; Put 5 100;
                      Put 6 100]) 7 100) in
  size t = 7%nat /\ capacity t = 9%nat /\
  ~ (LOAD_DEN * size t <= LOAD_NUM * capacity t)%nat.
Proof. vm_compute. split_and!; auto. lia. Qed.

Lemma put_load_factor_bound_witness :
  LawfulPolicy INT_HASH_FUNC /\
  let t := fst (hashtable_put (run_ops 16 INT_HASH_FUNC [Put 1 10; Put 2 20])
                  3 30) in
  (LOAD_DEN * size t < LOAD_NUM * capacity t + LOAD_DEN)%nat /\
  (LOAD_DEN * size t <= LOAD_NUM * capacity t)%nat.
Proof.
  split; [exact INT_HASH_FUNC_lawful|].
  pose proof (put_load_factor_bound INT_HASH_FUNC INT_HASH_FUNC_lawful 16
                [Put 1 10; Put 2 20] 3 30) as H.
  cbv zeta in *. destruct H as [H1 H2]. split; [exact H1|].
  apply H2. reflexivity.
Defined.

(** A table of 8 buckets holding 6 keys doubles its capacity when the value
    of one of them is replaced. *)
Lemma put_existing_key_grows :
  let t := run_ops 8 INT_HASH_FUNC
             [Put 1 100; Put 2 100; Put 3 100; Put 4 100; Put 5 100; Put 6 100] in
  let t' := fst (hashtable_put t 1 5) in
  has_entry t 1 = true /\ capacity t = 8%nat /\ capacity t' = 16%nat /\
  capacity t' <> capacity t.
Proof. vm_compute. split_and!; auto; discriminate. Qed.

Lemma put_existing_key_witness :
  LawfulPolicy INT_HASH_FUNC /\
  let t := run_ops 16 INT_HASH_FUNC [Put 1 10] in
  let t' := fst (hashtable_put t 1 20) in
  has_entry t 1 = true /\
  size t' = size t /\ hashtable_get t' 1 = 20 /\ capacity t' = 16%nat.
Proof.
  split; [exact INT_HASH_FUNC_lawful|].
  pose proof (put_existing_key INT_HASH_FUNC INT_HASH_FUNC_lawful 16
                [Put 1 10] 1 20) as H.
  cbv zeta in *.
  destruct (H eq_refl) as (_ & H2 & H3 & _ & _ & H6 & _).
  split; [reflexivity|]. split; [exact H2|]. split; [exact H3|exact H6].
Defined.

(** [put("apple",1); put("banana",2); put("apple",3)]: size 2 and 3 under
    "apple". *)
Lemma get_and_size_after_history_witness :
  LawfulPolicy STRING_HASH_FUNC /\
  let t := run_ops HASHTABLE_DEFAULT_SIZE STRING_HASH_FUNC
             [Put "apple" 1; Put "banana" 2; Put "apple" 3] in
  hashtable_get t "apple" = 3 /\ hashtable_size t = 2%nat.
Proof.
  split; [exact STRING_HASH_FUNC_lawful|].
  pose proof (get_and_size_after_history STRING_HASH_FUNC STRING_HASH_FUNC_lawful
                HASHTABLE_DEFAULT_SIZE
                [Put "apple" 1; Put "banana" 2; Put "apple" 3] "apple") as H.
  cbv zeta in *. destruct H as (H1 & H2 & _).
  split; [exact H1|exact H2].
Defined.

Lemma remove_absent_and_present_witness :
  LawfulPolicy INT_HASH_FUNC /\
  let t := run_ops 16 INT_HASH_FUNC [Put 1 10; Put 2 20] in
  has_entry t 1 = true /\
  snd (hashtable_remove t 1) = true /\
  (size (fst (hashtable_remove t 1%Z)) + 1)%nat = size t /\
  hashtable_contains (fst (hashtable_remove t 1)) 1 = false.
Proof.
  split; [exact INT_HASH_FUNC_lawful|].
  pose proof (remove_absent_and_present INT_HASH_FUNC INT_HASH_FUNC_lawful 16
                [Put 1 10; Put 2 20] 1) as H.
  cbv zeta in *. destruct H as [_ H].
  destruct (H eq_refl) as (H1 & H2 & H3 & _).
  split; [reflexivity|]. split; [exact H1|]. split; [exact H2|exact H3].
Defined.

Lemma resize_preserves_entries_witness :
  LawfulPolicy INT_HASH_FUNC /\ (0 < 16)%nat /\
  let t := run_ops 8 INT_HASH_FUNC [Put 1 10; Put 2 20; Put 9 30] in
  let t' := hashtable_resize t 16 in
  Permutation (entries t') (entries t) /\ size t' = size t.
Proof.
  split; [exact INT_HASH_FUNC_lawful|]. split; [lia|].
  pose proof (resize_preserves_entries INT_HASH_FUNC INT_HASH_FUNC_lawful 8
                [Put 1 10; Put 2 20; Put 9 30] 16 ltac:(lia)) as H.
  cbv zeta in *. destruct H as (H1 & H2 & _). split; [exact H1|exact H2].
Defined.

(** [HashSet.add("x")] twice. *)
Lemma hashset_add_new_member_witness :
  LawfulPolicy STRING_HASH_FUNC /\
  let r1 := hashset_add (hashset_init HASHTABLE_DEFAULT_SIZE STRING_HASH_FUNC)
              "x" in
  let r2 := hashset_add (fst r1) "x" in
  snd r1 = true /\ snd r2 = false /\ hashset_size (fst r2) = 1%nat.
Proof.
  split; [exact STRING_HASH_FUNC_lawful|].
  pose proof (hashset_add_new_member STRING_HASH_FUNC STRING_HASH_FUNC_lawful
                HASHTABLE_DEFAULT_SIZE [] "x") as H.
  cbv zeta in *. destruct H as (_ & _ & _ & H). exact H.
Defined.

Lemma null_value_entry_witness :
  LawfulPolicy INT_HASH_FUNC /\
  let t' := fst (hashtable_put (run_ops 16 INT_HASH_FUNC []) 7 NULL) in
  hashtable_get t' 7 = NULL /\ hashtable_contains t' 7 = false /\
  has_entry t' 7 = true /\ snd (hashtable_remove t' 7) = true.
Proof.
  split; [exact INT_HASH_FUNC_lawful|].
  pose proof (null_value_entry INT_HASH_FUNC INT_HASH_FUNC_lawful 16 [] 7) as H.
  cbv zeta in *. destruct H as (H1 & H2 & H3 & _ & _ & H4 & _).
  split; [exact H1|]. split; [exact H2|]. split; [exact H3|exact H4].
Defined.

End Examples.

(** ** Further properties of the table *)

Section MoreTables.

Context {K : Type}.
Variable hf : HashFunction K.
Hypothesis Hlaw : LawfulPolicy hf.
Implicit Types (t : HashTable K) (k : K) (ops : list (table_op K)).

(** The invariants of the table hold after any history: the bucket array has
    [capacity] cells, at least 8; [size] counts the entries; every entry sits
    in the chain of the bucket its key hashes to; no two entries have equal
    keys. *)
Theorem table_invariants c ops :
  let t := run_ops c hf ops in
  hash_func t = hf /\
  length (buckets t) = capacity t /\ HASHTABLE_MIN_SIZE <= capacity t /\
  size t = length (entries t) /\
  (forall i chain, buckets t !! i = Some chain ->
     Forall (fun e => hash hf (key e) (capacity t) = i) chain) /\
  distinct_keys hf (map key (entries t)).
Proof.
  intros t. destruct (run_ops_wf hf Hlaw c ops) as [Hhf Hwf]. fold t in Hhf, Hwf.
  destruct (load_invariant hf Hlaw c ops) as (Hcap & _). fold t in Hcap.
  split_and!; auto.
  - apply (wf_length t Hwf).
  - apply (wf_size t Hwf).
  - intros i chain Hi. pose proof (wf_placed t Hwf i chain Hi) as H.
    now rewrite Hhf in H.
  - pose proof (wf_distinct t Hwf) as H. now rewrite Hhf in H.
Qed.

(** [put] and [remove] change what [get] returns for the keys equal to
    theirs and for no other key; [put] reports success, [remove] whether the
    key had an entry. *)
Theorem put_remove_get c ops k v k' :
  let t := run_ops c hf ops in
  hashtable_get (fst (hashtable_put t k v)) k' =
    (if key_equals hf k k' then v else hashtable_get t k') /\
  hashtable_get (fst (hashtable_remove t k)) k' =
    (if key_equals hf k k' then NULL else hashtable_get t k') /\
  snd (hashtable_put t k v) = true /\
  snd (hashtable_remove t k) = has_entry t k.
Proof.
  intros t. destruct (run_ops_wf hf Hlaw c ops) as [Hhf Hwf]. fold t in Hhf, Hwf.
  assert (Hl : LawfulPolicy (hash_func t)) by now rewrite Hhf.
  destruct (put_spec t k v Hl Hwf) as (_ & _ & Hret & _ & _ & Hget & _).
  destruct (remove_spec t k Hl Hwf) as (_ & _ & Hret' & _ & _ & Hget' & _).
  rewrite Hhf in Hget, Hget'. split_and!; auto.
Qed.


(** A resize changes no answer of the table. *)
Theorem resize_preserves_lookups c ops new_capacity k :
  0 < new_capacity ->
  let t := run_ops c hf ops in
  let t' := hashtable_resize t new_capacity in
  hashtable_get t' k = hashtable_get t k /\
  hashtable_contains t' k = hashtable_contains t k /\
  has_entry t' k = has_entry t k.
Proof.
  intros Hc t t'. destruct (run_ops_wf hf Hlaw c ops) as [Hhf Hwf].
  fold t in Hhf, Hwf.
  assert (Hl : LawfulPolicy (hash_func t)) by now rewrite Hhf.
  destruct (resize_spec t new_capacity Hl Hwf Hc) as (Hwf' & HP & _ & _ & Hhf').
  fold t' in Hwf', HP, Hhf'.
  destruct (same_entries t t' k Hl Hwf Hwf' Hhf' HP) as [H1 H2].
  split_and!; auto. unfold hashtable_contains. now rewrite H1.
Qed.

End MoreTables.

(** ** Loops over the bucket array *)

Section BucketLoops.

Context {K : Type}.
Implicit Types (bs : list (list (HashEntry K))).

Lemma map_bucket_at_app pre bs :
  map (bucket_at (pre ++ bs)) (seq (length pre) (length bs)) = bs.
Proof.
  revert pre. induction bs as [|c bs IH]; intros pre; [reflexivity|].
  cbn [length seq map]. f_equal.
  - unfold bucket_at. now rewrite list_lookup_middle.
  - replace (pre ++ c :: bs) with ((pre ++ [c]) ++ bs) by now rewrite <- app_assoc.
    replace (S (length pre)) with (length (pre ++ [c]))
      by (rewrite length_app; simpl; lia).
    apply IH.
Qed.

(** Visiting the cells [0 .. capacity-1] is visiting the chains in order. *)
Lemma map_bucket_at bs : map (bucket_at bs) (seq 0 (length bs)) = bs.
Proof. apply (map_bucket_at_app [] bs). Qed.

Lemma fold_left_map_index {A B C : Type} (g : A -> C -> A) (h : B -> C) l a :
  fold_left (fun acc i => g acc (h i)) l a = fold_left g (map h l) a.
Proof. revert a. induction l as [|x l IH]; intros a; simpl; auto. Qed.

Lemma fold_left_concat {A B : Type} (f : A -> B -> A) (ls : list (list B)) a :
  fold_left (fun acc l => fold_left f l acc) ls a = fold_left f (concat ls) a.
Proof.
  revert a. induction ls as [|l ls IH]; intros a; simpl; [reflexivity|].
  now rewrite fold_left_app, IH.
Qed.

(** The nested loops of the set operations run their body on the entries of
    the table, bucket by bucket. *)
Lemma for_each_entry_entries {A : Type} (t : HashTable K)
    (body : A -> HashEntry K -> A) a :
  length (buckets t) = capacity t ->
  for_each_entry t body a = fold_left body (entries t) a.
Proof.
  intros Hlen. unfold for_each_entry, entries. rewrite <- Hlen.
  rewrite (fold_left_map_index (fun acc c => fold_left body c acc)
             (bucket_at (buckets t))).
  now rewrite map_bucket_at, fold_left_concat.
Qed.

Lemma clear_loop_lookup bs n j :
  fold_left (fun b i => <[i := []]> b) (seq 0 n) bs !! j =
  if decide (j < n /\ j < length bs) then Some [] else bs !! j.
Proof.
  induction n as [|n IH].
  - cbn [seq fold_left]. destruct (decide (j < 0 /\ j < length bs)) as [[H _]|_]; [lia|reflexivity].
  - rewrite seq_S, fold_left_app. cbn [fold_left Nat.add].
    set (b' := fold_left _ (seq 0 n) bs) in *.
    assert (Hlen : length b' = length bs).
    { subst b'. clear IH. generalize (seq 0 n). intros l. revert bs.
      induction l as [|i l IHl]; intros bs; simpl; [reflexivity|].
      now rewrite IHl, length_insert. }
    destruct (decide (j = n)) as [->|Hne].
    + destruct (decide (n < length bs)) as [Hn|Hn].
      * rewrite list_lookup_insert_eq by lia.
        rewrite decide_True by lia. reflexivity.
      * rewrite list_insert_ge by lia. rewrite IH.
        rewrite decide_False by lia. rewrite decide_False by lia. reflexivity.
    + rewrite list_lookup_insert_ne by auto. rewrite IH.
      destruct (decide (j < n /\ j < length bs)),
               (decide (j < S n /\ j < length bs)); auto; lia.
Qed.

Lemma clear_loop bs :
  fold_left (fun b i => <[i := []]> b) (seq 0 (length bs)) bs =
  replicate (length bs) [].
Proof.
  apply list_eq. intros j. rewrite clear_loop_lookup.
  destruct (decide (j < length bs /\ j < length bs)) as [[H _]|H].
  - symmetry. now apply lookup_replicate_2.
  - rewrite lookup_ge_None_2 by lia. symmetry.
    apply lookup_replicate_None. lia.
Qed.

(** *** Counting chains *)

Local Abbreviation count_empty :=
  (fun (empty : nat) (c : list (HashEntry K)) =>
     match c with [] => S empty | _ :: _ => empty end).
Local Abbreviation longest :=
  (fun (max_length : nat) (c : list (HashEntry K)) =>
     if max_length <? length c then length c else max_length).

Lemma count_empty_acc bs e :
  fold_left count_empty bs e = e + fold_left count_empty bs 0.
Proof.
  revert e. induction bs as [|c bs IH]; intros e; simpl; [lia|].
  destruct c; rewrite IH; [rewrite (IH 1)|]; lia.
Qed.

Lemma longest_acc bs m :
  fold_left longest bs m = Nat.max m (fold_left longest bs 0).
Proof.
  revert m. induction bs as [|c bs IH]; intros m; simpl; [lia|].
  rewrite IH. rewrite (IH (if 0 <? length c then _ else _)).
  destruct (Nat.ltb_spec m (length c)), (Nat.ltb_spec 0 (length c)); lia.
Qed.

Lemma chain_statistics bs :
  let e := fold_left count_empty bs 0 in
  let m := fold_left longest bs 0 in
  e <= length bs /\ m <= length (concat bs) /\
  length (concat bs) <= (length bs - e) * m /\
  Forall (fun c => length c <= m) bs.
Proof.
  induction bs as [|c bs IH]; cbn zeta in *.
  - simpl. split_and!; auto.
  - destruct IH as (IH1 & IH2 & IH3 & IH4). cbn [fold_left concat length].
    rewrite count_empty_acc, longest_acc, length_app.
    set (e := fold_left count_empty bs 0) in *.
    set (m := fold_left longest bs 0) in *.
    assert (Hall : Forall (fun c0 => length c0 <=
                     Nat.max (if 0 <? length c then length c else 0) m) bs).
    { eapply Forall_impl; [exact IH4|]. simpl. intros. lia. }
    destruct c as [|x c]; simpl.
    + split_and!; try lia. constructor; [simpl; lia|exact Hall].
    + split_and!; try lia.
      * replace (S (length bs) - (0 + e)) with (S (length bs - e)) by lia.
        simpl. nia.
      * constructor; [simpl; lia|exact Hall].
Qed.

End BucketLoops.

(** ** Clearing and statistics *)

Section ClearAndStatistics.

Context {K : Type}.
Variable hf : HashFunction K.
Hypothesis Hlaw : LawfulPolicy hf.
Implicit Types (t : HashTable K) (k : K) (ops : list (table_op K)).

(** [clear] leaves the table as [init] makes it, with the capacity it has
    grown to: no entry, size 0, [NULL] for every key. *)
Theorem clear_is_init c ops :
  let t := run_ops c hf ops in
  hashtable_clear t = hashtable_init (capacity t) hf /\
  (forall k, hashtable_get (hashtable_clear t) k = NULL) /\
  hashtable_is_empty (hashtable_clear t) = true.
Proof.
  intros t. destruct (run_ops_wf hf Hlaw c ops) as [Hhf Hwf]. fold t in Hhf, Hwf.
  pose proof (wf_length t Hwf) as Hlen.
  destruct (load_invariant hf Hlaw c ops) as (Hcap & _). fold t in Hcap.
  assert (Heq : hashtable_clear t = hashtable_init (capacity t) hf).
  { unfold hashtable_clear, hashtable_init. rewrite <- Hlen at 1.
    rewrite clear_loop, Hlen, Hhf.
    unfold HASHTABLE_MIN_SIZE in *.
    destruct (Nat.ltb_spec (capacity t) 8); [lia|reflexivity]. }
  split_and!; auto.
  intros k. rewrite Heq. apply (init_get hf Hlaw).
Qed.

(** What the statistics report: no more empty buckets than buckets, no chain
    longer than [max_chain_length], and the entries fit in the non-empty
    buckets at that length. *)
Theorem table_statistics c ops :
  let t := run_ops c hf ops in
  hashtable_empty_buckets t <= capacity t /\
  hashtable_max_chain_length t <= size t /\
  size t <= (capacity t - hashtable_empty_buckets t) * hashtable_max_chain_length t /\
  (forall i chain, buckets t !! i = Some chain ->
     length chain <= hashtable_max_chain_length t).
Proof.
  intros t. destruct (run_ops_wf hf Hlaw c ops) as [_ Hwf]. fold t in Hwf.
  pose proof (wf_length t Hwf) as Hlen. pose proof (wf_size t Hwf) as Hsz.
  unfold hashtable_empty_buckets, hashtable_max_chain_length.
  rewrite <- Hlen.
  rewrite (fold_left_map_index
             (fun empty (c : list (HashEntry K)) =>
                match c with [] => S empty | _ :: _ => empty end)
             (bucket_at (buckets t))).
  rewrite (fold_left_map_index
             (fun max_length (c : list (HashEntry K)) =>
                if max_length <? length c then length c else max_length)
             (bucket_at (buckets t))).
  rewrite map_bucket_at, Hsz. unfold entries.
  destruct (chain_statistics (buckets t)) as (H1 & H2 & H3 & H4).
  split_and!; auto.
  intros i chain Hi. rewrite Forall_forall in H4. apply H4.
  apply list_elem_of_lookup. eauto.
Qed.

(** [is_empty] holds exactly when no key has an entry. *)
Theorem is_empty_no_entry c ops :
  let t := run_ops c hf ops in
  hashtable_is_empty t = true <-> forall k, has_entry t k = false.
Proof.
  intros t. destruct (run_ops_wf hf Hlaw c ops) as [Hhf Hwf]. fold t in Hhf, Hwf.
  pose proof (wf_size t Hwf) as Hsz. unfold hashtable_is_empty. rewrite Nat.eqb_eq, Hsz.
  unfold has_entry. rewrite Hhf. split.
  - intros H k. apply length_zero_iff_nil in H. now rewrite H.
  - intros H. destruct (entries t) as [|e L]; [reflexivity|].
    specialize (H (key e)). simpl in H.
    now rewrite (equals_refl hf Hlaw) in H.
Qed.

End ClearAndStatistics.

(** ** Sets *)

Section SetLaws.

Context {K : Type}.
Variable hf : HashFunction K.
Hypothesis Hlaw : LawfulPolicy hf.
Implicit Types (s r : HashTable K) (k : K) (L : list (HashEntry K)).

Lemma set_state_run c (ops : list (set_op K)) :
  set_state hf (run_set_ops c hf ops).
Proof. apply (set_invariant hf Hlaw c ops). Qed.

Lemma run_set_ops_as_table c (ops : list (set_op K)) :
  run_set_ops c hf ops = run_ops c hf (map table_op_of ops).
Proof.
  unfold run_set_ops, run_ops, hashset_init.
  generalize (hashtable_init c hf). induction ops as [|op ops IH]; intros t.
  - reflexivity.
  - simpl. rewrite <- IH. now destruct op.
Qed.

Lemma set_contains s k :
  set_state hf s -> hashset_contains s k = has_entry s k.
Proof.
  intros (_ & _ & Hget). unfold hashset_contains, hashtable_contains.
  rewrite Hget. now destruct (has_entry s k).
Qed.

Lemma set_contains_entries s k :
  set_state hf s ->
  hashset_contains s k = existsb (fun e => key_equals hf (key e) k) (entries s).
Proof.
  intros Hs. rewrite (set_contains s k Hs). destruct Hs as (Hhf & _).
  unfold has_entry. now rewrite Hhf.
Qed.

Lemma set_contains_equiv s k k' :
  set_state hf s -> key_equals hf k k' = true ->
  hashset_contains s k' = hashset_contains s k.
Proof.
  intros Hs Hk. rewrite !(set_contains _ _ Hs). destruct Hs as (Hhf & _).
  apply has_entry_equiv; now rewrite Hhf.
Qed.

Lemma set_add_spec s k :
  set_state hf s ->
  let s' := fst (hashset_add s k) in
  set_state hf s' /\
  (forall k', hashset_contains s' k' = key_equals hf k k' || hashset_contains s k') /\
  size s' = (if hashset_contains s k then size s else S (size s)) /\
  capacity s' = (if load_exceeded s
                 then capacity s * HASHTABLE_GROWTH_FACTOR else capacity s).
Proof.
  intros Hs s'. pose proof Hs as (Hhf & Hwf & Hget).
  assert (Hl : LawfulPolicy (hash_func s)) by now rewrite Hhf.
  destruct (put_spec s k HASHSET_DUMMY_VALUE Hl Hwf)
    as (Hwf' & Hhf' & _ & Hcap & Hsz & Hget' & Hhas').
  destruct (grow_spec s Hl Hwf) as (_ & _ & _ & _ & Hg).
  change (fst (hashtable_put s k HASHSET_DUMMY_VALUE)) with s' in *.
  rewrite Hhf in Hget', Hhas'.
  assert (Hs' : set_state hf s').
  { split_and!; auto; [congruence|]. intros k'.
    rewrite Hget', Hhas', Hget. now destruct (key_equals hf k k'). }
  split_and!; auto.
  - intros k'. rewrite (set_contains s' k' Hs'), (set_contains s k' Hs). apply Hhas'.
  - now rewrite (set_contains s k Hs).
  - congruence.
Qed.

Lemma set_remove_spec s k :
  set_state hf s ->
  let s' := fst (hashset_remove s k) in
  set_state hf s' /\
  (forall k', hashset_contains s' k' =
              negb (key_equals hf k k') && hashset_contains s k') /\
  size s' = (if hashset_contains s k then size s - 1 else size s) /\
  snd (hashset_remove s k) = hashset_contains s k /\
  capacity s' = capacity s.
Proof.
  intros Hs s'. pose proof Hs as (Hhf & Hwf & Hget).
  assert (Hl : LawfulPolicy (hash_func s)) by now rewrite Hhf.
  unfold hashset_remove in *.
  destruct (remove_spec s k Hl Hwf) as (Hwf' & Hhf' & Hret & Hcap & Hsz & Hget' & Hhas').
  fold s' in Hwf', Hhf', Hcap, Hsz, Hget', Hhas'. rewrite Hhf in Hget', Hhas'.
  assert (Hs' : set_state hf s').
  { split_and!; auto; [congruence|]. intros k'.
    rewrite Hget', Hhas', Hget. now destruct (key_equals hf k k'). }
  split_and!; auto.
  - intros k'. rewrite (set_contains s' k' Hs'), (set_contains s k' Hs). apply Hhas'.
  - now rewrite (set_contains s k Hs).
  - now rewrite (set_contains s k Hs).
Qed.

(** The loop bodies of the set operations: entries that pass [keep] are
    added to the result. *)
Lemma add_entries_spec (keep : HashEntry K -> bool) L :
  forall r, set_state hf r ->
    let r' := fold_left (fun r e => if keep e then fst (hashset_add r (key e)) else r)
                        L r in
    set_state hf r' /\
    forall k, hashset_contains r' k =
              hashset_contains r k ||
              existsb (fun e => keep e && key_equals hf (key e) k) L.
Proof.
  induction L as [|e L IH]; intros r Hr; simpl.
  - split; auto. intros k. now rewrite orb_false_r.
  - destruct (keep e) eqn:Hk.
    + destruct (set_add_spec r (key e) Hr) as (Hr' & Hc & _).
      destruct (IH _ Hr') as (H1 & H2). split; auto.
      intros k. rewrite H2, Hc. simpl.
      now destruct (key_equals hf (key e) k), (hashset_contains r k).
    + destruct (IH _ Hr) as (H1 & H2). split; auto.
Qed.


Lemma set_contains_keys s k :
  set_state hf s ->
  hashset_contains s k = existsb (key_equals hf k) (map key (entries s)).
Proof.
  intros Hs. rewrite (set_contains_entries s k Hs).
  induction (entries s) as [|e L IH]; simpl; [reflexivity|].
  now rewrite IH, (equals_sym hf Hlaw).
Qed.

Lemma set_contains_entry s e :
  set_state hf s -> In e (entries s) -> hashset_contains s (key e) = true.
Proof.
  intros Hs Hin. rewrite (set_contains_entries s _ Hs).
  apply existsb_exists. exists e. split; auto. apply (equals_refl hf Hlaw).
Qed.

Lemma set_contains_witness s k :
  set_state hf s -> hashset_contains s k = true ->
  exists e, In e (entries s) /\ key_equals hf (key e) k = true.
Proof.
  intros Hs Hc. rewrite (set_contains_entries s _ Hs) in Hc.
  apply existsb_exists in Hc. exact Hc.
Qed.

Lemma for_each_set {A : Type} s (body : A -> HashEntry K -> A) a :
  set_state hf s -> for_each_entry s body a = fold_left body (entries s) a.
Proof. intros (_ & Hwf & _). apply for_each_entry_entries. apply Hwf. Qed.

(** Membership after a loop that adds the entries passing [keep], when
    [keep] does not tell equal keys apart. *)
Lemma add_entries_members (keep : K -> bool) s r :
  set_state hf s -> set_state hf r ->
  (forall k k', key_equals hf k k' = true -> keep k' = keep k) ->
  let r' := for_each_entry s
              (fun r e => if keep (key e) then fst (hashset_add r (key e)) else r) r in
  set_state hf r' /\
  forall k, hashset_contains r' k =
            hashset_contains r k || (keep k && hashset_contains s k).
Proof.
  intros Hs Hr Hkeep r'. subst r'. rewrite (for_each_set s _ r Hs).
  destruct (add_entries_spec (fun e => keep (key e)) (entries s) r Hr) as (H1 & H2).
  split; auto. intros k. rewrite H2. f_equal.
  rewrite (set_contains_entries s k Hs). clear H1 H2.
  induction (entries s) as [|e L IH]; simpl.
  - now rewrite andb_false_r.
  - rewrite IH. destruct (key_equals hf (key e) k) eqn:He; simpl.
    + rewrite (Hkeep _ _ He). now destruct (keep (key e)).
    + now rewrite andb_false_r.
Qed.

(** [hashset_union]: the result gains the members of both sets. *)
Theorem union_members s1 s2 r :
  set_state hf s1 -> set_state hf s2 -> set_state hf r ->
  let u := hashset_union s1 s2 r in
  set_state hf u /\
  forall k, hashset_contains u k =
            hashset_contains r k || hashset_contains s1 k || hashset_contains s2 k.
Proof.
  intros H1 H2 Hr u. subst u. unfold hashset_union.
  destruct (add_entries_members (fun _ => true) s1 r H1 Hr) as (Hr1 & Hc1); [auto|].
  cbv beta iota in Hr1, Hc1.
  destruct (add_entries_members (fun _ => true) s2 _ H2 Hr1) as (Hr2 & Hc2); [auto|].
  cbv beta iota in Hr2, Hc2. cbv zeta.
  split; auto. intros k. rewrite Hc2, Hc1. reflexivity.
Qed.

(** [hashset_intersection]: whichever operand the loop runs over, the result
    gains the keys that are members of both. *)
Theorem intersection_members s1 s2 r :
  set_state hf s1 -> set_state hf s2 -> set_state hf r ->
  let u := hashset_intersection s1 s2 r in
  set_state hf u /\
  forall k, hashset_contains u k =
            hashset_contains r k || (hashset_contains s1 k && hashset_contains s2 k).
Proof.
  intros H1 H2 Hr u. subst u. unfold hashset_intersection.
  destruct (hashset_size s1 <=? hashset_size s2).
  - destruct (add_entries_members (hashset_contains s2) s1 r H1 Hr) as (Hr1 & Hc1).
    { intros k k' Hk. now apply set_contains_equiv. }
    cbv zeta. split; auto. intros k. rewrite Hc1.
    now rewrite (andb_comm (hashset_contains s2 k)).
  - destruct (add_entries_members (hashset_contains s1) s2 r H2 Hr) as (Hr1 & Hc1).
    { intros k k' Hk. now apply set_contains_equiv. }
    cbv zeta. split; auto.
Qed.

(** [hashset_difference]: the result gains the members of the first set that
    are not members of the second. *)
Theorem difference_members s1 s2 r :
  set_state hf s1 -> set_state hf s2 -> set_state hf r ->
  let u := hashset_difference s1 s2 r in
  set_state hf u /\
  forall k, hashset_contains u k =
            hashset_contains r k ||
            (hashset_contains s1 k && negb (hashset_contains s2 k)).
Proof.
  intros H1 H2 Hr u. subst u. unfold hashset_difference.
  destruct (add_entries_members (fun k => negb (hashset_contains s2 k)) s1 r H1 Hr)
    as (Hr1 & Hc1).
  { intros k k' Hk. f_equal. now apply set_contains_equiv. }
  cbv zeta. split; auto. intros k. rewrite Hc1.
  now rewrite (andb_comm (negb _)).
Qed.

(** *** Inclusion and equality *)

(** Distinct keys that all have an equal among the keys of a second list
    are no more than the keys of that list. *)
Lemma distinct_keys_length (K1 : list K) :
  forall K2, distinct_keys hf K1 -> distinct_keys hf K2 ->
    (forall x, In x K1 -> existsb (key_equals hf x) K2 = true) ->
    length K1 <= length K2.
Proof.
  induction K1 as [|x K1 IH]; intros K2 Hd1 Hd2 Hall; simpl; [lia|].
  destruct Hd1 as [Hx Hd1].
  destruct (live_remove hf Hlaw K2 x Hd2) as (Hd' & Hlen & Hex).
  rewrite (Hall x) in Hlen by now left.
  assert (Hpos : 0 < length K2).
  { specialize (Hall x (or_introl eq_refl)). destruct K2; [discriminate|simpl; lia]. }
  assert (length K1 <= length (List.filter (fun y => negb (key_equals hf x y)) K2)).
  { apply IH; auto. intros z Hz. rewrite Hex, (Hall z) by now right.
    rewrite Forall_forall in Hx. rewrite (Hx z); auto.
    now apply list_elem_of_In. }
  lia.
Qed.

Lemma subset_loops s1 s2 :
  set_state hf s1 ->
  forallb (fun i => forallb (fun entry => hashset_contains s2 (key entry))
                            (bucket_at (buckets s1) i))
          (seq 0 (capacity s1))
  = forallb (fun entry => hashset_contains s2 (key entry)) (entries s1).
Proof.
  intros (_ & Hwf & _). rewrite <- (wf_length _ Hwf). unfold entries.
  transitivity (forallb (fun entry => hashset_contains s2 (key entry))
                  (concat (map (bucket_at (buckets s1))
                               (seq 0 (length (buckets s1)))))).
  - induction (seq 0 (length (buckets s1))) as [|i l IH]; simpl; [reflexivity|].
    now rewrite forallb_app, IH.
  - now rewrite map_bucket_at.
Qed.

Lemma included_size s1 s2 :
  set_state hf s1 -> set_state hf s2 ->
  (forall k, hashset_contains s1 k = true -> hashset_contains s2 k = true) ->
  size s1 <= size s2.
Proof.
  intros H1 H2 Hinc. pose proof H1 as (Hf1 & Hwf1 & _). pose proof H2 as (Hf2 & Hwf2 & _).
  rewrite (wf_size _ Hwf1), (wf_size _ Hwf2).
  rewrite <- (length_map key (entries s1)), <- (length_map key (entries s2)).
  pose proof (wf_distinct _ Hwf1) as Hd1. pose proof (wf_distinct _ Hwf2) as Hd2.
  rewrite Hf1 in Hd1. rewrite Hf2 in Hd2.
  apply distinct_keys_length; auto.
  intros x Hx. rewrite <- (set_contains_keys s2 x H2). apply Hinc.
  apply in_map_iff in Hx as (e & <- & He). now apply set_contains_entry.
Qed.

Lemma subset_loops_members s1 s2 :
  set_state hf s1 -> set_state hf s2 ->
  forallb (fun entry => hashset_contains s2 (key entry)) (entries s1) = true <->
  forall k, hashset_contains s1 k = true -> hashset_contains s2 k = true.
Proof.
  intros H1 H2. rewrite forallb_forall. split.
  - intros Hall k Hk.
    destruct (set_contains_witness s1 k H1 Hk) as (e & He & Hek).
    rewrite (set_contains_equiv s2 _ _ H2 Hek). now apply Hall.
  - intros Hinc e He. apply Hinc. now apply set_contains_entry.
Qed.

(** [hashset_is_subset] answers whether every member of the first set is a
    member of the second. *)
Theorem is_subset_members s1 s2 :
  set_state hf s1 -> set_state hf s2 ->
  hashset_is_subset s1 s2 = true <->
  forall k, hashset_contains s1 k = true -> hashset_contains s2 k = true.
Proof.
  intros H1 H2. unfold hashset_is_subset, hashset_size, hashtable_size.
  rewrite (subset_loops s1 s2 H1). split.
  - destruct (size s2 <? size s1); [discriminate|].
    apply (subset_loops_members s1 s2 H1 H2).
  - intros Hinc. pose proof (included_size s1 s2 H1 H2 Hinc) as Hsz.
    destruct (Nat.ltb_spec (size s2) (size s1)); [lia|].
    now apply (subset_loops_members s1 s2 H1 H2).
Qed.

(** A set with as many members as a set that includes it has the same
    members. *)
Lemma included_same_size s1 s2 :
  set_state hf s1 -> set_state hf s2 ->
  (forall k, hashset_contains s1 k = true -> hashset_contains s2 k = true) ->
  size s1 = size s2 ->
  forall k, hashset_contains s1 k = hashset_contains s2 k.
Proof.
  intros H1 H2 Hinc Hsz k.
  destruct (hashset_contains s1 k) eqn:Hc1; [symmetry; now apply Hinc|].
  destruct (hashset_contains s2 k) eqn:Hc2; [exfalso|reflexivity].
  destruct (set_remove_spec s2 k H2) as (H2' & Hc' & Hsz' & _).
  rewrite Hc2 in Hsz'.
  assert (Hle : size s1 <= size (fst (hashset_remove s2 k))).
  { apply included_size; auto. intros k' Hk'. rewrite Hc', (Hinc k' Hk').
    destruct (key_equals hf k k') eqn:Hkk; [|reflexivity].
    rewrite (set_contains_equiv s1 _ _ H1 Hkk) in Hk'. congruence. }
  assert (0 < size s2).
  { pose proof H2 as (_ & Hwf2 & _). rewrite (wf_size _ Hwf2).
    destruct (set_contains_witness s2 k H2 Hc2) as (e & He & _).
    destruct (entries s2); [destruct He|simpl; lia]. }
  lia.
Qed.

(** [hashset_equals] answers whether the two sets have the same members. *)
Theorem equals_members s1 s2 :
  set_state hf s1 -> set_state hf s2 ->
  hashset_equals s1 s2 = true <->
  forall k, hashset_contains s1 k = hashset_contains s2 k.
Proof.
  intros H1 H2.
  unfold hashset_equals, hashset_is_subset, hashset_size, hashtable_size.
  rewrite (subset_loops s1 s2 H1). split.
  - intros Heq. apply andb_true_iff in Heq as [Hsz Hsub].
    apply Nat.eqb_eq in Hsz.
    destruct (Nat.ltb_spec (size s2) (size s1)); [discriminate|].
    apply included_same_size; auto.
    now apply (subset_loops_members s1 s2 H1 H2).
  - intros Hsame.
    assert (Hsz : size s1 = size s2).
    { apply Nat.le_antisymm; apply included_size; auto;
        intros k Hk; [rewrite <- Hsame|rewrite Hsame]; exact Hk. }
    apply andb_true_iff. split; [now apply Nat.eqb_eq|].
    destruct (Nat.ltb_spec (size s2) (size s1)); [lia|].
    apply (subset_loops_members s1 s2 H1 H2). intros k Hk. now rewrite <- Hsame.
Qed.

(** *** Copies *)

(** Adding entries with distinct keys, none of them a member yet, to a set
    with room for them: no resize, one more member per entry. *)
Lemma add_fresh_entries L :
  forall r, set_state hf r -> distinct_keys hf (map key L) ->
    (forall e, In e L -> hashset_contains r (key e) = false) ->
    LOAD_DEN * (size r + length L) < LOAD_NUM * capacity r + LOAD_DEN ->
    let r' := fold_left (fun d entry => fst (hashset_add d (key entry))) L r in
    size r' = size r + length L /\ capacity r' = capacity r.
Proof.
  unfold LOAD_DEN, LOAD_NUM.
  induction L as [|e L IH]; intros r Hr Hd Hfresh Hroom;
    cbn [fold_left length] in *.
  - split; lia.
  - simpl in Hd. destruct Hd as [He Hd].
    destruct (set_add_spec r (key e) Hr) as (Hr' & Hc & Hsz & Hcap).
    rewrite (Hfresh e) in Hsz by now left.
    assert (Hload : load_exceeded r = false).
    { unfold load_exceeded, LOAD_DEN, LOAD_NUM. apply Nat.leb_gt. lia. }
    rewrite Hload in Hcap.
    destruct (IH _ Hr' Hd) as (IH1 & IH2).
    + intros e' He'. rewrite Hc, (Hfresh e') by now right.
      rewrite Forall_forall in He. rewrite (He (key e')); auto.
      apply list_elem_of_In. now apply in_map.
    + rewrite Hsz, Hcap. lia.
    + rewrite IH1, IH2, Hsz, Hcap. split; lia.
Qed.

(** [hashset_copy] of a set made by adding and removing: the copy has the
    members, the size and the capacity of the source, and [hashset_equals]
    says so. *)
Theorem copy_same_set c (ops : list (set_op K)) :
  let source := run_set_ops c hf ops in
  let dest := hashset_copy source in
  set_state hf dest /\
  (forall k, hashset_contains dest k = hashset_contains source k) /\
  hashset_size dest = hashset_size source /\
  capacity dest = capacity source /\
  hashset_equals source dest = true.
Proof.
  intros source dest.
  pose proof (set_state_run c ops) as Hs. fold source in Hs.
  pose proof Hs as (Hhf & Hwf & _).
  destruct (load_invariant hf Hlaw c (map table_op_of ops)) as (Hmin & Hload & _).
  rewrite <- run_set_ops_as_table in Hmin, Hload. fold source in Hmin, Hload.
  assert (Hinit : set_state hf (hashset_init (capacity source) hf)).
  { apply (set_state_run (capacity source) []). }
  assert (Hcap0 : capacity (hashset_init (capacity source) hf) = capacity source).
  { unfold hashset_init, hashtable_init. cbn [capacity].
    destruct (Nat.ltb_spec (capacity source) HASHTABLE_MIN_SIZE); [lia|reflexivity]. }
  assert (Hmem0 : forall k, hashset_contains (hashset_init (capacity source) hf) k = false).
  { intros k. rewrite (set_contains _ k Hinit). apply init_has_entry. }
  assert (Hdest : dest = fold_left (fun d entry => fst (hashset_add d (key entry)))
                                   (entries source)
                                   (hashset_init (capacity source) hf)).
  { unfold dest, hashset_copy. rewrite Hhf. apply (for_each_set source _ _ Hs). }
  destruct (add_entries_spec (fun _ => true) (entries source) _ Hinit) as (Hd & Hc).
  cbv beta iota zeta in Hd, Hc. rewrite <- Hdest in Hd, Hc.
  assert (Hsame : forall k, hashset_contains dest k = hashset_contains source k).
  { intros k. rewrite Hc, Hmem0, (set_contains_entries source k Hs). reflexivity. }
  destruct (add_fresh_entries (entries source) _ Hinit) as (Hsz & Hcap).
  { rewrite <- Hhf. apply (wf_distinct _ Hwf). }
  { intros e _. apply Hmem0. }
  { rewrite Hcap0. change (size (hashset_init (capacity source) hf)) with 0.
    rewrite <- (wf_size _ Hwf). unfold LOAD_DEN, LOAD_NUM in *. lia. }
  cbv zeta in Hsz, Hcap. rewrite <- Hdest in Hsz, Hcap.
  change (size (hashset_init (capacity source) hf)) with 0 in Hsz.
  split_and!; auto.
  - unfold hashset_size, hashtable_size. rewrite Hsz, (wf_size _ Hwf). reflexivity.
  - congruence.
  - unfold hashset_equals, hashset_is_subset, hashset_size, hashtable_size.
    rewrite (subset_loops source dest Hs).
    assert (Hsz' : size source = size dest).
    { rewrite Hsz, (wf_size _ Hwf). reflexivity. }
    apply andb_true_iff. split; [now apply Nat.eqb_eq|].
    destruct (Nat.ltb_spec (size dest) (size source)); [lia|].
    apply (subset_loops_members source dest Hs Hd). intros k Hk. now rewrite Hsame.
Qed.

(** Adding a key and removing it again: [hashset_add] reports whether the
    key was new, [hashset_remove] then finds it, and the set is left with
    the members it had apart from that key. *)
Theorem add_remove_round_trip s k :
  set_state hf s ->
  let added := hashset_add s k in
  let removed := hashset_remove (fst added) k in
  snd added = negb (hashset_contains s k) /\
  hashset_contains (fst added) k = true /\
  snd removed = true /\
  (forall k', hashset_contains (fst removed) k' =
              negb (key_equals hf k k') && hashset_contains s k') /\
  hashset_size (fst removed) =
    (if hashset_contains s k then hashset_size s - 1 else hashset_size s).
Proof.
  intros Hs added removed.
  destruct (set_add_spec s k Hs) as (Ha & Hca & Hsa & _). fold added in Ha, Hca, Hsa.
  destruct (set_remove_spec (fst added) k Ha) as (Hr & Hcr & Hsr & Hret & _).
  fold removed in Hr, Hcr, Hsr, Hret.
  assert (Hk : hashset_contains (fst added) k = true).
  { rewrite Hca, (equals_refl hf Hlaw). reflexivity. }
  rewrite Hk in Hsr, Hret.
  split_and!; auto.
  - intros k'. rewrite Hcr, Hca. now destruct (key_equals hf k k').
  - unfold hashset_size, hashtable_size. rewrite Hsr, Hsa.
    destruct (hashset_contains s k); lia.
Qed.

End SetLaws.

(** ** Examples with the built-in policies *)

Section MoreExamples.

#[local] Open Scope Z_scope.
#[local] Open Scope string_scope.

(** Both built-in policies meet the contract of the table. *)
Theorem builtin_policies_lawful :
  LawfulPolicy INT_HASH_FUNC /\ LawfulPolicy STRING_HASH_FUNC.
Proof. split; [exact INT_HASH_FUNC_lawful|exact STRING_HASH_FUNC_lawful]. Qed.

Lemma table_invariants_witness :
  LawfulPolicy INT_HASH_FUNC /\
  let t := run_ops 3 INT_HASH_FUNC [Put 1 10; Put 2 20; Remove 1] in
  length (buckets t) = capacity t /\ (HASHTABLE_MIN_SIZE <= capacity t)%nat /\
  size t = length (entries t) /\
  distinct_keys INT_HASH_FUNC (map key (entries t)).
Proof.
  split; [exact INT_HASH_FUNC_lawful|].
  pose proof (table_invariants INT_HASH_FUNC INT_HASH_FUNC_lawful 3
                [Put 1 10; Put 2 20; Remove 1]) as H.
  cbv zeta in *. destruct H as (_ & H1 & H2 & H3 & _ & H4).
  split_and!; assumption.
Defined.

Lemma put_remove_get_witness :
  LawfulPolicy STRING_HASH_FUNC /\
  let t := run_ops 16 STRING_HASH_FUNC [Put "apple" 1; Put "banana" 2] in
  hashtable_get (fst (hashtable_put t "apple" 3)) "banana" = hashtable_get t "banana" /\
  hashtable_get (fst (hashtable_remove t "apple")) "apple" = NULL.
Proof.
  split; [exact STRING_HASH_FUNC_lawful|].
  pose proof (put_remove_get STRING_HASH_FUNC STRING_HASH_FUNC_lawful 16
                [Put "apple" 1; Put "banana" 2] "apple" 3 "banana") as H.
  pose proof (put_remove_get STRING_HASH_FUNC STRING_HASH_FUNC_lawful 16
                [Put "apple" 1; Put "banana" 2] "apple" 3 "apple") as H'.
  cbv zeta in *. destruct H as (H1 & _). destruct H' as (_ & H2 & _).
  split; [exact H1|exact H2].
Defined.


Lemma resize_preserves_lookups_witness :
  LawfulPolicy INT_HASH_FUNC /\ (0 < 5)%nat /\
  let t := run_ops 8 INT_HASH_FUNC [Put 1 10; Put 2 20; Put 9 30] in
  hashtable_get (hashtable_resize t 5) 9 = hashtable_get t 9.
Proof.
  split; [exact INT_HASH_FUNC_lawful|]. split; [lia|].
  pose proof (resize_preserves_lookups INT_HASH_FUNC INT_HASH_FUNC_lawful 8
                [Put 1 10; Put 2 20; Put 9 30] 5 9 ltac:(lia)) as H.
  cbv zeta in *. destruct H as (H1 & _). exact H1.
Defined.

Lemma clear_is_init_witness :
  LawfulPolicy INT_HASH_FUNC /\
  let t := run_ops 8 INT_HASH_FUNC [Put 1 10; Put 2 20] in
  hashtable_clear t = hashtable_init (capacity t) INT_HASH_FUNC /\
  hashtable_get (hashtable_clear t) 1 = NULL.
Proof.
  split; [exact INT_HASH_FUNC_lawful|].
  pose proof (clear_is_init INT_HASH_FUNC INT_HASH_FUNC_lawful 8
                [Put 1 10; Put 2 20]) as H.
  cbv zeta in *. destruct H as (H1 & H2 & _). split; [exact H1|apply H2].
Defined.

Lemma table_statistics_witness :
  LawfulPolicy INT_HASH_FUNC /\
  let t := run_ops 8 INT_HASH_FUNC [Put 1 10; Put 2 20; Put 9 30] in
  (hashtable_empty_buckets t <= capacity t)%nat /\
  (hashtable_max_chain_length t <= size t)%nat /\
  (size t <= (capacity t - hashtable_empty_buckets t) * hashtable_max_chain_length t)%nat.
Proof.
  split; [exact INT_HASH_FUNC_lawful|].
  pose proof (table_statistics INT_HASH_FUNC INT_HASH_FUNC_lawful 8
                [Put 1 10; Put 2 20; Put 9 30]) as H.
  cbv zeta in *. destruct H as (H1 & H2 & H3 & _). split_and!; assumption.
Defined.

Lemma is_empty_no_entry_witness :
  LawfulPolicy INT_HASH_FUNC /\
  let t := run_ops 8 INT_HASH_FUNC [Put 1 10; Remove 1] in
  hashtable_is_empty t = true /\ forall k, has_entry t k = false.
Proof.
  split; [exact INT_HASH_FUNC_lawful|].
  pose proof (is_empty_no_entry INT_HASH_FUNC INT_HASH_FUNC_lawful 8
                [Put 1 10; Remove 1]) as H.
  cbv zeta in *. split; [reflexivity|]. apply (proj1 H). reflexivity.
Defined.

Lemma union_members_witness :
  let s1 := run_set_ops 8 INT_HASH_FUNC [Add 1; Add 2] in
  let s2 := run_set_ops 8 INT_HASH_FUNC [Add 2; Add 3] in
  let r := hashset_init 8 INT_HASH_FUNC in
  LawfulPolicy INT_HASH_FUNC /\
  set_state INT_HASH_FUNC s1 /\ set_state INT_HASH_FUNC s2 /\
  set_state INT_HASH_FUNC r /\
  forall k, hashset_contains (hashset_union s1 s2 r) k =
            hashset_contains r k || hashset_contains s1 k || hashset_contains s2 k.
Proof.
  intros s1 s2 r.
  pose proof INT_HASH_FUNC_lawful as Hlaw.
  pose proof (set_state_run INT_HASH_FUNC Hlaw 8 [Add 1; Add 2]) as H1.
  pose proof (set_state_run INT_HASH_FUNC Hlaw 8 [Add 2; Add 3]) as H2.
  pose proof (set_state_run INT_HASH_FUNC Hlaw 8 []) as Hr.
  split_and!; auto.
  exact (proj2 (union_members INT_HASH_FUNC Hlaw s1 s2 r H1 H2 Hr)).
Defined.

Lemma intersection_members_witness :
  let s1 := run_set_ops 8 INT_HASH_FUNC [Add 1; Add 2] in
  let s2 := run_set_ops 8 INT_HASH_FUNC [Add 2; Add 3; Add 4] in
  let r := hashset_init 8 INT_HASH_FUNC in
  LawfulPolicy INT_HASH_FUNC /\
  set_state INT_HASH_FUNC s1 /\ set_state INT_HASH_FUNC s2 /\
  set_state INT_HASH_FUNC r /\
  forall k, hashset_contains (hashset_intersection s1 s2 r) k =
            hashset_contains r k || (hashset_contains s1 k && hashset_contains s2 k).
Proof.
  intros s1 s2 r.
  pose proof INT_HASH_FUNC_lawful as Hlaw.
  pose proof (set_state_run INT_HASH_FUNC Hlaw 8 [Add 1; Add 2]) as H1.
  pose proof (set_state_run INT_HASH_FUNC Hlaw 8 [Add 2; Add 3; Add 4]) as H2.
  pose proof (set_state_run INT_HASH_FUNC Hlaw 8 []) as Hr.
  split_and!; auto.
  exact (proj2 (intersection_members INT_HASH_FUNC Hlaw s1 s2 r H1 H2 Hr)).
Defined.

Lemma difference_members_witness :
  let s1 := run_set_ops 8 INT_HASH_FUNC [Add 1; Add 2] in
  let s2 := run_set_ops 8 INT_HASH_FUNC [Add 2; Add 3] in
  let r := hashset_init 8 INT_HASH_FUNC in
  LawfulPolicy INT_HASH_FUNC /\
  set_state INT_HASH_FUNC s1 /\ set_state INT_HASH_FUNC s2 /\
  set_state INT_HASH_FUNC r /\
  forall k, hashset_contains (hashset_difference s1 s2 r) k =
            hashset_contains r k ||
            (hashset_contains s1 k && negb (hashset_contains s2 k)).
Proof.
  intros s1 s2 r.
  pose proof INT_HASH_FUNC_lawful as Hlaw.
  pose proof (set_state_run INT_HASH_FUNC Hlaw 8 [Add 1; Add 2]) as H1.
  pose proof (set_state_run INT_HASH_FUNC Hlaw 8 [Add 2; Add 3]) as H2.
  pose proof (set_state_run INT_HASH_FUNC Hlaw 8 []) as Hr.
  split_and!; auto.
  exact (proj2 (difference_members INT_HASH_FUNC Hlaw s1 s2 r H1 H2 Hr)).
Defined.

Lemma is_subset_members_witness :
  let s1 := run_set_ops 8 INT_HASH_FUNC [Add 2] in
  let s2 := run_set_ops 8 INT_HASH_FUNC [Add 2; Add 3] in
  LawfulPolicy INT_HASH_FUNC /\
  set_state INT_HASH_FUNC s1 /\ set_state INT_HASH_FUNC s2 /\
  hashset_is_subset s1 s2 = true /\
  forall k, hashset_contains s1 k = true -> hashset_contains s2 k = true.
Proof.
  intros s1 s2.
  pose proof INT_HASH_FUNC_lawful as Hlaw.
  pose proof (set_state_run INT_HASH_FUNC Hlaw 8 [Add 2]) as H1.
  pose proof (set_state_run INT_HASH_FUNC Hlaw 8 [Add 2; Add 3]) as H2.
  split_and!; auto.
  apply (proj1 (is_subset_members INT_HASH_FUNC Hlaw s1 s2 H1 H2)). reflexivity.
Defined.

Lemma equals_members_witness :
  let s1 := run_set_ops 8 INT_HASH_FUNC [Add 2; Add 3] in
  let s2 := run_set_ops 16 INT_HASH_FUNC [Add 3; Add 2; Add 5; Discard 5] in
  LawfulPolicy INT_HASH_FUNC /\
  set_state INT_HASH_FUNC s1 /\ set_state INT_HASH_FUNC s2 /\
  hashset_equals s1 s2 = true /\
  forall k, hashset_contains s1 k = hashset_contains s2 k.
Proof.
  intros s1 s2.
  pose proof INT_HASH_FUNC_lawful as Hlaw.
  pose proof (set_state_run INT_HASH_FUNC Hlaw 8 [Add 2; Add 3]) as H1.
  pose proof (set_state_run INT_HASH_FUNC Hlaw 16
                [Add 3; Add 2; Add 5; Discard 5]) as H2.
  split_and!; auto.
  apply (proj1 (equals_members INT_HASH_FUNC Hlaw s1 s2 H1 H2)). reflexivity.
Defined.

Lemma copy_same_set_witness :
  LawfulPolicy STRING_HASH_FUNC /\
  let source := run_set_ops 16 STRING_HASH_FUNC [Add "a"; Add "b"; Discard "a"] in
  hashset_size (hashset_copy source) = hashset_size source /\
  hashset_equals source (hashset_copy source) = true.
Proof.
  split; [exact STRING_HASH_FUNC_lawful|].
  pose proof (copy_same_set STRING_HASH_FUNC STRING_HASH_FUNC_lawful 16
                [Add "a"; Add "b"; Discard "a"]) as H.
  cbv zeta in *. destruct H as (_ & _ & H1 & _ & H2). split; [exact H1|exact H2].
Defined.

Lemma add_remove_round_trip_witness :
  let s := run_set_ops 8 INT_HASH_FUNC [Add 1; Add 2] in
  LawfulPolicy INT_HASH_FUNC /\ set_state INT_HASH_FUNC s /\
  snd (hashset_add s 7) = negb (hashset_contains s 7) /\
  hashset_size (fst (hashset_remove (fst (hashset_add s 7)) 7)) = hashset_size s.
Proof.
  intros s.
  pose proof INT_HASH_FUNC_lawful as Hlaw.
  pose proof (set_state_run INT_HASH_FUNC Hlaw 8 [Add 1; Add 2]) as Hs.
  split; [exact Hlaw|]. split; [exact Hs|].
  destruct (add_remove_round_trip INT_HASH_FUNC Hlaw s 7 Hs) as (H1 & _ & _ & _ & H2).
  split; [exact H1|exact H2].
Defined.

End MoreExamples.

End HashFacts.

(** * Properties of the binary heap *)

Module HeapFacts.

Import DynArray Heap.

(** ** Indices of the implicit tree *)

Lemma parent_cases j :
  0 < j -> j = 2 * HEAP_PARENT j + 1 \/ j = 2 * HEAP_PARENT j + 2.
Proof.
  intros Hj. unfold HEAP_PARENT.
  pose proof (Nat.div_mod_eq (j - 1) 2) as H1.
  pose proof (Nat.mod_upper_bound (j - 1) 2) as H2. lia.
Qed.

Lemma parent_left i : HEAP_PARENT (HEAP_LEFT_CHILD i) = i.
Proof.
  unfold HEAP_LEFT_CHILD.
  destruct (parent_cases (2 * i + 1)) as [H|H]; lia.
Qed.

Lemma parent_right i : HEAP_PARENT (HEAP_RIGHT_CHILD i) = i.
Proof.
  unfold HEAP_RIGHT_CHILD.
  destruct (parent_cases (2 * i + 2)) as [H|H]; lia.
Qed.

Lemma parent_lt j : 0 < j -> HEAP_PARENT j < j.
Proof. intros Hj. destruct (parent_cases j Hj); lia. Qed.

Lemma child_cases i j :
  0 < j -> HEAP_PARENT j = i -> j = HEAP_LEFT_CHILD i \/ j = HEAP_RIGHT_CHILD i.
Proof.
  intros Hj <-. unfold HEAP_LEFT_CHILD, HEAP_RIGHT_CHILD.
  destruct (parent_cases j Hj); lia.
Qed.

(** ** Exchanging two cells *)

Section Swap.

Context {E : Type}.
Implicit Types (d : list E).

Lemma swap_lookup d i j a b k :
  d !! i = Some a -> d !! j = Some b ->
  binary_heap_swap d i j !! k =
  if decide (k = j) then Some a else if decide (k = i) then Some b else d !! k.
Proof.
  intros Hi Hj. unfold binary_heap_swap, dynarray_get, dynarray_set.
  rewrite Hi, Hj.
  pose proof (lookup_lt_Some _ _ _ Hi). pose proof (lookup_lt_Some _ _ _ Hj).
  destruct (decide (k = j)) as [->|Hkj].
  - rewrite list_lookup_insert_eq; [reflexivity|now rewrite length_insert].
  - rewrite list_lookup_insert_ne by auto.
    destruct (decide (k = i)) as [->|Hki].
    + now rewrite list_lookup_insert_eq.
    + now rewrite list_lookup_insert_ne.
Qed.

Lemma swap_length d i j : length (binary_heap_swap d i j) = length d.
Proof.
  unfold binary_heap_swap, dynarray_get, dynarray_set.
  destruct (d !! i), (d !! j); auto. now rewrite !length_insert.
Qed.

Lemma insert_perm d j x b :
  d !! j = Some b -> Permutation (b :: <[j := x]> d) (x :: d).
Proof.
  revert j. induction d as [|y d IH]; intros [|j]; simpl; try discriminate.
  - intros [= ->]. apply perm_swap.
  - intros Hj. rewrite perm_swap, (IH j Hj). apply perm_swap.
Qed.

Lemma swap_perm d i j : Permutation (binary_heap_swap d i j) d.
Proof.
  unfold binary_heap_swap, dynarray_get, dynarray_set.
  destruct (d !! i) as [a|] eqn:Hi; [|reflexivity].
  destruct (d !! j) as [b|] eqn:Hj; [|reflexivity].
  destruct (decide (i = j)) as [->|Hne].
  - assert (a = b) as -> by congruence.
    rewrite (list_insert_id d j b Hj). now rewrite (list_insert_id d j b Hj).
  - apply (Permutation_cons_inv (a := b)).
    rewrite (insert_perm (<[i := b]> d) j a b)
      by (now rewrite list_lookup_insert_ne).
    now apply insert_perm.
Qed.

End Swap.

(** ** The loops terminate, whatever the comparator *)

Section Termination.

Context {E : Type}.
Variable cmp : heap_compare_fn E.

Implicit Types (d : list E).

Lemma compare_at_in_range d i j :
  i < length d -> j < length d -> is_Some (compare_at cmp d i j).
Proof.
  intros Hi Hj. unfold compare_at, dynarray_get.
  destruct (lookup_lt_is_Some_2 d i Hi) as [a ->].
  destruct (lookup_lt_is_Some_2 d j Hj) as [b ->]. eauto.
Qed.

Lemma heapify_up_loop_total fuel :
  forall d i, i <= fuel -> i < length d ->
    is_Some (heapify_up_loop fuel cmp d i).
Proof.
  induction fuel as [|fuel IH]; intros d i Hfuel Hi.
  - assert (i = 0) as -> by lia. simpl. eauto.
  - simpl. destruct (Nat.eqb_spec i 0) as [->|Hi0]; [eauto|].
    pose proof (parent_lt i ltac:(lia)) as Hp.
    destruct (compare_at_in_range d i (HEAP_PARENT i) Hi ltac:(lia)) as [c ->].
    destruct (0 <=? c)%Z; [eauto|].
    apply IH; [lia|]. rewrite swap_length. lia.
Qed.

Lemma down_target_total d i :
  exists t, down_target cmp d i = Some t /\ (t = i \/ i < t < length d).
Proof.
  unfold down_target, dynarray_size, HEAP_LEFT_CHILD, HEAP_RIGHT_CHILD.
  destruct (Nat.ltb_spec (2 * i + 1) (length d)) as [Hl|Hl].
  - destruct (compare_at_in_range d (2 * i + 1) i Hl ltac:(lia)) as [c ->].
    destruct (Nat.ltb_spec (2 * i + 2) (length d)) as [Hr|Hr].
    + destruct (c <? 0)%Z.
      * destruct (compare_at_in_range d (2 * i + 2) (2 * i + 1) Hr Hl) as [c' ->].
        destruct (c' <? 0)%Z; eexists; split; eauto; lia.
      * destruct (compare_at_in_range d (2 * i + 2) i Hr ltac:(lia)) as [c' ->].
        destruct (c' <? 0)%Z; eexists; split; eauto; lia.
    + destruct (c <? 0)%Z; eexists; split; eauto; lia.
  - destruct (Nat.ltb_spec (2 * i + 2) (length d)) as [Hr|Hr]; [lia|].
    eexists; split; eauto.
Qed.

Lemma heapify_down_loop_total fuel :
  forall d i, length d - i < fuel -> is_Some (heapify_down_loop fuel cmp d i).
Proof.
  induction fuel as [|fuel IH]; intros d i Hfuel; [lia|]. simpl.
  destruct (down_target_total d i) as (t & -> & Ht).
  destruct (Nat.eqb_spec t i) as [->|Hne]; [eauto|].
  apply IH. rewrite swap_length. lia.
Qed.

End Termination.

(** [heapify_up] and [heapify_down] as the operations call them. *)
Lemma binary_heap_heapify_up_total {E : Type} (heap : BinaryHeap E) i :
  i < dynarray_size (data heap) ->
  is_Some (heapify_up_loop i (compare heap) (data heap) i).
Proof. intros Hi. now apply heapify_up_loop_total. Qed.

Lemma binary_heap_heapify_down_total {E : Type} (heap : BinaryHeap E) i :
  is_Some (heapify_down_loop (S (dynarray_size (data heap))) (compare heap)
             (data heap) i).
Proof. apply heapify_down_loop_total. unfold dynarray_size. lia. Qed.

(** ** Comparators *)

Section Order.

Context {E : Type}.
Variable P : E -> Prop.
Variable cmp : heap_compare_fn E.
Hypothesis Hcmp : TotalPreorderOn P cmp.

Lemma precedes_refl a : P a -> precedes cmp a a.
Proof.
  intros Ha. unfold precedes.
  pose proof (cmp_flip P cmp Hcmp a a Ha Ha). lia.
Qed.

Lemma precedes_trans a b c :
  P a -> P b -> P c -> precedes cmp a b -> precedes cmp b c -> precedes cmp a c.
Proof. intros Ha Hb Hc. apply (cmp_trans P cmp Hcmp); assumption. Qed.

(** The test [compare(a, b) < 0] fails: [b] is not after [a]. *)
Lemma not_before a b : P a -> P b -> (0 <= cmp a b)%Z -> precedes cmp b a.
Proof.
  intros Ha Hb H. unfold precedes.
  pose proof (cmp_flip P cmp Hcmp a b Ha Hb). lia.
Qed.

Lemma before a b : (cmp a b < 0)%Z -> precedes cmp a b.
Proof. unfold precedes. lia. Qed.

(** The test [compare(a, b) > 0] of [is_valid] fails exactly when [a] is not
    after [b]. *)
Lemma not_after a b : precedes cmp a b <-> (0 <? cmp a b)%Z = false.
Proof. unfold precedes. rewrite Z.ltb_ge. reflexivity. Qed.

End Order.

(** ** Sifting down *)

Section SiftDown.

Context {E : Type}.
Variable P : E -> Prop.
Variable cmp : heap_compare_fn E.
Hypothesis Hcmp : TotalPreorderOn P cmp.

Implicit Types (d : list E).

Lemma compare_at_some d i j a b :
  d !! i = Some a -> d !! j = Some b -> compare_at cmp d i j = Some (cmp a b).
Proof. intros Hi Hj. unfold compare_at, dynarray_get. now rewrite Hi, Hj. Qed.

Lemma down_target_out d i : length d <= i -> down_target cmp d i = Some i.
Proof.
  intros Hi. unfold down_target, dynarray_size, HEAP_LEFT_CHILD, HEAP_RIGHT_CHILD.
  destruct (Nat.ltb_spec (2 * i + 1) (length d)); [lia|].
  destruct (Nat.ltb_spec (2 * i + 2) (length d)); [lia|]. reflexivity.
Qed.

(** The cell chosen by one turn of the loop holds an element that is not
    after the element at [i] nor after either child of [i]. *)
Lemma down_target_spec d i x :
  Forall P d -> d !! i = Some x ->
  exists t y, down_target cmp d i = Some t /\ d !! t = Some y /\
    (t = i \/ t = HEAP_LEFT_CHILD i \/ t = HEAP_RIGHT_CHILD i) /\
    precedes cmp y x /\
    (forall c z, c = HEAP_LEFT_CHILD i \/ c = HEAP_RIGHT_CHILD i ->
       d !! c = Some z -> precedes cmp y z).
Proof.
  intros HP Hx. pose proof (Forall_lookup_1 _ _ _ _ HP Hx) as Px.
  unfold down_target, dynarray_size.
  set (l := HEAP_LEFT_CHILD i). set (r := HEAP_RIGHT_CHILD i).
  assert (Hlr : r = S l) by (unfold l, r, HEAP_LEFT_CHILD, HEAP_RIGHT_CHILD; lia).
  destruct (Nat.ltb_spec l (length d)) as [Hl|Hl].
  - destruct (lookup_lt_is_Some_2 d l Hl) as [xl Hxl].
    pose proof (Forall_lookup_1 _ _ _ _ HP Hxl) as Pl.
    rewrite (compare_at_some d l i xl x Hxl Hx).
    destruct (Z.ltb_spec (cmp xl x) 0) as [Hc1|Hc1];
      (destruct (Nat.ltb_spec r (length d)) as [Hr|Hr];
       [destruct (lookup_lt_is_Some_2 d r Hr) as [xr Hxr];
        pose proof (Forall_lookup_1 _ _ _ _ HP Hxr) as Pr|]).
    + rewrite (compare_at_some d r l xr xl Hxr Hxl).
      destruct (Z.ltb_spec (cmp xr xl) 0) as [Hc2|Hc2].
      * exists r, xr. split_and!; auto.
        -- apply (precedes_trans P cmp Hcmp xr xl x); auto using before.
        -- intros c z [->| ->] Hz; fold l r in Hz.
           ++ assert (z = xl) as -> by congruence. now apply before.
           ++ assert (z = xr) as -> by congruence.
              now apply (precedes_refl P cmp Hcmp).
      * exists l, xl. split_and!; auto using before.
        intros c z [->| ->] Hz; fold l r in Hz.
        -- assert (z = xl) as -> by congruence.
           now apply (precedes_refl P cmp Hcmp).
        -- assert (z = xr) as -> by congruence.
           now apply (not_before P cmp Hcmp).
    + exists l, xl. split_and!; auto using before.
      intros c z [->| ->] Hz; fold l r in Hz.
      * assert (z = xl) as -> by congruence.
        now apply (precedes_refl P cmp Hcmp).
      * apply lookup_lt_Some in Hz. lia.
    + rewrite (compare_at_some d r i xr x Hxr Hx).
      destruct (Z.ltb_spec (cmp xr x) 0) as [Hc2|Hc2].
      * exists r, xr. split_and!; auto using before.
        intros c z [->| ->] Hz; fold l r in Hz.
        -- assert (z = xl) as -> by congruence.
           apply (precedes_trans P cmp Hcmp xr x xl); auto using before.
           now apply (not_before P cmp Hcmp).
        -- assert (z = xr) as -> by congruence.
           now apply (precedes_refl P cmp Hcmp).
      * exists i, x. split_and!; auto.
        -- now apply (precedes_refl P cmp Hcmp).
        -- intros c z [->| ->] Hz; fold l r in Hz.
           ++ assert (z = xl) as -> by congruence.
              now apply (not_before P cmp Hcmp).
           ++ assert (z = xr) as -> by congruence.
              now apply (not_before P cmp Hcmp).
    + exists i, x. split_and!; auto.
      * now apply (precedes_refl P cmp Hcmp).
      * intros c z [->| ->] Hz; fold l r in Hz.
        -- assert (z = xl) as -> by congruence.
           now apply (not_before P cmp Hcmp).
        -- apply lookup_lt_Some in Hz. lia.
  - destruct (Nat.ltb_spec r (length d)) as [Hr|Hr]; [lia|].
    exists i, x. split_and!; auto.
    + now apply (precedes_refl P cmp Hcmp).
    + intros c z [->| ->] Hz; fold l r in Hz; apply lookup_lt_Some in Hz; lia.
Qed.

(** The loop of [heapify_down] ends within the turns it is given and
    restores the order below [k]. *)
Lemma heapify_down_loop_spec fuel :
  forall d i k,
    length d - i < fuel -> k <= i -> Forall P d -> down_inv cmp k i d ->
    exists d', heapify_down_loop fuel cmp d i = Some d' /\
               heap_from cmp k d' /\ Permutation d' d.
Proof.
  induction fuel as [|fuel IH]; intros d i k Hfuel Hk HP [Hinv1 Hinv2]; [lia|].
  simpl.
  destruct (d !! i) as [x|] eqn:Hx.
  2:{ apply lookup_ge_None in Hx. rewrite (down_target_out d i Hx).
      rewrite Nat.eqb_refl. exists d. split_and!; auto.
      intros j xj yj Hj Hkj Hxj Hyj.
      destruct (decide (HEAP_PARENT j = i)) as [Hpi|Hpi]; [|eauto].
      rewrite Hpi in Hyj. apply lookup_lt_Some in Hyj. lia. }
  destruct (down_target_spec d i x HP Hx) as (t & y & -> & Hy & Ht & Hyx & Hch).
  destruct (Nat.eqb_spec t i) as [->|Hne].
  - exists d. split_and!; auto.
    assert (y = x) as -> by congruence.
    intros j xj yj Hj Hkj Hxj Hyj.
    destruct (decide (HEAP_PARENT j = i)) as [Hpi|Hpi]; [|eauto].
    rewrite Hpi in Hyj. assert (yj = x) as -> by congruence.
    apply (Hch j xj); auto. now apply child_cases.
  - assert (Hpt : HEAP_PARENT t = i).
    { destruct Ht as [?|[->| ->]]; [congruence|apply parent_left|apply parent_right]. }
    assert (Hti : i < t).
    { destruct Ht as [?|[->| ->]]; [congruence| |];
        unfold HEAP_LEFT_CHILD, HEAP_RIGHT_CHILD; lia. }
    pose proof (lookup_lt_Some _ _ _ Hy) as Htlen.
    pose proof (swap_perm d i t) as Hperm.
    pose proof (swap_lookup d i t x y) as Hsw. specialize (fun k => Hsw k Hx Hy).
    destruct (IH (binary_heap_swap d i t) t k) as (d' & Hd' & Hheap & Hp').
    + rewrite swap_length. lia.
    + lia.
    + now rewrite Hperm.
    + split.
      * intros j xj yj Hj Hkj Hpj. rewrite !Hsw.
        pose proof (parent_lt j Hj) as Hplt.
        destruct (decide (j = t)) as [->|Hjt].
        -- rewrite Hpt. destruct (decide (i = t)); [lia|].
           rewrite decide_True by reflexivity.
           intros [= <-] [= <-]. exact Hyx.
        -- destruct (decide (HEAP_PARENT j = t)); [congruence|].
           destruct (decide (j = i)) as [->|Hji].
           ++ destruct (decide (HEAP_PARENT i = i)); [lia|].
              intros [= <-] Hw. apply (Hinv2 ltac:(lia) Hkj t y yj); auto. lia.
           ++ destruct (decide (HEAP_PARENT j = i)) as [Hpi|Hpi].
              ** intros Hxj [= <-]. apply (Hch j xj); auto. now apply child_cases.
              ** intros Hxj Hyj. eauto.
      * intros _ Hkt j xj yj Hj Hpj. rewrite Hpt, !Hsw.
        pose proof (parent_lt j Hj) as Hplt.
        destruct (decide (j = t)); [lia|]. destruct (decide (j = i)); [lia|].
        destruct (decide (i = t)); [lia|]. rewrite decide_True by reflexivity.
        intros Hxj [= <-]. apply (Hinv1 j xj y); auto; try lia; congruence.
    + exists d'. split_and!; auto. now rewrite Hp'.
Qed.

(** [heapify_down] on a heap never falls into the branch without result. *)
Lemma heapify_down_spec (heap : BinaryHeap E) i k :
  compare heap = cmp -> k <= i -> Forall P (data heap) ->
  down_inv cmp k i (data heap) ->
  let heap' := binary_heap_heapify_down heap i in
  compare heap' = cmp /\ heap_from cmp k (data heap') /\
  Permutation (data heap') (data heap).
Proof.
  intros Hc Hk HP Hinv heap'. subst heap'. unfold binary_heap_heapify_down.
  rewrite Hc.
  destruct (heapify_down_loop_spec (S (dynarray_size (data heap))) (data heap) i k)
    as (d' & -> & H1 & H2); auto.
  unfold dynarray_size. lia.
Qed.

End SiftDown.

(** ** Sifting up *)

Section SiftUp.

Context {E : Type}.
Variable P : E -> Prop.
Variable cmp : heap_compare_fn E.
Hypothesis Hcmp : TotalPreorderOn P cmp.

Implicit Types (d : list E).

(** The loop of [heapify_up] ends within [index] turns and restores the
    order. *)
Lemma heapify_up_loop_spec fuel :
  forall d i,
    i <= fuel -> i < length d -> Forall P d -> up_inv cmp i d ->
    exists d', heapify_up_loop fuel cmp d i = Some d' /\
               heap_ordered cmp d' /\ Permutation d' d.
Proof.
  induction fuel as [|fuel IH]; intros d i Hfuel Hi HP [Hinv1 Hinv2].
  - assert (i = 0) as -> by lia. simpl. exists d. split_and!; auto.
    intros j xj yj Hj _ Hxj Hyj. apply (Hinv1 j xj yj); auto. lia.
  - simpl. destruct (Nat.eqb_spec i 0) as [->|Hi0].
    { exists d. split_and!; auto.
      intros j xj yj Hj _ Hxj Hyj. apply (Hinv1 j xj yj); auto. lia. }
    pose proof (parent_lt i ltac:(lia)) as Hplt.
    set (p := HEAP_PARENT i) in *.
    destruct (lookup_lt_is_Some_2 d i Hi) as [x Hx].
    destruct (lookup_lt_is_Some_2 d p ltac:(lia)) as [y Hy].
    pose proof (Forall_lookup_1 _ _ _ _ HP Hx) as Px.
    pose proof (Forall_lookup_1 _ _ _ _ HP Hy) as Py.
    rewrite (compare_at_some cmp d i p x y Hx Hy).
    destruct (Z.leb_spec 0 (cmp x y)) as [Hc|Hc].
    + exists d. split_and!; auto.
      intros j xj yj Hj _ Hxj Hyj.
      destruct (decide (j = i)) as [->|Hji]; [|eauto].
      fold p in Hyj. assert (xj = x) as -> by congruence.
      assert (yj = y) as -> by congruence.
      now apply (not_before P cmp Hcmp).
    + pose proof (swap_perm d i p) as Hperm.
      pose proof (swap_lookup d i p x y) as Hsw. specialize (fun k => Hsw k Hx Hy).
      destruct (IH (binary_heap_swap d i p) p) as (d' & Hd' & Hheap & Hp').
      * lia.
      * rewrite swap_length. lia.
      * now rewrite Hperm.
      * split.
        -- intros j xj yj Hj Hjp. rewrite !Hsw.
           pose proof (parent_lt j Hj) as Hjlt.
           destruct (decide (j = p)); [congruence|].
           destruct (decide (j = i)) as [->|Hji].
           ++ fold p. rewrite decide_True by reflexivity.
              intros [= <-] [= <-]. now apply before.
           ++ destruct (decide (HEAP_PARENT j = p)) as [Hpp|Hpp].
              ** intros Hxj [= <-].
                 pose proof (Forall_lookup_1 _ _ _ _ HP Hxj) as Pj.
                 apply (precedes_trans P cmp Hcmp x y xj); auto using before.
                 apply (Hinv1 j xj y); auto. now rewrite Hpp.
              ** destruct (decide (HEAP_PARENT j = i)) as [Hpi|Hpi].
                 --- intros Hxj [= <-]. apply (Hinv2 ltac:(lia) j xj y); auto.
                 --- intros Hxj Hyj. eauto.
        -- intros Hp0 j xj yj Hj Hpj. rewrite !Hsw.
           pose proof (parent_lt p Hp0) as Hpplt.
           destruct (decide (j = p)); [subst j; lia|].
           destruct (decide (HEAP_PARENT p = p)); [lia|].
           destruct (decide (HEAP_PARENT p = i)); [lia|].
           assert (Hyw : forall w, d !! HEAP_PARENT p = Some w -> precedes cmp w y).
           { intros w Hw. apply (Hinv1 p y w); auto. lia. }
           destruct (decide (j = i)) as [->|Hji].
           ++ intros [= <-] Hw. now apply Hyw.
           ++ intros Hxj Hw.
              pose proof (Forall_lookup_1 _ _ _ _ HP Hxj) as Pj.
              pose proof (Forall_lookup_1 _ _ _ _ HP Hw) as Pw.
              apply (precedes_trans P cmp Hcmp yj y xj); auto.
              apply (Hinv1 j xj y); auto. now rewrite Hpj.
      * exists d'. split_and!; auto. now rewrite Hp'.
Qed.

End SiftUp.

(** ** The operations keep the heap order *)

Section Operations.

Context {E : Type}.
Variable P : E -> Prop.
Variable cmp : heap_compare_fn E.
Hypothesis Hcmp : TotalPreorderOn P cmp.

Implicit Types (d : list E) (heap : BinaryHeap E).

Lemma heapify_up_spec heap i :
  compare heap = cmp -> i < length (data heap) -> Forall P (data heap) ->
  up_inv cmp i (data heap) ->
  let heap' := binary_heap_heapify_up heap i in
  compare heap' = cmp /\ heap_ordered cmp (data heap') /\
  Permutation (data heap') (data heap).
Proof.
  intros Hc Hi HP Hinv heap'. subst heap'. unfold binary_heap_heapify_up.
  rewrite Hc.
  destruct (heapify_up_loop_spec P cmp Hcmp i (data heap) i)
    as (d' & -> & H1 & H2); auto.
Qed.

Lemma push_spec heap x :
  compare heap = cmp -> Forall P (data heap) -> P x ->
  heap_ordered cmp (data heap) ->
  let heap' := binary_heap_push heap x in
  compare heap' = cmp /\ heap_ordered cmp (data heap') /\
  Permutation (data heap') (x :: data heap).
Proof.
  intros Hc HP Px Hord heap'. subst heap'. unfold binary_heap_push.
  set (h1 := with_data heap (dynarray_push (data heap) x)).
  assert (Hd1 : data h1 = data heap ++ [x]) by reflexivity.
  destruct (heapify_up_spec h1 (dynarray_size (data h1) - 1)) as (H1 & H2 & H3).
  - exact Hc.
  - unfold dynarray_size. rewrite Hd1, length_app. simpl. lia.
  - rewrite Hd1. apply Forall_app. auto.
  - unfold dynarray_size. rewrite Hd1, length_app. simpl.
    replace (length (data heap) + 1 - 1) with (length (data heap)) by lia.
    split.
    + intros j xj yj Hj Hne Hxj Hyj.
      pose proof (parent_lt j Hj) as Hlt.
      pose proof (lookup_lt_Some _ _ _ Hxj) as Hjl.
      rewrite length_app in Hjl. simpl in Hjl.
      rewrite lookup_app_l in Hxj, Hyj by lia.
      apply (Hord j xj yj); auto. lia.
    + intros _ j xj yj Hj Hpj Hxj _.
      pose proof (lookup_lt_Some _ _ _ Hxj) as Hjl.
      rewrite length_app in Hjl. simpl in Hjl.
      destruct (parent_cases j Hj); lia.
  - split_and!; auto. rewrite H3, Hd1.
    rewrite Permutation_app_comm. reflexivity.
Qed.

(** The root of a heap is not after any of its elements. *)
Lemma root_min d r :
  Forall P d -> heap_ordered cmp d -> d !! 0 = Some r ->
  forall j x, d !! j = Some x -> precedes cmp r x.
Proof.
  intros HP Hord Hr j. induction j as [j IH] using lt_wf_ind. intros x Hx.
  pose proof (Forall_lookup_1 _ _ _ _ HP Hr) as Pr.
  pose proof (Forall_lookup_1 _ _ _ _ HP Hx) as Px.
  destruct (decide (j = 0)) as [->|Hj].
  - assert (x = r) as -> by congruence. now apply (precedes_refl P cmp Hcmp).
  - pose proof (parent_lt j ltac:(lia)) as Hlt.
    pose proof (lookup_lt_Some _ _ _ Hx) as Hjl.
    destruct (lookup_lt_is_Some_2 d (HEAP_PARENT j) ltac:(lia)) as [y Hy].
    pose proof (Forall_lookup_1 _ _ _ _ HP Hy) as Py.
    apply (precedes_trans P cmp Hcmp r y x); auto.
    + apply (IH (HEAP_PARENT j)); auto.
    + apply (Hord j x y); auto; lia.
Qed.

(** Overwriting the root leaves the order intact below it. *)
Lemma set_root_down_inv d x :
  heap_ordered cmp d -> down_inv cmp 0 0 (dynarray_set d 0 x).
Proof.
  intros Hord. split; [|lia].
  intros j xj yj Hj _ Hp0. unfold dynarray_set.
  rewrite !list_lookup_insert_ne by lia. intros Hxj Hyj.
  apply (Hord j xj yj); auto. lia.
Qed.

Lemma heap_ordered_take d n : heap_ordered cmp d -> heap_ordered cmp (take n d).
Proof.
  intros Hord j xj yj Hj _ Hxj Hyj.
  apply lookup_take_Some in Hxj as [Hxj _]. apply lookup_take_Some in Hyj as [Hyj _].
  apply (Hord j xj yj); auto. lia.
Qed.

Lemma pop_spec heap :
  compare heap = cmp -> Forall P (data heap) -> heap_ordered cmp (data heap) ->
  data heap <> [] ->
  exists root heap',
    binary_heap_pop heap = (heap', Some root) /\
    data heap !! 0 = Some root /\
    compare heap' = cmp /\ heap_ordered cmp (data heap') /\
    Permutation (data heap) (root :: data heap') /\
    Forall (precedes cmp root) (data heap').
Proof.
  intros Hc HP Hord Hne.
  destruct (data heap) as [|root rest] eqn:Hd; [congruence|]. clear Hne.
  assert (Hmin : forall heap', Permutation (root :: rest) (root :: data heap') ->
                               Forall (precedes cmp root) (data heap')).
  { intros heap' Hperm. apply Forall_forall. intros x Hx.
    assert (Hin : x ∈ root :: rest) by (rewrite Hperm; now right).
    apply list_elem_of_lookup in Hin as [j Hj].
    apply (root_min (root :: rest) root HP Hord eq_refl j x Hj). }
  unfold binary_heap_pop, dynarray_size, dynarray_get. rewrite Hd.
  cbn [length Nat.eqb lookup list_lookup].
  destruct rest as [|x1 rest'] eqn:Hrest.
  - exists root, (with_data heap []). cbn. split_and!; auto.
    intros j xj yj _ _ Hxj. discriminate.
  - rewrite <- Hrest in *. assert (Hlen : 0 < length rest) by (subst rest; simpl; lia).
    assert (Hsz : (length rest =? 0) = false) by (apply Nat.eqb_neq; lia).
    cbn [Nat.eqb]. rewrite Hsz. unfold dynarray_pop. cbn [length].
    destruct (lookup_lt_is_Some_2 (root :: rest) (length rest)) as [last Hlast];
      [simpl; lia|].
    rewrite Hlast.
    set (h1 := with_data heap (dynarray_set (take (length rest) (root :: rest)) 0 last)).
    assert (Hperm1 : Permutation (root :: rest) (root :: data h1)).
    { unfold h1. cbn [data with_data]. unfold dynarray_set.
      rewrite (insert_perm (take (length rest) (root :: rest)) 0 last root).
      2:{ rewrite lookup_take_lt by lia. reflexivity. }
      rewrite <- (take_ge (root :: rest) (S (length rest))) at 1 by (simpl; lia).
      rewrite (take_S_r _ _ _ Hlast). rewrite Permutation_app_comm. reflexivity. }
    destruct (heapify_down_spec P cmp Hcmp h1 0 0) as (H1 & H2 & H3); auto.
    + apply Permutation_cons_inv in Hperm1. rewrite <- Hperm1.
      now apply Forall_cons in HP as [_ HP].
    + unfold h1. cbn [data with_data]. apply set_root_down_inv.
      now apply heap_ordered_take.
    + exists root, (binary_heap_heapify_down h1 0).
      assert (Hperm : Permutation (root :: rest)
                        (root :: data (binary_heap_heapify_down h1 0))).
      { rewrite Hperm1. now rewrite H3. }
      split_and!; auto.
Qed.

End Operations.

Section MoreOperations.

Context {E : Type}.
Variable P : E -> Prop.
Variable cmp : heap_compare_fn E.
Hypothesis Hcmp : TotalPreorderOn P cmp.

Implicit Types (d : list E) (heap : BinaryHeap E).

Lemma pop_empty heap : data heap = [] -> binary_heap_pop heap = (heap, None).
Proof. intros Hd. unfold binary_heap_pop. now rewrite Hd. Qed.

Lemma replace_spec heap x :
  compare heap = cmp -> Forall P (data heap) -> P x ->
  heap_ordered cmp (data heap) ->
  let heap' := fst (binary_heap_replace heap x) in
  compare heap' = cmp /\ heap_ordered cmp (data heap') /\
  Permutation (data heap') (x :: tail (data heap)) /\
  snd (binary_heap_replace heap x) = head (data heap).
Proof.
  intros Hc HP Px Hord heap'. subst heap'.
  unfold binary_heap_replace, dynarray_size, dynarray_get.
  destruct (data heap) as [|root rest] eqn:Hd.
  - cbn [length Nat.eqb fst snd].
    destruct (push_spec P cmp Hcmp heap x) as (H1 & H2 & H3);
      try (rewrite Hd); auto.
    rewrite Hd in H3. split_and!; auto.
  - cbn [length Nat.eqb fst snd lookup list_lookup tail head].
    set (h1 := with_data heap (dynarray_set (root :: rest) 0 x)).
    destruct (heapify_down_spec P cmp Hcmp h1 0 0) as (H1 & H2 & H3); auto.
    + unfold h1. cbn. apply Forall_cons in HP as [_ HP]. now constructor.
    + unfold h1. cbn [data with_data]. now apply set_root_down_inv.
Qed.

(** *** Bulk loading *)

Lemma push_all_cells d (elements : list E) :
  fold_left dynarray_push elements d = d ++ elements.
Proof.
  revert d. induction elements as [|x els IH]; intros d; simpl.
  - now rewrite app_nil_r.
  - rewrite IH. unfold dynarray_push. now rewrite <- app_assoc.
Qed.

Lemma build_loop_spec i :
  forall heap,
    compare heap = cmp -> Forall P (data heap) -> heap_from cmp i (data heap) ->
    let heap' := build_loop i heap in
    compare heap' = cmp /\ heap_ordered cmp (data heap') /\
    Permutation (data heap') (data heap).
Proof.
  induction i as [|i IH]; intros heap Hc HP Hfrom; simpl.
  - split_and!; auto.
  - destruct (heapify_down_spec P cmp Hcmp heap i i) as (H1 & H2 & H3); auto.
    { split.
      - intros j xj yj Hj Hk Hne. apply Hfrom; auto. lia.
      - intros Hi Hk. pose proof (parent_lt i Hi). lia. }
    destruct (IH (binary_heap_heapify_down heap i)) as (G1 & G2 & G3); auto.
    { now rewrite H3. }
    split_and!; auto. now rewrite G3.
Qed.

Lemma parent_mono j m : j <= m -> HEAP_PARENT j <= HEAP_PARENT m.
Proof.
  intros Hjm. destruct (decide (j = 0)) as [->|Hj]; [unfold HEAP_PARENT; simpl; lia|].
  destruct (parent_cases j ltac:(lia)), (parent_cases m ltac:(lia)); lia.
Qed.

Lemma build_spec heap (elements : list E) :
  compare heap = cmp -> Forall P elements ->
  let heap' := binary_heap_build_from_array heap elements in
  compare heap' = cmp /\ heap_ordered cmp (data heap') /\
  Permutation (data heap') elements.
Proof.
  intros Hc HP heap'. subst heap'. unfold binary_heap_build_from_array.
  cbn [data with_data]. unfold dynarray_clear. rewrite push_all_cells. simpl.
  destruct (Nat.ltb_spec 1 (length elements)) as [Hlen|Hlen].
  - apply build_loop_spec; auto.
    cbn [data]. intros j xj yj Hj Hk Hxj _.
    apply lookup_lt_Some in Hxj.
    cbn [data with_data] in Hxj.
    assert (Hjm : j <= length elements - 1) by lia.
    pose proof (parent_mono j (length elements - 1) Hjm). lia.
  - split_and!; auto. cbn [data]. intros j xj yj Hj _ Hxj _.
    apply lookup_lt_Some in Hxj. cbn [data with_data] in Hxj. lia.
Qed.

(** *** The validity check *)

Lemma is_valid_ordered heap :
  binary_heap_is_valid heap = true <-> heap_ordered (compare heap) (data heap).
Proof.
  unfold binary_heap_is_valid, dynarray_size. rewrite forallb_forall.
  set (d := data heap). set (c := compare heap). split.
  - intros Hall j xj yj Hj _ Hxj Hyj.
    pose proof (lookup_lt_Some _ _ _ Hxj) as Hjl.
    assert (Hin : In (HEAP_PARENT j) (seq 0 (length d / 2))).
    { apply in_seq. split; [lia|].
      pose proof (Nat.div_mod_eq (length d) 2) as Hdm.
      pose proof (Nat.mod_upper_bound (length d) 2 ltac:(lia)) as Hmod.
      destruct (parent_cases j Hj); lia. }
    specialize (Hall _ Hin). unfold valid_at, dynarray_size in Hall.
    apply andb_prop in Hall as [Hl Hr]. fold d in Hl, Hr.
    destruct (child_cases (HEAP_PARENT j) j Hj eq_refl) as [Hjc|Hjc].
    + rewrite <- Hjc in Hl. apply Nat.ltb_lt in Hjl. rewrite Hjl in Hl.
      rewrite (compare_at_some c d _ _ yj xj Hyj Hxj) in Hl.
      apply negb_true_iff in Hl. now apply not_after.
    + rewrite <- Hjc in Hr. apply Nat.ltb_lt in Hjl. rewrite Hjl in Hr.
      rewrite (compare_at_some c d _ _ yj xj Hyj Hxj) in Hr.
      apply negb_true_iff in Hr. now apply not_after.
  - intros Hord i Hi. apply in_seq in Hi as [_ Hi].
    assert (Hil : i < length d).
    { pose proof (Nat.div_mod_eq (length d) 2) as Hdm. lia. }
    destruct (lookup_lt_is_Some_2 d i Hil) as [y Hy].
    unfold valid_at, dynarray_size. fold d.
    apply andb_true_intro. split.
    + destruct (Nat.ltb_spec (HEAP_LEFT_CHILD i) (length d)) as [Hl|Hl]; [|reflexivity].
      destruct (lookup_lt_is_Some_2 d _ Hl) as [x Hx].
      rewrite (compare_at_some c d _ _ y x Hy Hx). apply negb_true_iff, not_after.
      apply (Hord (HEAP_LEFT_CHILD i) x y); auto.
      * unfold HEAP_LEFT_CHILD. lia.
      * lia.
      * now rewrite parent_left.
    + destruct (Nat.ltb_spec (HEAP_RIGHT_CHILD i) (length d)) as [Hl|Hl]; [|reflexivity].
      destruct (lookup_lt_is_Some_2 d _ Hl) as [x Hx].
      rewrite (compare_at_some c d _ _ y x Hy Hx). apply negb_true_iff, not_after.
      apply (Hord (HEAP_RIGHT_CHILD i) x y); auto.
      * unfold HEAP_RIGHT_CHILD. lia.
      * lia.
      * now rewrite parent_right.
Qed.

End MoreOperations.

(** ** Draining *)

Section Drain.

Context {E : Type}.
Variable P : E -> Prop.
Variable cmp : heap_compare_fn E.
Hypothesis Hcmp : TotalPreorderOn P cmp.

Implicit Types (d : list E) (heap : BinaryHeap E).

(** As many [pop]s as the heap has elements return them all, none of them
    [NULL], each not after the next ones, and empty the heap. *)
Lemma pop_n_spec n :
  forall heap,
    compare heap = cmp -> Forall P (data heap) ->
    heap_ordered cmp (data heap) -> length (data heap) = n ->
    exists out heap',
      pop_n n heap = (heap', map Some out) /\ data heap' = [] /\
      Permutation out (data heap) /\ StronglySorted (precedes cmp) out.
Proof.
  induction n as [|n IH]; intros heap Hc HP Hord Hlen.
  - exists [], heap. simpl. split_and!; auto.
    + now apply length_zero_iff_nil.
    + apply length_zero_iff_nil in Hlen. now rewrite Hlen.
    + constructor.
  - destruct (pop_spec P cmp Hcmp heap Hc HP Hord) as
      (root & h1 & Hpop & _ & Hc1 & Hord1 & Hperm & Hmin).
    { intros Hnil. rewrite Hnil in Hlen. discriminate. }
    assert (HP1 : Forall P (data h1)).
    { rewrite Hperm in HP. now apply Forall_cons in HP as [_ HP]. }
    destruct (IH h1 Hc1 HP1 Hord1) as (out & h2 & Hn & Hnil & Hp2 & Hs2).
    { apply Permutation_length in Hperm. simpl in Hperm. lia. }
    exists (root :: out), h2. simpl. rewrite Hpop, Hn. split_and!; auto.
    + now rewrite Hperm, Hp2.
    + constructor; auto. now rewrite Hp2.
Qed.

Lemma drain_spec heap :
  compare heap = cmp -> Forall P (data heap) -> heap_ordered cmp (data heap) ->
  exists out,
    drain heap = map Some out /\
    Permutation out (data heap) /\ StronglySorted (precedes cmp) out.
Proof.
  intros Hc HP Hord. unfold drain, binary_heap_size, dynarray_size.
  destruct (pop_n_spec (length (data heap)) heap Hc HP Hord eq_refl)
    as (out & h' & -> & _ & H1 & H2).
  exists out. auto.
Qed.

(** *** Sorted arrangements of the same elements *)

Lemma level_refl a : P a -> level cmp a a.
Proof. intros Ha. split; now apply (precedes_refl P cmp Hcmp). Qed.

Lemma level_sym a b : level cmp a b -> level cmp b a.
Proof. intros [H1 H2]. now split. Qed.

Lemma level_trans a b c :
  P a -> P b -> P c -> level cmp a b -> level cmp b c -> level cmp a c.
Proof.
  intros Ha Hb Hc [H1 H2] [H3 H4]. split.
  - now apply (precedes_trans P cmp Hcmp a b c).
  - now apply (precedes_trans P cmp Hcmp c b a).
Qed.

(** Two sorted arrangements of the same elements agree position by position
    up to elements that are level. *)
Lemma sorted_level l1 :
  forall l2,
    Forall P l1 -> Forall P l2 ->
    StronglySorted (precedes cmp) l1 -> StronglySorted (precedes cmp) l2 ->
    (exists l', Permutation l1 l' /\ Forall2 (level cmp) l' l2) ->
    Forall2 (level cmp) l1 l2.
Proof.
  induction l1 as [|x xs IH]; intros l2 HP1 HP2 Hs1 Hs2 (l' & Hperm & Hlev).
  - apply Permutation_nil in Hperm. subst l'. inversion Hlev. constructor.
  - destruct l' as [|y' ys'].
    { apply Permutation_sym, Permutation_nil in Hperm. discriminate. }
    inversion Hlev as [|? y ? ys Hy Hys]; subst.
    apply Forall_cons in HP1 as [Px Pxs]. apply Forall_cons in HP2 as [Py Pys].
    apply StronglySorted_inv in Hs1 as [Hs1 Hx]. apply StronglySorted_inv in Hs2 as [Hs2 Hyle].
    assert (HP' : Forall P (y' :: ys')) by (rewrite <- Hperm; now constructor).
    apply Forall_cons in HP' as [Py' Pys'].
    assert (Hxy : precedes cmp x y).
    { apply (precedes_trans P cmp Hcmp x y' y); auto; [|apply Hy].
      assert (Hin : y' ∈ x :: xs) by (rewrite Hperm; now left).
      apply elem_of_cons in Hin as [->|Hin].
      - now apply (precedes_refl P cmp Hcmp).
      - rewrite Forall_forall in Hx. now apply Hx. }
    assert (Hx_in : x ∈ y' :: ys') by (rewrite <- Hperm; now left).
    assert (Hyx : precedes cmp y x).
    { apply elem_of_cons in Hx_in as [->|Hin].
      - apply Hy.
      - apply list_elem_of_lookup in Hin as [i Hi].
        destruct (Forall2_lookup_l _ _ _ _ _ Hys Hi) as (z & Hz & Hxz).
        pose proof (Forall_lookup_1 _ _ _ _ Pys Hz) as Pz.
        apply (precedes_trans P cmp Hcmp y z x); auto; [|apply Hxz].
        rewrite Forall_forall in Hyle. apply Hyle.
        apply list_elem_of_lookup. eauto. }
    constructor; [now split|].
    apply IH; auto.
    apply elem_of_cons in Hx_in as [->|Hin].
    + exists ys'. split; auto. now apply Permutation_cons_inv in Hperm.
    + apply list_elem_of_In, in_split in Hin as (a & b & ->).
      apply Forall2_app_inv_l in Hys as (ya & yb' & Ha & Hb & ->).
      inversion Hb as [|? yx ? yb Hxyx Hb']; subst.
      exists (a ++ y' :: b). split.
      * rewrite <- Permutation_middle.
        apply (Permutation_cons_app_inv (y' :: a) b Hperm).
      * apply Forall2_app; auto. constructor; auto.
        apply Forall_app in Pys as [_ Pyb]. apply Forall_cons in Pyb as [Pyx _].
        apply (level_trans y' y yx Py' Py Pyx Hy).
        apply (level_trans y x yx Py Px Pyx); [now split|exact Hxyx].
Qed.

Lemma sorted_perm_level l1 l2 :
  Forall P l1 ->
  StronglySorted (precedes cmp) l1 -> StronglySorted (precedes cmp) l2 ->
  Permutation l1 l2 -> Forall2 (level cmp) l1 l2.
Proof.
  intros HP Hs1 Hs2 Hperm. apply sorted_level; auto.
  - now rewrite <- Hperm.
  - exists l2. split; auto.
    assert (HP2 : Forall P l2) by now rewrite <- Hperm.
    clear -HP2 Hcmp. induction HP2; constructor; auto using level_refl.
Qed.

End Drain.

(** ** Histories of heap operations *)

Section Histories.

Context {E : Type}.
Variable P : E -> Prop.
Variable cmp : heap_compare_fn E.
Hypothesis Hcmp : TotalPreorderOn P cmp.

Implicit Types (d : list E) (heap : BinaryHeap E).

Lemma apply_heap_op_spec heap op :
  compare heap = cmp -> Forall P (data heap) -> Forall P (op_elements op) ->
  heap_ordered cmp (data heap) ->
  let heap' := apply_heap_op heap op in
  compare heap' = cmp /\ Forall P (data heap') /\ heap_ordered cmp (data heap').
Proof.
  intros Hc HP Hop Hord heap'. subst heap'. destruct op as [x| |x]; simpl.
  - apply Forall_cons in Hop as [Px _].
    destruct (push_spec P cmp Hcmp heap x Hc HP Px Hord) as (H1 & H2 & H3).
    split_and!; auto. rewrite H3. now constructor.
  - destruct (data heap) as [|r rest] eqn:Hd.
    + rewrite (pop_empty heap Hd). simpl. rewrite Hd. auto.
    + destruct (pop_spec P cmp Hcmp heap Hc) as
        (root & h1 & -> & _ & H1 & H2 & H3 & _);
        try (rewrite Hd); auto; try discriminate.
      simpl. split_and!; auto.
      rewrite <- Hd, H3 in HP. now apply Forall_cons in HP as [_ HP].
  - apply Forall_cons in Hop as [Px _].
    destruct (replace_spec P cmp Hcmp heap x Hc HP Px Hord) as (H1 & H2 & H3 & _).
    split_and!; auto. rewrite H3. constructor; auto.
    destruct (data heap); simpl; auto. now apply Forall_cons in HP as [_ HP].
Qed.

Lemma run_heap_ops_spec c (ops : list (heap_op E)) :
  Forall (fun op => Forall P (op_elements op)) ops ->
  let heap := run_heap_ops cmp c ops in
  compare heap = cmp /\ Forall P (data heap) /\ heap_ordered cmp (data heap).
Proof.
  intros Hops. unfold run_heap_ops.
  induction ops as [|op ops IH] using rev_ind; simpl.
  - split_and!; auto. intros j xj yj _ _ Hxj. discriminate.
  - apply Forall_app in Hops as [Hops Hop]. apply Forall_cons in Hop as [Hop _].
    rewrite fold_left_app. simpl.
    destruct (IH Hops) as (H1 & H2 & H3). now apply apply_heap_op_spec.
Qed.

Lemma push_all_spec (elements : list E) :
  forall heap,
    compare heap = cmp -> Forall P (data heap) -> Forall P elements ->
    heap_ordered cmp (data heap) ->
    let heap' := push_all heap elements in
    compare heap' = cmp /\ heap_ordered cmp (data heap') /\
    Permutation (data heap') (elements ++ data heap).
Proof.
  unfold push_all.
  induction elements as [|x els IH]; intros heap Hc HP Hels Hord; simpl.
  - split_and!; auto.
  - apply Forall_cons in Hels as [Px Hels].
    destruct (push_spec P cmp Hcmp heap x Hc HP Px Hord) as (H1 & H2 & H3).
    destruct (IH (binary_heap_push heap x)) as (G1 & G2 & G3); auto.
    { rewrite H3. now constructor. }
    split_and!; auto. rewrite G3, H3. symmetry. apply Permutation_middle.
Qed.

End Histories.

(** ** The comparators of the library *)

Lemma Forall_True {E : Type} (l : list E) : Forall (fun _ => True) l.
Proof. induction l; constructor; auto. Qed.

Lemma heap_pointer_compare_lawful : TotalPreorder heap_pointer_compare.
Proof.
  constructor; unfold heap_pointer_compare.
  - intros a b _ _.
    destruct (Z.ltb_spec b a), (Z.ltb_spec a b); simpl; lia.
  - intros a b c _ _ _.
    destruct (Z.ltb_spec b a), (Z.ltb_spec a b), (Z.ltb_spec c b),
      (Z.ltb_spec b c), (Z.ltb_spec c a), (Z.ltb_spec a c); simpl; lia.
Qed.

Lemma to_int_small x : (- 2 ^ 31 <= x < 2 ^ 31)%Z -> to_int x = x.
Proof. intros Hx. unfold to_int. rewrite Z.mod_small; lia. Qed.

(** On [int]s whose differences do not overflow the built-in comparators
    are the natural order and its reverse. *)
Lemma heap_int_compare_min_small :
  TotalPreorderOn small_int heap_int_compare_min.
Proof.
  constructor; unfold heap_int_compare_min, small_int.
  - intros a b Ha Hb. rewrite !to_int_small by lia. lia.
  - intros a b c Ha Hb Hc. rewrite !to_int_small by lia. lia.
Qed.

Lemma heap_int_compare_max_small :
  TotalPreorderOn small_int heap_int_compare_max.
Proof.
  constructor; unfold heap_int_compare_max, small_int.
  - intros a b Ha Hb. rewrite !to_int_small by lia. lia.
  - intros a b c Ha Hb Hc. rewrite !to_int_small by lia. lia.
Qed.

(** ** The statements of the design document *)

Section Claims.

Context {E : Type}.
Variable cmp : heap_compare_fn E.

(** C8: after any interleaving of [push], [pop] and [replace] on a new heap
    whose comparator is the three-way function of a total preorder,
    [is_valid] returns true. *)
Theorem is_valid_after_operations (Hcmp : TotalPreorder cmp) c
    (ops : list (heap_op E)) :
  binary_heap_is_valid (run_heap_ops cmp c ops) = true /\
  heap_ordered cmp (data (run_heap_ops cmp c ops)).
Proof.
  destruct (run_heap_ops_spec (fun _ => True) cmp Hcmp c ops) as (H1 & _ & H3).
  { apply Forall_forall. intros op _. apply Forall_True. }
  split; [|exact H3]. apply is_valid_ordered. now rewrite H1.
Qed.

(** The elements are level exactly when the comparator returns 0. *)
Lemma level_zero (P : E -> Prop) (Hcmp : TotalPreorderOn P cmp) a b :
  P a -> P b -> level cmp a b -> cmp a b = 0%Z.
Proof.
  intros Ha Hb [H1 H2]. unfold precedes in *.
  pose proof (cmp_flip P cmp Hcmp a b Ha Hb). lia.
Qed.

(** C9, as the code has it: bulk loading and pushing one by one drain to two
    sorted arrangements of the elements of the array, which agree position
    by position up to elements the comparator ranks level; they are the same
    sequence when the comparator ranks no two distinct elements of the array
    level. *)
Theorem build_and_push_drain (Hcmp : TotalPreorder cmp) (heap : BinaryHeap E)
    c (elements : list E) :
  compare heap = cmp ->
  exists built pushed,
    drain (binary_heap_build_from_array heap elements) = map Some built /\
    drain (push_all (binary_heap_init cmp c) elements) = map Some pushed /\
    Permutation built elements /\ Permutation pushed elements /\
    StronglySorted (precedes cmp) built /\
    StronglySorted (precedes cmp) pushed /\
    Forall2 (fun a b => cmp a b = 0%Z) built pushed /\
    ((forall a b, In a elements -> In b elements -> cmp a b = 0%Z -> a = b) ->
     built = pushed).
Proof.
  intros Hc. set (P := fun _ : E => True).
  assert (HP : forall l : list E, Forall P l) by (intros l; apply Forall_True).
  destruct (build_spec P cmp Hcmp heap elements Hc (HP _)) as (B1 & B2 & B3).
  destruct (push_all_spec P cmp Hcmp elements (binary_heap_init cmp c))
    as (P1 & P2 & P3); auto.
  { intros j xj yj _ _ Hxj. discriminate. }
  simpl in P3. rewrite app_nil_r in P3.
  destruct (drain_spec P cmp Hcmp _ B1 (HP _) B2) as (built & Hb & Hb1 & Hb2).
  destruct (drain_spec P cmp Hcmp _ P1 (HP _) P2) as (pushed & Hp & Hp1 & Hp2).
  assert (Hperm : Permutation built pushed) by now rewrite Hb1, B3, Hp1, P3.
  pose proof (sorted_perm_level P cmp Hcmp built pushed (HP _) Hb2 Hp2 Hperm) as Hlev.
  assert (Hzero : Forall2 (fun a b => cmp a b = 0%Z) built pushed).
  { eapply Forall2_impl; [exact Hlev|]. intros a b Hab.
    apply (level_zero P Hcmp); unfold P; auto. }
  exists built, pushed. split_and!; auto.
  - now rewrite Hb1.
  - now rewrite Hp1.
  - intros Hanti.
    assert (Hin1 : forall a, In a built -> In a elements).
    { intros a Ha. apply (Permutation_in a (l := built)); auto. now rewrite Hb1. }
    assert (Hin2 : forall a, In a pushed -> In a elements).
    { intros a Ha. apply (Permutation_in a (l := pushed)); auto. now rewrite Hp1. }
    clear -Hzero Hanti Hin1 Hin2.
    induction Hzero as [|a b l1 l2 Hab _ IH]; [reflexivity|].
    f_equal.
    + apply Hanti; auto; [apply Hin1|apply Hin2]; now left.
    + apply IH; intros x Hx; [apply Hin1|apply Hin2]; now right.
Qed.

End Claims.

(** *** Heaps of [int]s *)

Lemma strongly_sorted_on {A : Type} (R R' : A -> A -> Prop) (Q : A -> Prop) l :
  Forall Q l -> (forall a b, Q a -> Q b -> R a b -> R' a b) ->
  StronglySorted R l -> StronglySorted R' l.
Proof.
  intros HQ Himp Hs. induction Hs as [|a l Hs IH Ha]; constructor.
  - apply IH. now apply Forall_cons in HQ as [_ HQ].
  - apply Forall_cons in HQ as [Qa HQ].
    rewrite Forall_forall in *. intros x Hx. apply Himp; auto.
Qed.

(** A valid min-heap of [int]s whose differences do not overflow drains in
    non-decreasing order, a max-heap in non-increasing order. *)
Lemma min_heap_drain_sorted (heap : BinaryHeap Z) :
  compare heap = heap_int_compare_min -> Forall small_int (data heap) ->
  binary_heap_is_valid heap = true ->
  exists out, drain heap = map Some out /\
              Permutation out (data heap) /\ Sorted Z.le out.
Proof.
  intros Hc HP Hvalid. apply is_valid_ordered in Hvalid. rewrite Hc in Hvalid.
  destruct (drain_spec small_int _ heap_int_compare_min_small heap Hc HP Hvalid)
    as (out & H1 & H2 & H3).
  exists out. split_and!; auto. apply StronglySorted_Sorted.
  apply (strongly_sorted_on (precedes heap_int_compare_min) Z.le small_int);
    auto; [now rewrite H2|].
  unfold precedes, heap_int_compare_min, small_int. intros a b Ha Hb.
  rewrite to_int_small by lia. lia.
Qed.

Lemma max_heap_drain_sorted (heap : BinaryHeap Z) :
  compare heap = heap_int_compare_max -> Forall small_int (data heap) ->
  binary_heap_is_valid heap = true ->
  exists out, drain heap = map Some out /\
              Permutation out (data heap) /\ Sorted Z.ge out.
Proof.
  intros Hc HP Hvalid. apply is_valid_ordered in Hvalid. rewrite Hc in Hvalid.
  destruct (drain_spec small_int _ heap_int_compare_max_small heap Hc HP Hvalid)
    as (out & H1 & H2 & H3).
  exists out. split_and!; auto. apply StronglySorted_Sorted.
  apply (strongly_sorted_on (precedes heap_int_compare_max) Z.ge small_int);
    auto; [now rewrite H2|].
  unfold precedes, heap_int_compare_max, small_int. intros a b Ha Hb.
  rewrite to_int_small by lia. lia.
Qed.

Section Examples.

#[local] Open Scope Z_scope.

(** C7 on the code: [heap_int_compare_min] returns [ia - ib], which wraps for
    [2000000000] and [-2000000000]; the min-heap holding the two drains
    [2000000000] first.  The max-heap does the same the other way round. *)
Theorem int_heap_drain_out_of_order :
  heap_int_compare_min (-2000000000) 2000000000 = 294967296 /\
  drain (push_all (min_heap_init 16) [2000000000; -2000000000])
    = [Some 2000000000; Some (-2000000000)] /\
  ~ Sorted Z.le [2000000000; -2000000000] /\
  drain (push_all (max_heap_init 16) [-2000000000; 2000000000])
    = [Some (-2000000000); Some 2000000000] /\
  ~ Sorted Z.ge [-2000000000; 2000000000].
Proof.
  split_and!; try reflexivity.
  - intros H. inversion H as [|? ? _ Hd]; subst. inversion Hd; subst. lia.
  - intros H. inversion H as [|? ? _ Hd]; subst. inversion Hd; subst. lia.
Qed.

(** Pushing [50, 20, 80, 10, 90, 30] into a min-heap and popping six times. *)
Lemma min_heap_scenario :
  drain (push_all (min_heap_init 10) [50; 20; 80; 10; 90; 30])
  = map Some [10; 20; 30; 50; 80; 90].
Proof. reflexivity. Qed.

Lemma is_valid_after_operations_witness :
  TotalPreorder heap_pointer_compare /\
  binary_heap_is_valid
    (run_heap_ops heap_pointer_compare 16
       [Push 50; Push 20; Replace 80; Pop; Push 10; Push 90; Pop; Push 30])
  = true.
Proof.
  split; [exact heap_pointer_compare_lawful|].
  exact (proj1 (is_valid_after_operations heap_pointer_compare
           heap_pointer_compare_lawful 16
           [Push 50; Push 20; Replace 80; Pop; Push 10; Push 90; Pop; Push 30])).
Defined.

(** Four players, two of age 30 and two of age 20: loaded in bulk they leave
    the heap in the order 4, 3, 2, 1, pushed one by one in the order
    3, 4, 1, 2. *)
Lemma build_and_push_drain_differ :
  let elements := [ {| player_id := 1; age := 30 |};
                    {| player_id := 2; age := 30 |};
                    {| player_id := 3; age := 20 |};
                    {| player_id := 4; age := 20 |} ] in
  let heap := binary_heap_init player_age_compare_min 16 in
  map (option_map player_id) (drain (binary_heap_build_from_array heap elements))
    = [Some 4; Some 3; Some 2; Some 1] /\
  map (option_map player_id) (drain (push_all heap elements))
    = [Some 3; Some 4; Some 1; Some 2] /\
  drain (binary_heap_build_from_array heap elements)
    <> drain (push_all heap elements).
Proof.
  cbv zeta. split_and!; try reflexivity.
  vm_compute. discriminate.
Qed.

Lemma build_and_push_drain_witness :
  TotalPreorder heap_pointer_compare /\
  exists built pushed,
    drain (binary_heap_build_from_array
             (binary_heap_init heap_pointer_compare 16) [50; 20; 80; 10])
      = map Some built /\
    drain (push_all (binary_heap_init heap_pointer_compare 16) [50; 20; 80; 10])
      = map Some pushed /\
    built = pushed.
Proof.
  split; [exact heap_pointer_compare_lawful|].
  destruct (build_and_push_drain heap_pointer_compare heap_pointer_compare_lawful
              (binary_heap_init heap_pointer_compare 16) 16 [50; 20; 80; 10]
              eq_refl)
    as (built & pushed & H1 & H2 & _ & _ & _ & _ & _ & H8).
  exists built, pushed. split; [exact H1|]. split; [exact H2|].
  apply H8. intros a b _ _. unfold heap_pointer_compare.
  destruct (Z.ltb_spec b a), (Z.ltb_spec a b); simpl; lia.
Defined.

End Examples.

(** ** The elements of a heap, whatever the comparator *)

Section Conservation.

Context {E : Type}.
Implicit Types (d : list E) (heap : BinaryHeap E).

Lemma heapify_up_loop_perm cmp fuel :
  forall d i d', heapify_up_loop fuel cmp d i = Some d' -> Permutation d' d.
Proof.
  induction fuel as [|fuel IH]; intros d i d'; simpl.
  - destruct (i =? 0); [|discriminate]. now intros [= <-].
  - destruct (i =? 0); [now intros [= <-]|].
    destruct (compare_at cmp d i (HEAP_PARENT i)) as [c|]; [|discriminate].
    destruct (0 <=? c)%Z; [now intros [= <-]|].
    intros H. rewrite (IH _ _ _ H). apply swap_perm.
Qed.

Lemma heapify_down_loop_perm cmp fuel :
  forall d i d', heapify_down_loop fuel cmp d i = Some d' -> Permutation d' d.
Proof.
  induction fuel as [|fuel IH]; intros d i d'; simpl; [discriminate|].
  destruct (down_target cmp d i) as [t|]; [|discriminate].
  destruct (t =? i); [now intros [= <-]|].
  intros H. rewrite (IH _ _ _ H). apply swap_perm.
Qed.

Lemma heapify_up_perm heap i :
  compare (binary_heap_heapify_up heap i) = compare heap /\
  Permutation (data (binary_heap_heapify_up heap i)) (data heap).
Proof.
  unfold binary_heap_heapify_up.
  destruct (heapify_up_loop i (compare heap) (data heap) i) as [d'|] eqn:H; auto.
  split; [reflexivity|]. apply (heapify_up_loop_perm _ _ _ _ _ H).
Qed.

Lemma heapify_down_perm heap i :
  compare (binary_heap_heapify_down heap i) = compare heap /\
  Permutation (data (binary_heap_heapify_down heap i)) (data heap).
Proof.
  unfold binary_heap_heapify_down.
  destruct (heapify_down_loop _ (compare heap) (data heap) i) as [d'|] eqn:H; auto.
  split; [reflexivity|]. apply (heapify_down_loop_perm _ _ _ _ _ H).
Qed.

Lemma push_perm heap x :
  compare (binary_heap_push heap x) = compare heap /\
  Permutation (data (binary_heap_push heap x)) (x :: data heap).
Proof.
  unfold binary_heap_push.
  set (h1 := with_data heap (dynarray_push (data heap) x)).
  destruct (heapify_up_perm h1 (dynarray_size (data h1) - 1)) as [H1 H2].
  split; [exact H1|]. rewrite H2. unfold h1, dynarray_push. cbn [data with_data].
  rewrite Permutation_app_comm. reflexivity.
Qed.

Lemma pop_perm heap root rest :
  data heap = root :: rest ->
  exists heap',
    binary_heap_pop heap = (heap', Some root) /\
    compare heap' = compare heap /\
    Permutation (data heap) (root :: data heap').
Proof.
  intros Hd. unfold binary_heap_pop, dynarray_size, dynarray_get. rewrite Hd.
  cbn [length Nat.eqb lookup list_lookup].
  destruct rest as [|x1 rest'] eqn:Hrest.
  - exists (with_data heap []). cbn. split_and!; auto.
  - rewrite <- Hrest in *. assert (Hlen : 0 < length rest) by (subst rest; simpl; lia).
    assert (Hsz : (length rest =? 0) = false) by (apply Nat.eqb_neq; lia).
    cbn [Nat.eqb]. rewrite Hsz. unfold dynarray_pop. cbn [length].
    destruct (lookup_lt_is_Some_2 (root :: rest) (length rest)) as [last Hlast];
      [simpl; lia|].
    rewrite Hlast.
    set (h1 := with_data heap (dynarray_set (take (length rest) (root :: rest)) 0 last)).
    assert (Hperm1 : Permutation (root :: rest) (root :: data h1)).
    { unfold h1. cbn [data with_data]. unfold dynarray_set.
      rewrite (insert_perm (take (length rest) (root :: rest)) 0 last root).
      2:{ rewrite lookup_take_lt by lia. reflexivity. }
      rewrite <- (take_ge (root :: rest) (S (length rest))) at 1 by (simpl; lia).
      rewrite (take_S_r _ _ _ Hlast). rewrite Permutation_app_comm. reflexivity. }
    destruct (heapify_down_perm h1 0) as [H1 H2].
    exists (binary_heap_heapify_down h1 0). split_and!; auto.
    now rewrite Hperm1, H2.
Qed.

Lemma replace_perm heap x :
  compare (fst (binary_heap_replace heap x)) = compare heap /\
  Permutation (data (fst (binary_heap_replace heap x))) (x :: tail (data heap)) /\
  snd (binary_heap_replace heap x) = head (data heap).
Proof.
  unfold binary_heap_replace, dynarray_size, dynarray_get.
  destruct (data heap) as [|root rest] eqn:Hd.
  - cbn [length Nat.eqb fst snd tail head].
    destruct (push_perm heap x) as [H1 H2]. rewrite Hd in H2. auto.
  - cbn [length Nat.eqb fst snd lookup list_lookup tail head].
    set (h1 := with_data heap (dynarray_set (root :: rest) 0 x)).
    destruct (heapify_down_perm h1 0) as [H1 H2]. split_and!; auto.
Qed.

Lemma build_loop_perm i :
  forall heap,
    compare (build_loop i heap) = compare heap /\
    Permutation (data (build_loop i heap)) (data heap).
Proof.
  induction i as [|i IH]; intros heap; simpl; [auto|].
  destruct (IH (binary_heap_heapify_down heap i)) as [H1 H2].
  destruct (heapify_down_perm heap i) as [G1 G2].
  split; [congruence|]. now rewrite H2.
Qed.

Lemma build_perm heap (elements : list E) :
  compare (binary_heap_build_from_array heap elements) = compare heap /\
  Permutation (data (binary_heap_build_from_array heap elements)) elements.
Proof.
  unfold binary_heap_build_from_array. cbn [data with_data].
  unfold dynarray_clear. rewrite push_all_cells. cbn [app].
  destruct (1 <? length elements); [|auto].
  apply (build_loop_perm _ (with_data (with_data heap []) elements)).
Qed.

(** No operation loses, duplicates or invents an element, whatever the
    comparator does: [push] adds its argument, [pop] takes out the cell at
    index 0 (and nothing from an empty heap), [replace] exchanges the cell
    at index 0 for its argument, [build_from_array] holds the array. *)
Theorem elements_conserved heap x (elements : list E) :
  Permutation (data (binary_heap_push heap x)) (x :: data heap) /\
  (data heap = [] -> binary_heap_pop heap = (heap, None)) /\
  (forall root rest, data heap = root :: rest ->
     snd (binary_heap_pop heap) = Some root /\
     Permutation (data (fst (binary_heap_pop heap))) rest) /\
  Permutation (data (fst (binary_heap_replace heap x))) (x :: tail (data heap)) /\
  snd (binary_heap_replace heap x) = head (data heap) /\
  Permutation (data (binary_heap_build_from_array heap elements)) elements.
Proof.
  split_and!.
  - apply push_perm.
  - intros Hd. unfold binary_heap_pop. now rewrite Hd.
  - intros root rest Hd. destruct (pop_perm heap root rest Hd) as (heap' & -> & _ & Hp).
    split; [reflexivity|]. rewrite Hd in Hp. cbn [fst].
    symmetry. now apply Permutation_cons_inv in Hp.
  - apply replace_perm.
  - apply replace_perm.
  - apply build_perm.
Qed.

(** [replace] returns what [pop] returns and leaves the elements that [pop]
    followed by [push] leaves. *)
Theorem replace_is_pop_then_push heap x :
  snd (binary_heap_replace heap x) = snd (binary_heap_pop heap) /\
  Permutation (data (fst (binary_heap_replace heap x)))
              (data (binary_heap_push (fst (binary_heap_pop heap)) x)).
Proof.
  destruct (replace_perm heap x) as (_ & H1 & H2). rewrite H1, H2.
  destruct (push_perm (fst (binary_heap_pop heap)) x) as [_ H3]. rewrite H3.
  destruct (data heap) as [|root rest] eqn:Hd.
  - unfold binary_heap_pop. rewrite Hd. cbn. now rewrite Hd.
  - destruct (pop_perm heap root rest Hd) as (heap' & -> & _ & Hp).
    cbn [fst snd head tail]. split; [reflexivity|]. constructor.
    rewrite Hd in Hp. now apply Permutation_cons_inv in Hp.
Qed.

(** The size after each operation. *)
Theorem size_after_operation heap x :
  binary_heap_size (binary_heap_push heap x) = S (binary_heap_size heap) /\
  binary_heap_size (fst (binary_heap_pop heap)) = binary_heap_size heap - 1 /\
  binary_heap_size (fst (binary_heap_replace heap x)) = Nat.max 1 (binary_heap_size heap) /\
  binary_heap_size (binary_heap_clear heap) = 0 /\
  (binary_heap_is_empty heap = true <-> binary_heap_size heap = 0) /\
  (binary_heap_peek heap = None <-> binary_heap_size heap = 0).
Proof.
  unfold binary_heap_size, dynarray_size. split_and!.
  - destruct (push_perm heap x) as [_ H]. now rewrite H.
  - destruct (data heap) as [|root rest] eqn:Hd.
    + unfold binary_heap_pop. rewrite Hd. cbn. now rewrite Hd.
    + destruct (pop_perm heap root rest Hd) as (heap' & -> & _ & Hp).
      rewrite Hd in Hp. apply Permutation_length in Hp. simpl in *. lia.
  - destruct (replace_perm heap x) as (_ & H & _). rewrite H.
    destruct (data heap); simpl; lia.
  - reflexivity.
  - unfold binary_heap_is_empty, dynarray_is_empty. apply Nat.eqb_eq.
  - unfold binary_heap_peek, dynarray_size, dynarray_get.
    destruct (data heap); simpl; split; congruence.
Qed.

End Conservation.

(** ** The root, bulk loading, merging *)

Section Roots.

Context {E : Type}.
Variable P : E -> Prop.
Variable cmp : heap_compare_fn E.
Hypothesis Hcmp : TotalPreorderOn P cmp.

Implicit Types (d : list E) (heap : BinaryHeap E).

(** [is_valid] holds exactly when no cell is before its parent. *)
Theorem is_valid_iff_parents heap :
  binary_heap_is_valid heap = true <->
  forall j x y, 0 < j ->
    data heap !! j = Some x -> data heap !! HEAP_PARENT j = Some y ->
    (compare heap y x <= 0)%Z.
Proof.
  rewrite (is_valid_ordered heap). unfold heap_ordered, heap_from, precedes. split.
  - intros H j x y Hj Hx Hy. apply (H j x y); auto. lia.
  - intros H j x y Hj _ Hx Hy. now apply (H j x y).
Qed.

(** On a valid heap [peek] returns what [pop] is about to return, an element
    of the heap that is not after any other. *)
Theorem peek_is_minimum heap :
  compare heap = cmp -> Forall P (data heap) -> binary_heap_is_valid heap = true ->
  binary_heap_peek heap = snd (binary_heap_pop heap) /\
  forall r, binary_heap_peek heap = Some r ->
            In r (data heap) /\ Forall (precedes cmp r) (data heap).
Proof.
  intros Hc HP Hvalid. apply is_valid_ordered in Hvalid. rewrite Hc in Hvalid.
  unfold binary_heap_peek, dynarray_size, dynarray_get.
  destruct (data heap) as [|root rest] eqn:Hd.
  - split; [|discriminate]. unfold binary_heap_pop. now rewrite Hd.
  - destruct (pop_perm heap root rest Hd) as (heap' & -> & _). cbn. split; [reflexivity|].
    intros r [= <-]. split; [now left|].
    apply Forall_forall. intros x Hx. apply list_elem_of_lookup in Hx as [j Hj].
    apply (root_min P cmp Hcmp (root :: rest) root HP Hvalid eq_refl j x Hj).
Qed.

(** [build_from_array] leaves a valid heap of the elements of the array,
    whatever the heap held before. *)
Theorem build_is_valid heap (elements : list E) :
  compare heap = cmp -> Forall P elements ->
  let heap' := binary_heap_build_from_array heap elements in
  binary_heap_is_valid heap' = true /\
  Permutation (data heap') elements /\
  binary_heap_size heap' = length elements.
Proof.
  intros Hc HP heap'.
  destruct (build_spec P cmp Hcmp heap elements Hc HP) as (H1 & H2 & H3).
  fold heap' in H1, H2, H3. split_and!; auto.
  - apply is_valid_ordered. now rewrite H1.
  - unfold binary_heap_size, dynarray_size. now rewrite H3.
Qed.

Lemma merge_loop_spec fuel :
  forall heap1 heap2,
    length (data heap2) <= fuel ->
    compare heap1 = cmp -> Forall P (data heap1) -> Forall P (data heap2) ->
    heap_ordered cmp (data heap1) ->
    exists heap1' heap2',
      merge_loop fuel heap1 heap2 = Some (heap1', heap2') /\
      data heap2' = [] /\ compare heap2' = compare heap2 /\
      compare heap1' = cmp /\ heap_ordered cmp (data heap1') /\
      Permutation (data heap1') (data heap2 ++ data heap1).
Proof.
  induction fuel as [|fuel IH]; intros heap1 heap2 Hlen Hc HP1 HP2 Hord.
  - exists heap1, heap2.
    assert (Hd : data heap2 = []) by (destruct (data heap2); [auto|simpl in Hlen; lia]).
    unfold merge_loop, binary_heap_is_empty, dynarray_is_empty. rewrite Hd. cbn.
    split_and!; auto.
  - cbn [merge_loop]. unfold binary_heap_is_empty, dynarray_is_empty.
    destruct (data heap2) as [|root rest] eqn:Hd.
    + exists heap1, heap2. cbn. rewrite Hd. split_and!; auto.
    + cbn [length Nat.eqb].
      destruct (pop_perm heap2 root rest Hd) as (heap2' & -> & Hc2 & Hp2).
      rewrite Hd in Hp2. apply Permutation_cons_inv in Hp2.
      apply Forall_cons in HP2 as [Proot HP2].
      destruct (push_spec P cmp Hcmp heap1 root Hc HP1 Proot Hord) as (G1 & G2 & G3).
      destruct (IH (binary_heap_push heap1 root) heap2') as (h1 & h2 & -> & R1 & R2 & R3 & R4 & R5);
        auto.
      * apply Permutation_length in Hp2. simpl in Hlen. lia.
      * now rewrite G3; constructor.
      * now rewrite <- Hp2.
      * exists h1, h2. split_and!; auto; [congruence|].
        rewrite R5, G3, <- Hp2. cbn [app].
        symmetry. apply Permutation_middle.
Qed.

(** [merge] ends after one turn per element of the second heap, leaves it
    empty and the first heap valid, holding the elements of both. *)
Theorem merge_moves_all heap1 heap2 :
  compare heap1 = cmp -> Forall P (data heap1) -> Forall P (data heap2) ->
  binary_heap_is_valid heap1 = true ->
  merge_loop (binary_heap_size heap2) heap1 heap2
    = Some (binary_heap_merge heap1 heap2) /\
  let heap1' := fst (binary_heap_merge heap1 heap2) in
  let heap2' := snd (binary_heap_merge heap1 heap2) in
  binary_heap_is_empty heap2' = true /\
  binary_heap_is_valid heap1' = true /\
  Permutation (data heap1') (data heap1 ++ data heap2).
Proof.
  intros Hc HP1 HP2 Hvalid. apply is_valid_ordered in Hvalid. rewrite Hc in Hvalid.
  destruct (merge_loop_spec (binary_heap_size heap2) heap1 heap2)
    as (h1 & h2 & Hm & R1 & _ & R3 & R4 & R5); auto.
  unfold binary_heap_merge. rewrite Hm. cbn [fst snd]. split_and!; auto.
  - unfold binary_heap_is_empty, dynarray_is_empty. now rewrite R1.
  - apply is_valid_ordered. now rewrite R3.
  - rewrite R5. apply Permutation_app_comm.
Qed.


End Roots.

(** ** Heaps of [int]s made from an array *)

Lemma sorted_min (l : list Z) :
  Forall small_int l -> StronglySorted (precedes heap_int_compare_min) l ->
  Sorted Z.le l.
Proof.
  intros HP Hs. apply StronglySorted_Sorted.
  apply (strongly_sorted_on (precedes heap_int_compare_min) Z.le small_int); auto.
  unfold precedes, heap_int_compare_min, small_int. intros a b Ha Hb.
  rewrite to_int_small by lia. lia.
Qed.

Lemma sorted_max (l : list Z) :
  Forall small_int l -> StronglySorted (precedes heap_int_compare_max) l ->
  Sorted Z.ge l.
Proof.
  intros HP Hs. apply StronglySorted_Sorted.
  apply (strongly_sorted_on (precedes heap_int_compare_max) Z.ge small_int); auto.
  unfold precedes, heap_int_compare_max, small_int. intros a b Ha Hb.
  rewrite to_int_small by lia. lia.
Qed.

(** [min_heap_create_from_ints] and [max_heap_create_from_ints] on [int]s
    whose differences do not overflow: the heap is valid and drains the
    values in non-decreasing, respectively non-increasing, order. *)
Theorem create_from_ints_sorted (values : list Z) c :
  Forall small_int values ->
  binary_heap_is_valid (min_heap_create_from_ints values c) = true /\
  binary_heap_is_valid (max_heap_create_from_ints values c) = true /\
  (exists out, drain (min_heap_create_from_ints values c) = map Some out /\
               Permutation out values /\ Sorted Z.le out) /\
  (exists out, drain (max_heap_create_from_ints values c) = map Some out /\
               Permutation out values /\ Sorted Z.ge out).
Proof.
  intros HP. unfold min_heap_create_from_ints, max_heap_create_from_ints.
  set (cap := if length values <? c then c else length values).
  destruct (build_spec small_int _ heap_int_compare_min_small (min_heap_init cap)
              values eq_refl HP) as (A1 & A2 & A3).
  destruct (build_spec small_int _ heap_int_compare_max_small (max_heap_init cap)
              values eq_refl HP) as (B1 & B2 & B3).
  assert (HPa : Forall small_int
                  (data (binary_heap_build_from_array (min_heap_init cap) values)))
    by now rewrite A3.
  assert (HPb : Forall small_int
                  (data (binary_heap_build_from_array (max_heap_init cap) values)))
    by now rewrite B3.
  destruct (drain_spec small_int _ heap_int_compare_min_small _ A1 HPa A2)
    as (outa & Ha1 & Ha2 & Ha3).
  destruct (drain_spec small_int _ heap_int_compare_max_small _ B1 HPb B2)
    as (outb & Hb1 & Hb2 & Hb3).
  split_and!.
  - apply is_valid_ordered. now rewrite A1.
  - apply is_valid_ordered. now rewrite B1.
  - exists outa. split_and!; auto; [now rewrite Ha2|].
    apply sorted_min; auto. now rewrite Ha2.
  - exists outb. split_and!; auto; [now rewrite Hb2|].
    apply sorted_max; auto. now rewrite Hb2.
Qed.

(** ** Comparators and index macros *)

(** The comparators of the library: addresses are totally ordered by
    [heap_pointer_compare]; on [int]s whose differences do not overflow
    [heap_int_compare_min] is the sign of the natural order and
    [heap_int_compare_max] the same with the arguments exchanged. *)
Theorem library_comparators :
  TotalPreorder heap_pointer_compare /\
  TotalPreorderOn small_int heap_int_compare_min /\
  TotalPreorderOn small_int heap_int_compare_max /\
  (forall a b, heap_int_compare_max a b = heap_int_compare_min b a) /\
  (forall a b, small_int a -> small_int b ->
     ((heap_int_compare_min a b < 0)%Z <-> (a < b)%Z) /\
     (heap_int_compare_min a b = 0%Z <-> a = b)) /\
  (forall a b,
     ((heap_pointer_compare a b < 0)%Z <-> (a < b)%Z) /\
     (heap_pointer_compare a b = 0%Z <-> a = b)).
Proof.
  split_and!.
  - exact heap_pointer_compare_lawful.
  - exact heap_int_compare_min_small.
  - exact heap_int_compare_max_small.
  - reflexivity.
  - unfold heap_int_compare_min, small_int. intros a b Ha Hb.
    rewrite to_int_small by lia. lia.
  - unfold heap_pointer_compare. intros a b.
    destruct (Z.ltb_spec b a), (Z.ltb_spec a b); simpl; lia.
Qed.

Lemma dary_div d q r : r < d -> (d * q + r) / d = q.
Proof.
  intros Hr. symmetry. apply (Nat.div_unique _ d q r); lia.
Qed.

(** The navigation macros: the parent of the [k]-th child of [i] is [i];
    a cell other than the root is the child of its parent that its index
    tells; with two children per node the macros are those of the binary
    heap. *)
Theorem navigation_round_trip :
  (forall i d k, k < d -> DARY_PARENT (DARY_KTH_CHILD i d k) d = i) /\
  (forall j d, 0 < j -> 0 < d ->
     DARY_KTH_CHILD (DARY_PARENT j d) d ((j - 1) mod d) = j) /\
  (forall i d, DARY_FIRST_CHILD i d = DARY_KTH_CHILD i d 0) /\
  (forall i, DARY_PARENT i 2 = HEAP_PARENT i /\
             DARY_KTH_CHILD i 2 0 = HEAP_LEFT_CHILD i /\
             DARY_KTH_CHILD i 2 1 = HEAP_RIGHT_CHILD i) /\
  (forall i, HEAP_PARENT (HEAP_LEFT_CHILD i) = i /\
             HEAP_PARENT (HEAP_RIGHT_CHILD i) = i).
Proof.
  unfold DARY_PARENT, DARY_KTH_CHILD, DARY_FIRST_CHILD.
  split_and!.
  - intros i d k Hk. replace (d * i + k + 1 - 1) with (d * i + k) by lia.
    now apply dary_div.
  - intros j d Hj Hd. pose proof (Nat.div_mod_eq (j - 1) d). lia.
  - intros i d. lia.
  - intros i. unfold HEAP_PARENT, HEAP_LEFT_CHILD, HEAP_RIGHT_CHILD.
    split_and!; lia.
  - intros i. split; [apply parent_left|apply parent_right].
Qed.

Section MoreExamples.

#[local] Open Scope Z_scope.

Lemma small_ints_example : Forall small_int [50; 20; 80; 10; 90; 30].
Proof. repeat constructor; unfold small_int; lia. Qed.

Lemma peek_is_minimum_witness :
  let heap := push_all (binary_heap_init heap_pointer_compare 16) [50; 20; 80; 10] in
  TotalPreorder heap_pointer_compare /\
  compare heap = heap_pointer_compare /\ Forall (fun _ => True) (data heap) /\
  binary_heap_is_valid heap = true /\
  binary_heap_peek heap = snd (binary_heap_pop heap) /\
  Forall (precedes heap_pointer_compare 10) (data heap).
Proof.
  intros heap.
  assert (Hv : binary_heap_is_valid heap = true) by reflexivity.
  destruct (peek_is_minimum (fun _ => True) heap_pointer_compare
              heap_pointer_compare_lawful heap eq_refl (Forall_True _) Hv)
    as [H1 H2].
  split; [exact heap_pointer_compare_lawful|]. split; [reflexivity|].
  split; [apply Forall_True|]. split; [exact Hv|]. split; [exact H1|].
  exact (proj2 (H2 10 eq_refl)).
Defined.

Lemma build_is_valid_witness :
  let heap := binary_heap_init heap_pointer_compare 16 in
  TotalPreorder heap_pointer_compare /\
  compare heap = heap_pointer_compare /\ Forall (fun _ => True) [50; 20; 80; 10] /\
  binary_heap_is_valid (binary_heap_build_from_array heap [50; 20; 80; 10]) = true.
Proof.
  intros heap.
  split; [exact heap_pointer_compare_lawful|]. split; [reflexivity|].
  split; [apply Forall_True|].
  exact (proj1 (build_is_valid (fun _ => True) heap_pointer_compare
                  heap_pointer_compare_lawful heap [50; 20; 80; 10] eq_refl
                  (Forall_True _))).
Defined.

Lemma merge_moves_all_witness :
  let heap1 := push_all (binary_heap_init heap_pointer_compare 16) [50; 20] in
  let heap2 := push_all (binary_heap_init heap_pointer_compare 16) [80; 10; 30] in
  TotalPreorder heap_pointer_compare /\
  compare heap1 = heap_pointer_compare /\
  Forall (fun _ => True) (data heap1) /\ Forall (fun _ => True) (data heap2) /\
  binary_heap_is_valid heap1 = true /\
  binary_heap_is_empty (snd (binary_heap_merge heap1 heap2)) = true /\
  binary_heap_is_valid (fst (binary_heap_merge heap1 heap2)) = true /\
  Permutation (data (fst (binary_heap_merge heap1 heap2))) (data heap1 ++ data heap2).
Proof.
  intros heap1 heap2.
  assert (Hv : binary_heap_is_valid heap1 = true) by reflexivity.
  destruct (merge_moves_all (fun _ => True) heap_pointer_compare
              heap_pointer_compare_lawful heap1 heap2 eq_refl (Forall_True _)
              (Forall_True _) Hv) as (_ & H1 & H2 & H3).
  split; [exact heap_pointer_compare_lawful|]. split; [reflexivity|].
  split; [apply Forall_True|]. split; [apply Forall_True|]. split; [exact Hv|].
  split; [exact H1|]. split; [exact H2|exact H3].
Defined.


Lemma create_from_ints_sorted_witness :
  Forall small_int [50; 20; 80; 10; 90; 30] /\
  binary_heap_is_valid (min_heap_create_from_ints [50; 20; 80; 10; 90; 30] 4) = true /\
  binary_heap_is_valid (max_heap_create_from_ints [50; 20; 80; 10; 90; 30] 4) = true.
Proof.
  split; [exact small_ints_example|].
  destruct (create_from_ints_sorted [50; 20; 80; 10; 90; 30] 4 small_ints_example)
    as (H1 & H2 & _).
  split; [exact H1|exact H2].
Defined.

Lemma min_heap_drain_sorted_witness :
  let heap := push_all (min_heap_init 10) [50; 20; 80; 10; 90; 30] in
  compare heap = heap_int_compare_min /\ Forall small_int (data heap) /\
  binary_heap_is_valid heap = true /\
  exists out, drain heap = map Some out /\
              Permutation out (data heap) /\ Sorted Z.le out.
Proof.
  intros heap.
  assert (HP : Forall small_int (data heap)).
  { let d := eval vm_compute in (data heap) in change (Forall small_int d).
    repeat constructor; unfold small_int; lia. }
  split; [reflexivity|]. split; [exact HP|]. split; [reflexivity|].
  exact (min_heap_drain_sorted heap eq_refl HP eq_refl).
Defined.

Lemma max_heap_drain_sorted_witness :
  let heap := push_all (max_heap_init 10) [50; 20; 80; 10; 90; 30] in
  compare heap = heap_int_compare_max /\ Forall small_int (data heap) /\
  binary_heap_is_valid heap = true /\
  exists out, drain heap = map Some out /\
              Permutation out (data heap) /\ Sorted Z.ge out.
Proof.
  intros heap.
  assert (HP : Forall small_int (data heap)).
  { let d := eval vm_compute in (data heap) in change (Forall small_int d).
    repeat constructor; unfold small_int; lia. }
  split; [reflexivity|]. split; [exact HP|]. split; [reflexivity|].
  exact (max_heap_drain_sorted heap eq_refl HP eq_refl).
Defined.

End MoreExamples.

End HeapFacts.

(** * Properties of the growable array *)

Module DynArrayCellsFacts.

Import DynArrayCells.

Section Blocks.

Context {E : Type}.
Implicit Types (b : block E) (arr : DynArray E) (l : list E).

Lemma cell_at_lookup b i : i < length b -> b !! i = Some (cell_at b i).
Proof.
  intros Hi. unfold cell_at.
  destruct (lookup_lt_is_Some_2 b i Hi) as [c ->]. reflexivity.
Qed.

Lemma realloc_length b n : length (realloc b n) = n.
Proof.
  unfold realloc. rewrite length_app, length_take, length_replicate. lia.
Qed.

Lemma realloc_take b n k : k <= n -> k <= length b -> take k (realloc b n) = take k b.
Proof.
  intros Hn Hb. unfold realloc. rewrite take_app_le by (rewrite length_take; lia).
  rewrite take_take. f_equal. lia.
Qed.

(** After the loop of [dynarray_insert] the cells above [index] hold what
    their left neighbours held. *)
Lemma shift_right_lookup index k :
  forall b j, index + k < length b ->
    fold_left (fun b i => <[i := cell_at b (i - 1)]> b) (rev (seq (S index) k)) b !! j
    = if decide (index < j <= index + k) then b !! (j - 1) else b !! j.
Proof.
  induction k as [|k IH]; intros b j Hlen.
  - simpl. destruct (decide (index < j <= index + 0)); [lia|reflexivity].
  - rewrite seq_S, rev_app_distr. cbn [rev app fold_left].
    replace (S index + k - 1) with (index + k) by lia.
    rewrite IH by (rewrite length_insert; lia).
    destruct (decide (index < j <= index + k)) as [Hj|Hj].
    + rewrite list_lookup_insert_ne by lia.
      destruct (decide (index < j <= index + S k)); [reflexivity|lia].
    + destruct (decide (j = S index + k)) as [->|Hne].
      * rewrite list_lookup_insert_eq by lia.
        destruct (decide (index < S index + k <= index + S k)); [|lia].
        replace (S index + k - 1) with (index + k) by lia.
        symmetry. apply cell_at_lookup. lia.
      * rewrite list_lookup_insert_ne by lia.
        destruct (decide (index < j <= index + S k)); [lia|reflexivity].
Qed.

Lemma shift_right_length b index n : length (shift_right b index n) = length b.
Proof.
  unfold shift_right. generalize (rev (seq (S index) (n - index))). intros turns.
  revert b. induction turns as [|i turns IH]; intros b; simpl; [reflexivity|].
  now rewrite IH, length_insert.
Qed.

(** After the loop of [dynarray_remove] the cells from [index] on hold what
    their right neighbours held. *)
Lemma shift_left_lookup k :
  forall index b j, index + k < length b ->
    fold_left (fun b i => <[i := cell_at b (i + 1)]> b) (seq index k) b !! j
    = if decide (index <= j < index + k) then b !! (S j) else b !! j.
Proof.
  induction k as [|k IH]; intros index b j Hlen.
  - simpl. destruct (decide (index <= j < index + 0)); [lia|reflexivity].
  - cbn [seq fold_left].
    rewrite IH by (rewrite length_insert; lia).
    destruct (decide (S index <= j < S index + k)) as [Hj|Hj].
    + rewrite list_lookup_insert_ne by lia.
      destruct (decide (index <= j < index + S k)); [reflexivity|lia].
    + destruct (decide (j = index)) as [->|Hne].
      * rewrite list_lookup_insert_eq by lia.
        destruct (decide (index <= index < index + S k)); [|lia].
        replace (index + 1) with (S index) by lia.
        symmetry. apply cell_at_lookup. lia.
      * rewrite list_lookup_insert_ne by lia.
        destruct (decide (index <= j < index + S k)); [lia|reflexivity].
Qed.

Lemma shift_left_length b index n : length (shift_left b index n) = length b.
Proof.
  unfold shift_left. generalize (seq index (n - 1 - index)). intros turns.
  revert b. induction turns as [|i turns IH]; intros b; simpl; [reflexivity|].
  now rewrite IH, length_insert.
Qed.

(** *** The invariant *)

Lemma holds_size arr l : holds arr l -> size arr <= capacity arr.
Proof.
  intros (Hlen & _ & Hsz & Htake).
  apply (f_equal length) in Htake. rewrite length_take, length_map in Htake. lia.
Qed.

Lemma holds_lookup arr l i :
  holds arr l -> i < length l -> data arr !! i = Some (l !! i).
Proof.
  intros (Hlen & _ & Hsz & Htake) Hi.
  rewrite <- (lookup_take_lt (data arr) (size arr) i) by lia.
  rewrite Htake, list_lookup_fmap.
  destruct (lookup_lt_is_Some_2 l i Hi) as [x ->]. reflexivity.
Qed.

Lemma holds_cell arr l i : holds arr l -> i < length l -> cell_at (data arr) i = l !! i.
Proof.
  intros H Hi. unfold cell_at. now rewrite (holds_lookup arr l i H Hi).
Qed.

(** Two lists of cells are the same when they have the same length and
    the same cells. *)
Lemma holds_intro arr l :
  length (data arr) = capacity arr -> 0 < capacity arr ->
  size arr = length l -> size arr <= capacity arr ->
  (forall i, i < length l -> data arr !! i = Some (l !! i)) ->
  holds arr l.
Proof.
  intros Hlen Hcap Hsz Hle Hcells. split_and!; auto.
  apply list_eq. intros i. rewrite list_lookup_fmap.
  destruct (decide (i < length l)) as [Hi|Hi].
  - rewrite lookup_take_lt by lia. rewrite (Hcells i Hi).
    destruct (lookup_lt_is_Some_2 l i Hi) as [x ->]. reflexivity.
  - rewrite lookup_take_ge by lia.
    rewrite (lookup_ge_None_2 l i) by lia. reflexivity.
Qed.

Lemma resize_holds arr l n :
  holds arr l -> 0 < n ->
  holds (dynarray_resize arr n) l /\
  capacity (dynarray_resize arr n) = (if n <? length l then capacity arr else n).
Proof.
  intros H Hn. pose proof (holds_size arr l H) as Hle.
  destruct H as (Hlen & Hcap & Hsz & Htake).
  unfold dynarray_resize. rewrite Hsz.
  destruct (Nat.ltb_spec n (length l)); [repeat split; auto|].
  split; [|reflexivity]. split_and!; cbn [data size capacity]; auto.
  - apply realloc_length.
  - rewrite realloc_take by lia. now rewrite <- Hsz.
Qed.

Lemma ensure_capacity_holds arr l :
  holds arr l ->
  let arr' := dynarray_ensure_capacity arr in
  holds arr' l /\ length l < capacity arr' /\
  capacity arr' = (if capacity arr <=? length l
                   then capacity arr * DYNARRAY_GROWTH_FACTOR else capacity arr).
Proof.
  intros H arr'. subst arr'. pose proof (holds_size arr l H) as Hle.
  pose proof H as (Hlen & Hcap & Hsz & Htake).
  unfold dynarray_ensure_capacity, DYNARRAY_GROWTH_FACTOR. rewrite Hsz in *.
  destruct (Nat.leb_spec (capacity arr) (length l)); [|auto].
  destruct (resize_holds arr l (capacity arr * 2) H ltac:(lia)) as [H1 H2].
  destruct (Nat.ltb_spec (capacity arr * 2) (length l)); [lia|].
  rewrite H2. split_and!; auto. lia.
Qed.


(** *** The operations on the cells *)

Lemma push_holds arr l x :
  holds arr l ->
  holds (dynarray_push arr x) (l ++ [x]) /\
  capacity (dynarray_push arr x) =
    (if capacity arr <=? length l
     then capacity arr * DYNARRAY_GROWTH_FACTOR else capacity arr).
Proof.
  intros H. destruct (ensure_capacity_holds arr l H) as (H1 & Hroom & Hcap).
  unfold dynarray_push. set (arr1 := dynarray_ensure_capacity arr) in *.
  pose proof H1 as (Hlen & Hpos & Hsz & _). cbn [capacity].
  split; [|exact Hcap].
  apply holds_intro; cbn [data size capacity];
    rewrite ?length_insert, ?length_app; cbn [length]; try lia.
  intros i Hi. destruct (decide (i = length l)) as [->|Hne].
  - rewrite Hsz, list_lookup_insert_eq by lia.
    rewrite lookup_app_r by lia. now rewrite Nat.sub_diag.
  - rewrite list_lookup_insert_ne by lia.
    rewrite (holds_lookup arr1 l i H1) by lia.
    now rewrite lookup_app_l by lia.
Qed.

Lemma pop_holds arr l :
  holds arr l ->
  holds (fst (dynarray_pop arr)) (take (length l - 1) l) /\
  snd (dynarray_pop arr) = (if length l =? 0 then None else l !! (length l - 1)) /\
  (capacity (fst (dynarray_pop arr)) = capacity arr \/
   capacity (fst (dynarray_pop arr)) = capacity arr / DYNARRAY_GROWTH_FACTOR /\
   DYNARRAY_DEFAULT_CAPACITY <= capacity (fst (dynarray_pop arr)) /\
   (length l - 1) * DYNARRAY_SHRINK_THRESHOLD <= capacity arr).
Proof.
  intros H. pose proof (holds_size arr l H) as Hle.
  pose proof H as (Hlen & Hpos & Hsz & Htake).
  unfold dynarray_pop. rewrite Hsz.
  destruct (Nat.eqb_spec (length l) 0) as [Hz|Hz].
  - cbn [fst snd]. split_and!; auto.
    destruct l; [|discriminate]. exact H.
  - cbn [data size capacity].
    set (arr0 := {| data := data arr; size := length l - 1; capacity := capacity arr |}).
    assert (H0 : holds arr0 (take (length l - 1) l)).
    { apply holds_intro; unfold arr0; cbn [data size capacity];
        rewrite ?length_take; try lia.
      intros i Hi. rewrite (holds_lookup arr l i H) by lia.
      now rewrite lookup_take_lt by lia. }
    assert (Hel : cell_at (data arr) (length l - 1) = l !! (length l - 1)).
    { apply (holds_cell arr l); auto. lia. }
    unfold DYNARRAY_DEFAULT_CAPACITY, DYNARRAY_SHRINK_THRESHOLD, DYNARRAY_GROWTH_FACTOR.
    destruct ((0 <? length l - 1) && ((length l - 1) * 4 <=? capacity arr)) eqn:Hshrink;
      [|cbn [fst snd]; split_and!; auto].
    apply andb_true_iff in Hshrink as [_ Hq]. apply Nat.leb_le in Hq.
    destruct (Nat.leb_spec 8 (capacity arr / 2)) as [Hbig|Hbig];
      [|cbn [fst snd]; split_and!; auto].
    destruct (resize_holds arr0 _ (capacity arr / 2) H0 ltac:(lia)) as [R1 R2].
    rewrite length_take in R2.
    pose proof (Nat.div_mod_eq (capacity arr) 2) as Hdiv.
    pose proof (Nat.mod_upper_bound (capacity arr) 2 ltac:(lia)) as Hmod.
    destruct (Nat.ltb_spec (capacity arr / 2) ((length l - 1) `min` length l)); [lia|].
    cbn [fst snd]. split_and!; auto. right. rewrite R2. split_and!; auto.
Qed.

Lemma get_holds arr l i : holds arr l -> dynarray_get arr i = l !! i.
Proof.
  intros H. pose proof H as (_ & _ & Hsz & _). unfold dynarray_get. rewrite Hsz.
  destruct (Nat.ltb_spec i (length l)).
  - now apply holds_cell.
  - symmetry. now apply lookup_ge_None_2.
Qed.

Lemma set_holds arr l i x :
  holds arr l ->
  holds (fst (dynarray_set arr i x)) (<[i := x]> l) /\
  snd (dynarray_set arr i x) = (i <? length l).
Proof.
  intros H. pose proof (holds_size arr l H) as Hle.
  pose proof H as (Hlen & Hpos & Hsz & Htake).
  unfold dynarray_set. rewrite Hsz.
  destruct (Nat.leb_spec (length l) i) as [Hi|Hi]; cbn [fst snd].
  - rewrite list_insert_ge by lia. split; [exact H|].
    symmetry. apply Nat.ltb_ge. lia.
  - split; [|symmetry; now apply Nat.ltb_lt].
    apply holds_intro; cbn [data size capacity]; rewrite ?length_insert; try lia.
    intros j Hj. destruct (decide (j = i)) as [->|Hne].
    + now rewrite !list_lookup_insert_eq by lia.
    + rewrite !list_lookup_insert_ne by lia. apply (holds_lookup arr l j H). lia.
Qed.

Lemma insert_holds arr l i x :
  holds arr l -> i <= length l ->
  holds (fst (dynarray_insert arr i x)) (take i l ++ x :: drop i l) /\
  snd (dynarray_insert arr i x) = true.
Proof.
  intros H Hi. pose proof H as (_ & _ & Hsz0 & _).
  unfold dynarray_insert. rewrite Hsz0.
  destruct (Nat.ltb_spec (length l) i); [lia|].
  destruct (ensure_capacity_holds arr l H) as (H1 & Hroom & _).
  set (arr1 := dynarray_ensure_capacity arr) in *.
  pose proof H1 as (Hlen & Hpos & Hsz & _). cbn [fst snd]. split; [|reflexivity].
  assert (Hlen' : length (take i l ++ x :: drop i l) = S (length l)).
  { rewrite length_app, length_take. cbn [length]. rewrite length_drop. lia. }
  apply holds_intro; cbn [data size capacity];
    rewrite ?length_insert, ?shift_right_length, ?Hlen'; try lia.
  intros j Hj. destruct (decide (j = i)) as [->|Hne].
  - rewrite list_lookup_insert_eq by (rewrite shift_right_length; lia).
    rewrite lookup_app_r by (rewrite length_take; lia).
    rewrite length_take. replace (i - i `min` length l) with 0 by lia. reflexivity.
  - rewrite list_lookup_insert_ne by lia. unfold shift_right. rewrite Hsz.
    rewrite shift_right_lookup by lia.
    destruct (decide (i < j <= i + (length l - i))) as [Hj'|Hj'].
    + rewrite (holds_lookup arr1 l (j - 1) H1) by lia.
      rewrite lookup_app_r by (rewrite length_take; lia).
      rewrite length_take. replace (j - i `min` length l) with (S (j - 1 - i)) by lia.
      change ((x :: drop i l) !! S (j - 1 - i)) with (drop i l !! (j - 1 - i)).
      rewrite lookup_drop.
      replace (i + (j - 1 - i)) with (j - 1) by lia. reflexivity.
    + rewrite (holds_lookup arr1 l j H1) by lia.
      rewrite lookup_app_l by (rewrite length_take; lia).
      now rewrite lookup_take_lt by lia.
Qed.

Lemma remove_holds arr l i :
  holds arr l -> i < length l ->
  holds (fst (dynarray_remove arr i)) (delete i l) /\
  snd (dynarray_remove arr i) = l !! i /\
  capacity (fst (dynarray_remove arr i)) = capacity arr.
Proof.
  intros H Hi. pose proof (holds_size arr l H) as Hle.
  pose proof H as (Hlen & Hpos & Hsz & _).
  unfold dynarray_remove. rewrite Hsz.
  destruct (Nat.leb_spec (length l) i); [lia|]. cbn [fst snd capacity].
  split_and!; [|now apply holds_cell|reflexivity].
  assert (Hlen' : length (delete i l) = length l - 1).
  { rewrite length_delete; [reflexivity|]. now apply lookup_lt_is_Some_2. }
  apply holds_intro; cbn [data size capacity];
    rewrite ?shift_left_length, ?Hlen'; try lia.
  intros j Hj. unfold shift_left. rewrite shift_left_lookup by lia.
  destruct (decide (i <= j < i + (length l - 1 - i))) as [Hj'|Hj'].
  - rewrite (holds_lookup arr l (S j) H) by lia.
    now rewrite list_lookup_delete_ge by lia.
  - rewrite (holds_lookup arr l j H) by lia.
    now rewrite list_lookup_delete_lt by lia.
Qed.

Lemma clear_holds arr l : holds arr l -> holds (dynarray_clear arr) [].
Proof.
  intros (Hlen & Hpos & _). unfold dynarray_clear. split_and!; auto.
Qed.

Lemma reserve_holds arr l n :
  holds arr l ->
  holds (dynarray_reserve arr n) l /\
  capacity (dynarray_reserve arr n) = Nat.max (capacity arr) n.
Proof.
  intros H. pose proof (holds_size arr l H) as Hle.
  pose proof H as (_ & Hpos & Hsz & _). unfold dynarray_reserve.
  destruct (Nat.ltb_spec (capacity arr) n); [|split; [exact H|lia]].
  destruct (resize_holds arr l n H ltac:(lia)) as [R1 R2].
  destruct (Nat.ltb_spec n (length l)); [lia|]. split; [exact R1|lia].
Qed.

Lemma shrink_to_fit_holds arr l :
  holds arr l ->
  holds (dynarray_shrink_to_fit arr) l /\
  capacity (dynarray_shrink_to_fit arr) =
    (if length l =? 0 then capacity arr else length l).
Proof.
  intros H. pose proof (holds_size arr l H) as Hle.
  pose proof H as (_ & Hpos & Hsz & _). unfold dynarray_shrink_to_fit. rewrite Hsz.
  destruct (Nat.ltb_spec (length l) (capacity arr)),
    (Nat.ltb_spec 0 (length l)), (Nat.eqb_spec (length l) 0);
    cbn [andb]; try lia; try (split; [exact H|lia]).
  destruct (resize_holds arr l (length l) H ltac:(lia)) as [R1 R2].
  rewrite Nat.ltb_irrefl in R2. split; [exact R1|exact R2].
Qed.

Lemma push_all_holds (elements : list E) :
  forall arr l,
    holds arr l -> length l + length elements <= capacity arr ->
    holds (fold_left dynarray_push elements arr) (l ++ elements) /\
    capacity (fold_left dynarray_push elements arr) = capacity arr.
Proof.
  induction elements as [|x els IH]; intros arr l H Hroom; cbn [fold_left length] in *.
  - rewrite app_nil_r. auto.
  - destruct (push_holds arr l x H) as [R1 R2].
    destruct (Nat.leb_spec (capacity arr) (length l)); [lia|].
    destruct (IH _ _ R1) as [G1 G2].
    + rewrite length_app, R2. cbn [length]. lia.
    + rewrite <- app_assoc in G1. split; [exact G1|congruence].
Qed.



(** *** What the callers rely on *)

(** The operations the heap calls act on the cells in use as the functions
    of [DynArray] act on the list of elements. *)
Theorem cells_refine_list arr l x i :
  holds arr l ->
  holds (dynarray_push arr x) (DynArray.dynarray_push l x) /\
  holds (fst (dynarray_pop arr)) (fst (DynArray.dynarray_pop l)) /\
  snd (dynarray_pop arr) = snd (DynArray.dynarray_pop l) /\
  dynarray_get arr i = DynArray.dynarray_get l i /\
  holds (fst (dynarray_set arr i x)) (DynArray.dynarray_set l i x) /\
  snd (dynarray_set arr i x) = (i <? length l) /\
  holds (dynarray_clear arr) (DynArray.dynarray_clear l) /\
  dynarray_size arr = DynArray.dynarray_size l /\
  dynarray_is_empty arr = DynArray.dynarray_is_empty l.
Proof.
  intros H. pose proof H as (_ & _ & Hsz & _).
  destruct (pop_holds arr l H) as (P1 & P2 & _).
  assert (Hpop : DynArray.dynarray_pop l =
                 (take (length l - 1) l,
                  if length l =? 0 then None else l !! (length l - 1))).
  { unfold DynArray.dynarray_pop. destruct (length l) as [|n] eqn:Hn.
    - destruct l; [reflexivity|discriminate].
    - cbn [Nat.eqb]. now replace (S n - 1) with n by lia. }
  rewrite Hpop. cbn [fst snd]. split_and!; auto.
  - apply (push_holds arr l x H).
  - now apply get_holds.
  - apply (set_holds arr l i x H).
  - apply (set_holds arr l i x H).
  - apply (clear_holds arr l H).
  - unfold dynarray_is_empty, DynArray.dynarray_is_empty. now rewrite Hsz.
Qed.

(** When the block changes size: [push] doubles a full block, [pop] halves
    a block of which a quarter or less is in use but never below 8 cells,
    [reserve] and [shrink_to_fit] give the size asked for, [clear] keeps
    the block; the elements stay and always fit. *)
Theorem capacity_policy arr l x n :
  holds arr l ->
  size arr <= capacity arr /\
  capacity (dynarray_push arr x) =
    (if capacity arr <=? length l
     then capacity arr * DYNARRAY_GROWTH_FACTOR else capacity arr) /\
  (capacity (fst (dynarray_pop arr)) = capacity arr \/
   capacity (fst (dynarray_pop arr)) = capacity arr / DYNARRAY_GROWTH_FACTOR /\
   DYNARRAY_DEFAULT_CAPACITY <= capacity (fst (dynarray_pop arr)) /\
   (length l - 1) * DYNARRAY_SHRINK_THRESHOLD <= capacity arr) /\
  holds (dynarray_reserve arr n) l /\
  capacity (dynarray_reserve arr n) = Nat.max (capacity arr) n /\
  holds (dynarray_shrink_to_fit arr) l /\
  capacity (dynarray_shrink_to_fit arr) =
    (if length l =? 0 then capacity arr else length l) /\
  capacity (dynarray_clear arr) = capacity arr.
Proof.
  intros H. split_and!.
  - now apply (holds_size arr l).
  - apply (push_holds arr l x H).
  - apply (pop_holds arr l H).
  - apply (reserve_holds arr l n H).
  - apply (reserve_holds arr l n H).
  - apply (shrink_to_fit_holds arr l H).
  - apply (shrink_to_fit_holds arr l H).
  - reflexivity.
Qed.

(** [insert] at an index up to the size moves the elements from that index
    on one cell up and puts the element there; beyond the size it refuses
    and changes nothing. *)
Theorem insert_shifts arr l i x :
  holds arr l ->
  (i <= length l ->
   holds (fst (dynarray_insert arr i x)) (take i l ++ x :: drop i l) /\
   snd (dynarray_insert arr i x) = true /\
   dynarray_get (fst (dynarray_insert arr i x)) i = Some x) /\
  (length l < i -> dynarray_insert arr i x = (arr, false)).
Proof.
  intros H. split.
  - intros Hi. destruct (insert_holds arr l i x H Hi) as [H1 H2].
    split_and!; auto. rewrite (get_holds _ _ i H1).
    rewrite lookup_app_r by (rewrite length_take; lia).
    rewrite length_take. now replace (i - i `min` length l) with 0 by lia.
  - intros Hi. unfold dynarray_insert. destruct H as (_ & _ & -> & _).
    destruct (Nat.ltb_spec (length l) i); [reflexivity|lia].
Qed.

(** [remove] at an index below the size returns the element there and moves
    the elements after it one cell down; at other indices it returns [NULL]
    and changes nothing. *)
Theorem remove_shifts arr l i :
  holds arr l ->
  (i < length l ->
   holds (fst (dynarray_remove arr i)) (take i l ++ drop (S i) l) /\
   snd (dynarray_remove arr i) = l !! i /\
   capacity (fst (dynarray_remove arr i)) = capacity arr) /\
  (length l <= i -> dynarray_remove arr i = (arr, None)).
Proof.
  intros H. split.
  - intros Hi. destruct (remove_holds arr l i H Hi) as (H1 & H2 & H3).
    split_and!; auto. now rewrite <- delete_take_drop.
  - intros Hi. unfold dynarray_remove. destruct H as (_ & _ & -> & _).
    destruct (Nat.leb_spec (length l) i); [reflexivity|lia].
Qed.

(** [remove] undoes [insert] at the same index: it returns the element
    inserted and the array holds what it held. *)
Theorem insert_remove_round_trip arr l i x :
  holds arr l -> i <= length l ->
  let inserted := fst (dynarray_insert arr i x) in
  snd (dynarray_remove inserted i) = Some x /\
  holds (fst (dynarray_remove inserted i)) l.
Proof.
  intros H Hi inserted. destruct (insert_holds arr l i x H Hi) as [H1 _].
  fold inserted in H1.
  assert (Hlen : i < length (take i l ++ x :: drop i l)).
  { rewrite length_app, length_take. cbn [length]. lia. }
  destruct (remove_holds inserted _ i H1 Hlen) as (R1 & R2 & _).
  assert (Hi' : length (take i l) = i) by (rewrite length_take; lia).
  split.
  - rewrite R2. rewrite lookup_app_r by lia.
    now replace (i - length (take i l)) with 0 by lia.
  - rewrite <- Hi' in R1 at 2. rewrite delete_middle, take_drop in R1. exact R1.
Qed.


(** The allocation pattern of [binary_heap_build_from_array]: after [clear]
    and [reserve] of the count, pushing the array never moves the block. *)
Theorem reserve_then_push arr l (elements : list E) :
  holds arr l ->
  let reserved := dynarray_reserve (dynarray_clear arr) (length elements) in
  let arr' := fold_left dynarray_push elements reserved in
  holds arr' (fold_left DynArray.dynarray_push elements (DynArray.dynarray_clear l)) /\
  capacity arr' = capacity reserved /\
  capacity reserved = Nat.max (capacity arr) (length elements).
Proof.
  intros H reserved arr'.
  destruct (reserve_holds _ _ (length elements) (clear_holds arr l H)) as [H1 H2].
  fold reserved in H1, H2. cbn [dynarray_clear capacity] in H2.
  destruct (push_all_holds elements reserved [] H1) as [G1 G2].
  { cbn [length]. lia. }
  fold arr' in G1, G2. split_and!; auto.
  unfold DynArray.dynarray_clear. now rewrite HeapFacts.push_all_cells.
Qed.

End Blocks.

(** ** Examples *)

Section Examples.

#[local] Open Scope Z_scope.

(** Three pushes on an array of two cells: the block has doubled once. *)
Lemma holds_example :
  holds (run_array_ops 2 [PushBack 10; PushBack 20; PushBack 30]) [10; 20; 30].
Proof. split_and!; [reflexivity|vm_compute; lia|reflexivity|reflexivity]. Qed.

Lemma cells_refine_list_witness :
  let arr := run_array_ops 2 [PushBack 10; PushBack 20; PushBack 30] in
  holds arr [10; 20; 30] /\
  holds (dynarray_push arr 40) (DynArray.dynarray_push [10; 20; 30] 40) /\
  snd (dynarray_pop arr) = snd (DynArray.dynarray_pop [10; 20; 30]) /\
  dynarray_get arr 1 = DynArray.dynarray_get [10; 20; 30] 1%nat.
Proof.
  intros arr. split; [exact holds_example|].
  destruct (cells_refine_list arr [10; 20; 30] 40 1%nat holds_example)
    as (H1 & _ & H2 & H3 & _).
  split; [exact H1|]. split; [exact H2|exact H3].
Defined.

Lemma capacity_policy_witness :
  let arr := run_array_ops 2 [PushBack 10; PushBack 20; PushBack 30] in
  holds arr [10; 20; 30] /\
  (size arr <= capacity arr)%nat /\
  capacity (dynarray_reserve arr 9) = Nat.max (capacity arr) 9 /\
  capacity (dynarray_shrink_to_fit arr) = 3%nat.
Proof.
  intros arr. split; [exact holds_example|].
  destruct (capacity_policy arr [10; 20; 30] 40 9%nat holds_example)
    as (H1 & _ & _ & _ & H2 & _ & H3 & _).
  split; [exact H1|]. split; [exact H2|exact H3].
Defined.

Lemma insert_shifts_witness :
  let arr := run_array_ops 2 [PushBack 10; PushBack 20; PushBack 30] in
  holds arr [10; 20; 30] /\ (1 <= 3)%nat /\
  holds (fst (dynarray_insert arr 1 15)) [10; 15; 20; 30] /\
  dynarray_insert arr 4 15 = (arr, false).
Proof.
  intros arr. split; [exact holds_example|]. split; [lia|].
  split.
  - exact (proj1 (proj1 (insert_shifts arr [10; 20; 30] 1%nat 15 holds_example)
                    ltac:(simpl; lia))).
  - exact (proj2 (insert_shifts arr [10; 20; 30] 4%nat 15 holds_example)
             ltac:(simpl; lia)).
Defined.

Lemma remove_shifts_witness :
  let arr := run_array_ops 2 [PushBack 10; PushBack 20; PushBack 30] in
  holds arr [10; 20; 30] /\ (1 < 3)%nat /\
  holds (fst (dynarray_remove arr 1)) [10; 30] /\
  snd (dynarray_remove arr 1) = Some 20.
Proof.
  intros arr. split; [exact holds_example|]. split; [lia|].
  destruct (proj1 (remove_shifts arr [10; 20; 30] 1%nat holds_example)
              ltac:(simpl; lia)) as (H1 & H2 & _).
  split; [exact H1|exact H2].
Defined.

Lemma insert_remove_round_trip_witness :
  let arr := run_array_ops 2 [PushBack 10; PushBack 20; PushBack 30] in
  holds arr [10; 20; 30] /\ (3 <= 3)%nat /\
  snd (dynarray_remove (fst (dynarray_insert arr 3 40)) 3) = Some 40 /\
  holds (fst (dynarray_remove (fst (dynarray_insert arr 3 40)) 3)) [10; 20; 30].
Proof.
  intros arr. split; [exact holds_example|]. split; [lia|].
  exact (insert_remove_round_trip arr [10; 20; 30] 3%nat 40 holds_example
           ltac:(simpl; lia)).
Defined.

Lemma reserve_then_push_witness :
  let arr := run_array_ops 2 [PushBack 10; PushBack 20; PushBack 30] in
  holds arr [10; 20; 30] /\
  holds (fold_left dynarray_push [1; 2; 3; 4; 5]
           (dynarray_reserve (dynarray_clear arr) 5)) [1; 2; 3; 4; 5] /\
  capacity (fold_left dynarray_push [1; 2; 3; 4; 5]
              (dynarray_reserve (dynarray_clear arr) 5)) = 5%nat.
Proof.
  intros arr. split; [exact holds_example|].
  destruct (reserve_then_push arr [10; 20; 30] [1; 2; 3; 4; 5] holds_example)
    as (H1 & H2 & H3).
  split; [exact H1|exact (eq_trans H2 H3)].
Defined.

End Examples.

End DynArrayCellsFacts.
